(** * Infinite-canvas engine: chunk generation, caches, texture loader,
      fade animator and chunk-update throttling.

    A shallow embedding of the TypeScript sources
    [lib/utils.ts], [lib/constants.ts], [lib/chunk-utils.ts],
    [lib/texture-manager.ts], [lib/fade-manager.ts] and of the chunk logic of
    [components/infinite-canvas/scene.tsx].

    Number model.  Integer-valued JavaScript numbers (chunk coordinates,
    hashes, indices, counters) are [Z] or [nat].  Times, speeds and opacities,
    on which the code only adds, subtracts and compares, are exact rationals
    [Q].  The plane generator goes through [Math.sin], which ECMAScript leaves
    implementation-approximated; it is embedded over the real numbers [R] with
    the mathematical sine.  IEEE-754 rounding is outside of this model. *)

From Stdlib Require Import ZArith List String Ascii Bool Lia Arith.
From Stdlib Require Import QArith Qround Qminmax Qabs.
From Stdlib Require Import Reals Psatz.
From Stdlib Require Import DecimalString DecimalZ.
From Stdlib Require Import Permutation Sorted.
Import ListNotations.

Set Implicit Arguments.

(* ------------------------------------------------------------------ *)
(** ** JavaScript containers used by the engine *)

(** [Array.prototype.sort(cmp)].  The sort is stable, so for a comparator
    that orders by a key its result is the one of a stable insertion sort;
    [lt a b] stands for [cmp(a, b) < 0]. *)
Module JsArray.
Section Sort.
Variable A : Type.
Variable lt : A -> A -> bool.

Fixpoint insertBy (x : A) (l : list A) : list A :=
  match l with
  | [] => [x]
  | y :: l' => if lt y x then y :: insertBy x l' else x :: y :: l'
  end.

Fixpoint sortBy (l : list A) : list A :=
  match l with
  | [] => []
  | x :: l' => insertBy x (sortBy l')
  end.
End Sort.

(** [Array.prototype.includes] on strings. *)
Definition includes (x : string) (l : list string) : bool :=
  existsb (String.eqb x) l.
End JsArray.

(** [Map<string, V>]: an association list in insertion order with unique
    keys.  [set] on a present key keeps its position, on a new key appends. *)
Module JsMap.
Section Map.
Variable V : Type.

Definition t := list (string * V).

Fixpoint get (k : string) (m : t) : option V :=
  match m with
  | [] => None
  | (k', v) :: m' => if String.eqb k k' then Some v else get k m'
  end.

Definition has (k : string) (m : t) : bool :=
  match get k m with Some _ => true | None => false end.

Fixpoint set (k : string) (v : V) (m : t) : t :=
  match m with
  | [] => [(k, v)]
  | (k', v') :: m' =>
      if String.eqb k k' then (k', v) :: m' else (k', v') :: set k v m'
  end.

Definition delete (k : string) (m : t) : t :=
  filter (fun e => negb (String.eqb k (fst e))) m.

Definition size (m : t) : nat := List.length m.
Definition keys (m : t) : list string := map fst m.
End Map.
End JsMap.

(* ------------------------------------------------------------------ *)
(** ** lib/utils.ts *)

Module Utils.

Open Scope Z_scope.

(** ToInt32 of an integer-valued number: wrap to signed 32 bits. *)
Definition toInt32 (z : Z) : Z :=
  let m := z mod 2 ^ 32 in
  if m <? 2 ^ 31 then m else m - 2 ^ 32.

(** [x >>> 0]: wrap to unsigned 32 bits. *)
Definition toUint32 (z : Z) : Z := z mod 2 ^ 32.

Definition charCodeAt (c : ascii) : Z := Z.of_N (N_of_ascii c).

(** The loop of [hashString]: [hash = (hash * 33) ^ str.charCodeAt(i)]. *)
Fixpoint hashLoop (str : string) (hash : Z) : Z :=
  match str with
  | EmptyString => hash
  | String c rest =>
      hashLoop rest (Z.lxor (toInt32 (hash * 33)) (toInt32 (charCodeAt c)))
  end.

Definition hashString (str : string) : Z :=
  toUint32 (hashLoop str 5381).

(** Template-literal rendering of an integer-valued number. *)
Definition numberToString (z : Z) : string :=
  NilZero.string_of_int (Z.to_int z).

(** [Math.floor] on the reals. *)
Definition floor (x : R) : Z := Int_part x.

(** [seededRandom]: [x = sin(seed * 9999.9) * 99999.9; x - floor(x)]. *)
Definition seededRandom (seed : Z) : R :=
  let x := (sin (IZR seed * 9999.9) * 99999.9)%R in
  (x - IZR (floor x))%R.

(** [clamp]: [Math.min(Math.max(value, min), max)], which selects one of
    its arguments and so is exact on any number type. *)
Definition clamp (value lo hi : Q) : Q := Qmin (Qmax value lo) hi.

(** [lerp]: [a + (b - a) * t], here in exact rational arithmetic.  The
    code rounds the difference, the product and the sum to doubles, so
    this definition gives the code's value only up to that rounding: it
    is used for bounds that leave room for the rounding, not for the
    exact value of a result. *)
Definition lerp (a b t : Q) : Q := (a + (b - a) * t)%Q.

End Utils.

(* ------------------------------------------------------------------ *)
(** ** lib/types.ts *)

Record ChunkOffset := mkOffset { dx : Z; dy : Z; dz : Z }.

Record Vector3 := mkVec { vx : R; vy : R; vz : R }.

Record PlaneData := mkPlane {
  plane_id : string;
  position : Vector3;
  scale : Vector3;
  mediaIndex : Z
}.

Record ChunkData := mkChunk {
  chunk_key : string; chunk_cx : Z; chunk_cy : Z; chunk_cz : Z
}.

Record MediaItem := mkMedia {
  url : string; width : Z; height : Z
}.

(* ------------------------------------------------------------------ *)
(** ** lib/constants.ts *)

Module Constants.

Open Scope Z_scope.

Definition CHUNK_SIZE : Z := 110.
Definition RENDER_DISTANCE : Z := 2.
Definition CHUNK_FADE_MARGIN : Z := 1.
Definition PRELOAD_DISTANCE : Z := 4.
Definition PLANES_PER_CHUNK : nat := 12.
Definition PLANE_SIZE_MIN : Z := 12.
Definition PLANE_SIZE_MAX : Z := 20.

(** [Math.max(Math.abs(dx), Math.abs(dy), Math.abs(dz))]. *)
Definition chebyshev (o : ChunkOffset) : Z :=
  Z.max (Z.abs (dx o)) (Z.max (Z.abs (dy o)) (Z.abs (dz o))).

(** The values of a [for (v = lo; v <= lo + n - 1; v++)] loop. *)
Fixpoint range (lo : Z) (n : nat) : list Z :=
  match n with
  | O => []
  | S n' => lo :: range (lo + 1) n'
  end.

Definition loopRange (maxDist : Z) : list Z :=
  range (- maxDist) (Z.to_nat (2 * maxDist + 1)).

(** The triple loop of [computeChunkOffsets]: the array before the sort. *)
Definition offsetLoop (maxDist : Z) : list ChunkOffset :=
  flat_map (fun x =>
    flat_map (fun y =>
      flat_map (fun z =>
        let o := mkOffset x y z in
        if chebyshev o <=? maxDist then [o] else [])
      (loopRange maxDist))
    (loopRange maxDist))
  (loopRange maxDist).

Definition computeChunkOffsets (maxDist : Z) : list ChunkOffset :=
  JsArray.sortBy (fun a b => chebyshev a <? chebyshev b)
                 (offsetLoop maxDist).

Definition CHUNK_OFFSETS : list ChunkOffset :=
  computeChunkOffsets (RENDER_DISTANCE + CHUNK_FADE_MARGIN).

Definition PRELOAD_CHUNK_OFFSETS : list ChunkOffset :=
  filter (fun o => RENDER_DISTANCE + CHUNK_FADE_MARGIN <? chebyshev o)
         (computeChunkOffsets PRELOAD_DISTANCE).

Definition PRELOAD_THROTTLE_MS : Q := 500%Q.
Definition INITIAL_CAMERA_Z : Q := 50%Q.
Definition VELOCITY_LERP : Q := 0.16%Q.
Definition VELOCITY_DECAY : Q := 0.9%Q.
Definition MAX_VELOCITY : Q := 3.2%Q.
Definition KEYBOARD_SPEED : Q := 0.18%Q.

End Constants.

(* ------------------------------------------------------------------ *)
(** ** lib/chunk-utils.ts *)

Module ChunkUtils.

Import Utils Constants.
Open Scope Z_scope.

Definition MAX_PLANE_CACHE : nat := 256.

(** The cache key [`${cx},${cy},${cz}`]. *)
Definition chunkKey (cx cy cz : Z) : string :=
  (numberToString cx ++ "," ++ numberToString cy ++ ","
     ++ numberToString cz)%string.

(** The plane id [`${cx}-${cy}-${cz}-${i}`]. *)
Definition planeId (cx cy cz : Z) (i : nat) : string :=
  (numberToString cx ++ "-" ++ numberToString cy ++ "-"
     ++ numberToString cz ++ "-" ++ numberToString (Z.of_nat i))%string.

(** One iteration of the loop of [generateChunkPlanes].  The id and the
    order of the fields are the code's; the numbers of [position] and
    [scale] are the exact real values of the code's expressions, which
    the code rounds to doubles (far from the origin the rounding of
    [cx * CHUNK_SIZE + r * CHUNK_SIZE] is coarser than a plane's offset),
    so nothing below rests on the exact value of a position. *)
Definition generatePlane (cx cy cz seed : Z) (i : nat) : PlaneData :=
  let s := seed + Z.of_nat i * 1000 in
  let r := fun n : Z => seededRandom (s + n) in
  let size :=
    (IZR PLANE_SIZE_MIN + r 4%Z * (IZR PLANE_SIZE_MAX - IZR PLANE_SIZE_MIN))%R in
  mkPlane (planeId cx cy cz i)
          (mkVec (IZR cx * IZR CHUNK_SIZE + r 0%Z * IZR CHUNK_SIZE)%R
                 (IZR cy * IZR CHUNK_SIZE + r 1%Z * IZR CHUNK_SIZE)%R
                 (IZR cz * IZR CHUNK_SIZE + r 2%Z * IZR CHUNK_SIZE)%R)
          (mkVec size size 1%R)
          (floor (r 5%Z * 1000000)%R).

Definition generateChunkPlanes (cx cy cz : Z) : list PlaneData :=
  let seed := hashString (chunkKey cx cy cz) in
  map (generatePlane cx cy cz seed) (seq 0 PLANES_PER_CHUNK).

Definition PlaneCache := JsMap.t (list PlaneData).

(** The eviction loop
    [while (size > MAX) { firstKey = keys().next().value;
                          if (firstKey) delete(firstKey) }].
    An empty first key is falsy and is never deleted: the loop then does
    not terminate, which is [None]. *)
Fixpoint evictPlanes (cache : PlaneCache) : option PlaneCache :=
  match cache with
  | [] => Some []
  | (firstKey, _) :: rest =>
      if (MAX_PLANE_CACHE <? JsMap.size cache)%nat then
        if String.eqb firstKey "" then None else evictPlanes rest
      else Some cache
  end.

(** [generateChunkPlanesCached]: the returned list and the new cache. *)
Definition generateChunkPlanesCached (cx cy cz : Z) (planeCache : PlaneCache)
  : option (list PlaneData * PlaneCache) :=
  let key := chunkKey cx cy cz in
  match JsMap.get key planeCache with
  | Some cached =>
      Some (cached, JsMap.set key cached (JsMap.delete key planeCache))
  | None =>
      let planes := generateChunkPlanes cx cy cz in
      match evictPlanes (JsMap.set key planes planeCache) with
      | Some cache' => Some (planes, cache')
      | None => None
      end
  end.

(** [getChunkUpdateThrottleMs]. *)
Definition getChunkUpdateThrottleMs (isZooming : bool) (zoomSpeed : Q) : Q :=
  if Qlt_le_dec 1 zoomSpeed then 500%Q
  else if isZooming then 400%Q
  else 100%Q.

(** [shouldThrottleUpdate]: [now - lastUpdate >= throttleMs]. *)
Definition shouldThrottleUpdate (lastUpdate throttleMs now : Q) : bool :=
  Qle_bool throttleMs (now - lastUpdate).

(** [clearPlaneCache]. *)
Definition clearPlaneCache (planeCache : PlaneCache) : PlaneCache := [].

End ChunkUtils.

(* ------------------------------------------------------------------ *)
(** ** lib/texture-manager.ts *)

Module TextureManager.

Definition MAX_CONCURRENT_LOADS : nat := 8.
Definition MAX_CACHE_SIZE : nat := 750.

(** A [THREE.Texture] built by [createTextureFromBitmap]: its identity and
    whether it carries an image. *)
Record Texture := mkTexture { tex_id : nat; tex_image : bool }.

(** The function objects handed to [getTexture]: a caller's [onLoad]
    closure, or the closure [() => { reportProgress(); }] that
    [preloadAllTextures] creates for the item at [index] of call
    [promise]. *)
Inductive Callback :=
| OnLoad (id : nat)
| ReportProgress (promise index : nat).

Definition Callback_eqb (a b : Callback) : bool :=
  match a, b with
  | OnLoad i, OnLoad j => Nat.eqb i j
  | ReportProgress p i, ReportProgress q j => Nat.eqb p q && Nat.eqb i j
  | _, _ => false
  end.

(** The closure state of one [preloadAllTextures] call. *)
Record Preload := mkPreload {
  total : nat;
  loaded : nat;
  progress : list Q;      (* the arguments of [onProgress], oldest first *)
  resolved : bool
}.

(** What the module does to the outside: textures created, fetches
    started, callbacks invoked, textures disposed, failures logged and the
    promises of [preloadAllTextures]. *)
Record Effects := mkEffects {
  created : nat;
  fetched : list string;
  invoked : list (Callback * Texture);
  disposed : list Texture;
  failures : list string;
  preloads : list Preload
}.

(** The module-level variables, the pending [setTimeout(processQueue, 0)]
    calls and the effects so far.  The suspended [processQueue] calls are
    the elements of [loadingUrls]: each awaits the load of one URL. *)
Record State := mkState {
  textureCache : JsMap.t Texture;
  loadCallbacks : JsMap.t (list Callback);
  textureLastUsed : JsMap.t Q;
  loadQueue : list string;
  activeLoads : nat;
  loadingUrls : list string;
  timers : nat;
  effects : Effects
}.

Definition initialState : State :=
  mkState [] [] [] [] 0 [] 0 (mkEffects 0 [] [] [] [] []).

Definition withCache c (s : State) :=
  mkState c (loadCallbacks s) (textureLastUsed s) (loadQueue s)
          (activeLoads s) (loadingUrls s) (timers s) (effects s).
Definition withCallbacks c (s : State) :=
  mkState (textureCache s) c (textureLastUsed s) (loadQueue s)
          (activeLoads s) (loadingUrls s) (timers s) (effects s).
Definition withLastUsed l (s : State) :=
  mkState (textureCache s) (loadCallbacks s) l (loadQueue s)
          (activeLoads s) (loadingUrls s) (timers s) (effects s).
Definition withQueue q (s : State) :=
  mkState (textureCache s) (loadCallbacks s) (textureLastUsed s) q
          (activeLoads s) (loadingUrls s) (timers s) (effects s).
Definition withLoading n l (s : State) :=
  mkState (textureCache s) (loadCallbacks s) (textureLastUsed s) (loadQueue s)
          n l (timers s) (effects s).
Definition withTimers n (s : State) :=
  mkState (textureCache s) (loadCallbacks s) (textureLastUsed s) (loadQueue s)
          (activeLoads s) (loadingUrls s) n (effects s).
Definition withEffects e (s : State) :=
  mkState (textureCache s) (loadCallbacks s) (textureLastUsed s) (loadQueue s)
          (activeLoads s) (loadingUrls s) (timers s) e.

Fixpoint updateAt {A} (n : nat) (f : A -> A) (l : list A) : list A :=
  match l, n with
  | [], _ => []
  | x :: l', O => f x :: l'
  | x :: l', S n' => x :: updateAt n' f l'
  end.

(** [reportProgress] of [preloadAllTextures]:
    [loaded++; onProgress(loaded / total); if (loaded === total) resolve()]. *)
Definition reportProgress (p : Preload) : Preload :=
  let l := S (loaded p) in
  mkPreload (total p) l
            (progress p ++ [inject_Z (Z.of_nat l) / inject_Z (Z.of_nat (total p))])
            (resolved p || Nat.eqb l (total p)).

(** Invoking a callback with a texture. *)
Definition call (cb : Callback) (tex : Texture) (e : Effects) : Effects :=
  let ps :=
    match cb with
    | OnLoad _ => preloads e
    | ReportProgress p _ => updateAt p reportProgress (preloads e)
    end in
  mkEffects (created e) (fetched e) (invoked e ++ [(cb, tex)]) (disposed e)
            (failures e) ps.

Definition callAll (cbs : list Callback) (tex : Texture) (e : Effects)
  : Effects :=
  fold_left (fun e cb => call cb tex e) cbs e.

(** [Set.prototype.add]. *)
Definition setAdd (cb : Callback) (l : list Callback) : list Callback :=
  if existsb (Callback_eqb cb) l then l else l ++ [cb].

(** The test [existing && existing.image] on [textureCache.get(url)]. *)
Definition readyTexture (u : string) (s : State) : option Texture :=
  match JsMap.get u (textureCache s) with
  | Some tex => if tex_image tex then Some tex else None
  | None => None
  end.

(** [loadCallbacks.get(url)?.forEach(cb => cb(tex)); loadCallbacks.delete(url)]. *)
Definition flushCallbacks (u : string) (tex : Texture) (s : State) : State :=
  let cbs :=
    match JsMap.get u (loadCallbacks s) with Some l => l | None => [] end in
  withCallbacks (JsMap.delete u (loadCallbacks s))
                (withEffects (callAll cbs tex (effects s)) s).

(** The code after the [while] loop of [processQueue]. *)
Definition afterLoop (s : State) : State :=
  if (0 <? List.length (loadQueue s))
     && (activeLoads s <? MAX_CONCURRENT_LOADS)
  then withTimers (S (timers s)) s else s.

(** [processQueue] up to its first [await] (the call is then suspended and
    its URL is in [loadingUrls]) or to its end.  [queue] is [loadQueue]. *)
Fixpoint processQueueFrom (queue : list string) (s : State) : State :=
  match queue with
  | [] => afterLoop (withQueue [] s)
  | u :: rest =>
      if activeLoads s <? MAX_CONCURRENT_LOADS then
        if String.eqb u "" || JsArray.includes u (loadingUrls s)
        then processQueueFrom rest s
        else
          match readyTexture u s with
          | Some existing => processQueueFrom rest (flushCallbacks u existing s)
          | None =>
              let e := effects s in
              withEffects
                (mkEffects (created e) (fetched e ++ [u]) (invoked e)
                           (disposed e) (failures e) (preloads e))
                (withLoading (S (activeLoads s)) (loadingUrls s ++ [u])
                             (withQueue rest s))
          end
      else afterLoop (withQueue queue s)
  end.

Definition processQueue (s : State) : State :=
  processQueueFrom (loadQueue s) s.

Definition Qltb (a b : Q) : bool := negb (Qle_bool b a).

(** One iteration of the removal loop of [evictOldTextures]. *)
Definition evictEntry (s : State) (entry : string * Q) : State :=
  let u := fst entry in
  match JsMap.get u (textureCache s) with
  | Some tex =>
      let e := effects s in
      withEffects
        (mkEffects (created e) (fetched e) (invoked e) (disposed e ++ [tex])
                   (failures e) (preloads e))
        (withLastUsed (JsMap.delete u (textureLastUsed s))
                      (withCache (JsMap.delete u (textureCache s)) s))
  | None => s
  end.

Definition evictOldTextures (s : State) : State :=
  if (JsMap.size (textureCache s) <=? MAX_CACHE_SIZE)%nat then s
  else
    let entries :=
      JsArray.sortBy (fun a b : string * Q => Qltb (snd a) (snd b))
                     (textureLastUsed s) in
    let toRemove := (JsMap.size (textureCache s) - MAX_CACHE_SIZE)%nat in
    fold_left evictEntry (firstn toRemove entries) s.

(** The body of the loop of [processQueue] after its [await], once the
    load of [u] has settled: the rest of the [try] block or the [catch],
    then the [finally]. *)
Definition afterAwait (u : string) (ok : bool) (now : Q) (s : State)
  : State :=
  let s1 :=
    if ok then
      let e := effects s in
      let texture := mkTexture (created e) true in
      let s := withEffects
                 (mkEffects (S (created e)) (fetched e) (invoked e)
                            (disposed e) (failures e) (preloads e)) s in
      let s := withCache (JsMap.set u texture (textureCache s)) s in
      let s := withLastUsed (JsMap.set u now (textureLastUsed s)) s in
      evictOldTextures (flushCallbacks u texture s)
    else
      let e := effects s in
      withEffects
        (mkEffects (created e) (fetched e) (invoked e) (disposed e)
                   (failures e ++ [u]) (preloads e)) s in
  withLoading (pred (activeLoads s1))
              (filter (fun v => negb (String.eqb u v)) (loadingUrls s1))
              s1.

(** The load a suspended [processQueue] call awaits settles: the call
    resumes, and goes round its loop again. *)
Definition settle (u : string) (ok : bool) (now : Q) (s : State) : State :=
  if JsArray.includes u (loadingUrls s)
  then processQueue (afterAwait u ok now s)
  else s.

Definition getTexture (item : MediaItem) (onLoad : option Callback) (now : Q)
                      (s : State) : State :=
  let u := url item in
  let s := withLastUsed (JsMap.set u now (textureLastUsed s)) s in
  match readyTexture u s with
  | Some existing =>
      match onLoad with
      | Some cb => withEffects (call cb existing (effects s)) s
      | None => s
      end
  | None =>
      let s :=
        match onLoad with
        | Some cb =>
            let cbs :=
              match JsMap.get u (loadCallbacks s) with
              | Some l => l
              | None => []
              end in
            withCallbacks (JsMap.set u (setAdd cb cbs) (loadCallbacks s)) s
        | None => s
        end in
      if JsArray.includes u (loadingUrls s) || JsArray.includes u (loadQueue s)
      then s
      else processQueue (withQueue (loadQueue s ++ [u]) s)
  end.

Definition preloadTextures (items : list MediaItem) (s : State) : State :=
  processQueue
    (fold_left
       (fun s item =>
          let u := url item in
          if JsMap.has u (textureCache s)
             || JsArray.includes u (loadingUrls s)
             || JsArray.includes u (loadQueue s)
          then s
          else withQueue (loadQueue s ++ [u]) s)
       items s).

(** The loop body of [preloadAllTextures] for the item at [index]. *)
Definition preloadItem (p : nat) (now : Q) (s : State)
                       (entry : nat * MediaItem) : State :=
  let (index, item) := entry in
  match readyTexture (url item) s with
  | Some _ =>
      let e := effects s in
      withEffects
        (mkEffects (created e) (fetched e) (invoked e) (disposed e)
                   (failures e) (updateAt p reportProgress (preloads e))) s
  | None => getTexture item (Some (ReportProgress p index)) now s
  end.

(** [preloadAllTextures(items, onProgress)]; the promise it returns is
    the last element of [preloads]. *)
Definition preloadAllTextures (items : list MediaItem) (now : Q) (s : State)
  : State :=
  let e := effects s in
  let p := List.length (preloads e) in
  let n := List.length items in
  let fresh :=
    if Nat.eqb n 0 then mkPreload 0 0 [1] true else mkPreload n 0 [] false in
  let s := withEffects
             (mkEffects (created e) (fetched e) (invoked e) (disposed e)
                        (failures e) (preloads e ++ [fresh])) s in
  fold_left (preloadItem p now) (combine (seq 0 n) items) s.

(** [getCachedTexture]: a read of [textureCache] and nothing else. *)
Definition getCachedTexture (u : string) (s : State) : option Texture :=
  match JsMap.get u (textureCache s) with
  | Some tex => if tex_image tex then Some tex else None
  | None => None
  end.

(** What can happen to the module: a call of an exported function, the
    settling of the load a suspended [processQueue] call awaits, or a
    timer. *)
Inductive Event :=
| GetTexture (item : MediaItem) (onLoad : option Callback) (now : Q)
| PreloadTextures (items : list MediaItem)
| PreloadAllTextures (items : list MediaItem) (now : Q)
| GetCachedTexture (u : string)
| LoadSettled (u : string) (ok : bool) (now : Q)
| TimerFired.

Definition step (s : State) (ev : Event) : State :=
  match ev with
  | GetTexture item onLoad now => getTexture item onLoad now s
  | PreloadTextures items => preloadTextures items s
  | PreloadAllTextures items now => preloadAllTextures items now s
  | GetCachedTexture _ => s
  | LoadSettled u ok now => settle u ok now s
  | TimerFired =>
      match timers s with
      | O => s
      | S n => processQueue (withTimers n s)
      end
  end.

Definition run (evs : list Event) (s : State) : State :=
  fold_left step evs s.

(** [getLoadingStats]: [{ cached, queued, loading }]. *)
Record LoadingStats := mkStats {
  stat_cached : nat; stat_queued : nat; stat_loading : nat
}.

Definition getLoadingStats (s : State) : LoadingStats :=
  mkStats (JsMap.size (textureCache s)) (List.length (loadQueue s))
          (activeLoads s).

(** [isTextureCached].  The textures of this module carry an [ImageBitmap]
    or nothing, so the [HTMLImageElement] case does not arise. *)
Definition isTextureCached (u : string) (s : State) : bool :=
  match JsMap.get u (textureCache s) with
  | Some tex => tex_image tex
  | None => false
  end.

End TextureManager.

(* ------------------------------------------------------------------ *)
(** ** lib/fade-manager.ts *)

Module FadeManager.

Definition FADE_IN_SPEED : Q := 0.08.
Definition FADE_OUT_SPEED : Q := 0.1.

(** The THREE objects the animator writes to, addressed by handle. *)
Record Material := mkMaterial { opacity : Q; depthWrite : bool }.

Record Scene := mkScene {
  materials : nat -> Material;
  visible : nat -> bool            (* [mesh.visible] *)
}.

Record FadeEntry := mkEntry {
  imageMaterial : nat;
  placeholderMaterial : nat;
  imageMesh : nat;
  placeholderMesh : nat;
  imageOpacity : Q;
  placeholderOpacity : Q
}.

(** Module variables, the frame callbacks the browser holds
    ([requestAnimationFrame] ids, all of them for [animate]) and the scene. *)
Record State := mkState {
  activeFades : JsMap.t FadeEntry;
  isAnimating : bool;
  animationFrameId : option nat;
  scheduled : list nat;
  nextFrameId : nat;
  scene : Scene
}.

Definition update {A} (f : nat -> A) (h : nat) (v : A) : nat -> A :=
  fun h' => if Nat.eqb h' h then v else f h'.

Definition setOpacity (h : nat) (o : Q) (sc : Scene) : Scene :=
  mkScene (update (materials sc) h
                  (mkMaterial o (depthWrite (materials sc h))))
          (visible sc).

Definition setDepthWrite (h : nat) (b : bool) (sc : Scene) : Scene :=
  mkScene (update (materials sc) h
                  (mkMaterial (opacity (materials sc h)) b))
          (visible sc).

Definition setVisible (h : nat) (b : bool) (sc : Scene) : Scene :=
  mkScene (materials sc) (update (visible sc) h b).

(** [animationFrameId = requestAnimationFrame(animate)]. *)
Definition requestAnimationFrame (s : State) : State :=
  mkState (activeFades s) (isAnimating s) (Some (nextFrameId s))
          (scheduled s ++ [nextFrameId s]) (S (nextFrameId s)) (scene s).

Definition startFade (id : string)
           (imageMaterial placeholderMaterial imageMesh placeholderMesh : nat)
           (s : State) : State :=
  let fades :=
    JsMap.set id
      (mkEntry imageMaterial placeholderMaterial imageMesh placeholderMesh 0 1)
      (activeFades s) in
  let s := mkState fades (isAnimating s) (animationFrameId s) (scheduled s)
                   (nextFrameId s) (scene s) in
  if isAnimating s then s
  else
    requestAnimationFrame
      (mkState (activeFades s) true (animationFrameId s) (scheduled s)
               (nextFrameId s) (scene s)).

Definition removeFade (id : string) (s : State) : State :=
  mkState (JsMap.delete id (activeFades s)) (isAnimating s)
          (animationFrameId s) (scheduled s) (nextFrameId s) (scene s).

Definition Qgtb (a b : Q) : bool := negb (Qle_bool a b).

(** The two opacity assignments of the loop body of [animate]. *)
Definition advance (e : FadeEntry) : FadeEntry :=
  mkEntry (imageMaterial e) (placeholderMaterial e) (imageMesh e)
          (placeholderMesh e)
          (Qmin 1 (imageOpacity e + FADE_IN_SPEED))
          (Qmax 0 (placeholderOpacity e - FADE_OUT_SPEED)).

(** The writes of the loop body to materials and meshes. *)
Definition paint (e : FadeEntry) (sc : Scene) : Scene :=
  let sc := setOpacity (imageMaterial e) (imageOpacity e) sc in
  let sc := setOpacity (placeholderMaterial e) (placeholderOpacity e) sc in
  let sc := setVisible (imageMesh e) (Qgtb (imageOpacity e) 0.01) sc in
  let sc := setVisible (placeholderMesh e) (Qgtb (placeholderOpacity e) 0.01) sc in
  setDepthWrite (imageMaterial e) (Qgtb (imageOpacity e) 0.99) sc.

(** [entry.imageOpacity >= 1 && entry.placeholderOpacity <= 0]. *)
Definition complete (e : FadeEntry) : bool :=
  Qle_bool 1 (imageOpacity e) && Qle_bool (placeholderOpacity e) 0.

(** The first loop of [animate] over the entries in map order: the entries
    as mutated, the scene and [toRemove]. *)
Fixpoint animateLoop (fades : JsMap.t FadeEntry) (sc : Scene)
  : JsMap.t FadeEntry * Scene * list string :=
  match fades with
  | [] => ([], sc, [])
  | (id, entry) :: rest =>
      let entry' := advance entry in
      let sc' := paint entry' sc in
      let '(rest', sc'', toRemove) := animateLoop rest sc' in
      ((id, entry') :: rest', sc'',
       if complete entry' then id :: toRemove else toRemove)
  end.

Definition animate (s : State) : State :=
  let '(fades, sc, toRemove) := animateLoop (activeFades s) (scene s) in
  let fades := fold_left (fun m id => JsMap.delete id m) toRemove fades in
  let s := mkState fades (isAnimating s) (animationFrameId s) (scheduled s)
                   (nextFrameId s) sc in
  if (0 <? JsMap.size (activeFades s))%nat then requestAnimationFrame s
  else mkState (activeFades s) false None (scheduled s) (nextFrameId s)
               (scene s).

Definition stopAllFades (s : State) : State :=
  match animationFrameId s with
  | Some id =>
      mkState [] false None
              (filter (fun i => negb (Nat.eqb i id)) (scheduled s))
              (nextFrameId s) (scene s)
  | None => mkState [] false (animationFrameId s) (scheduled s)
                    (nextFrameId s) (scene s)
  end.

(** An animation frame of the browser: the callbacks scheduled so far run,
    in order; callbacks they schedule wait for the next frame. *)
Definition tick (s : State) : State :=
  fold_left (fun s _ => animate s) (scheduled s)
            (mkState (activeFades s) (isAnimating s) (animationFrameId s) []
                     (nextFrameId s) (scene s)).

Fixpoint ticks (n : nat) (s : State) : State :=
  match n with
  | O => s
  | S n' => ticks n' (tick s)
  end.

Definition initialScene : Scene :=
  mkScene (fun _ => mkMaterial 0 false) (fun _ => false).

Definition initialState : State :=
  mkState [] false None [] 0 initialScene.

Inductive Event :=
| StartFade (id : string) (im pm imesh pmesh : nat)
| RemoveFade (id : string)
| StopAllFades
| Frame.

Definition step (s : State) (ev : Event) : State :=
  match ev with
  | StartFade id im pm imesh pmesh => startFade id im pm imesh pmesh s
  | RemoveFade id => removeFade id s
  | StopAllFades => stopAllFades s
  | Frame => tick s
  end.

(** [ceil(1 / FADE_IN_SPEED)]. *)
Definition fadeInTicks : nat := Z.to_nat (Qceiling (1 / FADE_IN_SPEED)).

Definition run (evs : list Event) (s : State) : State :=
  fold_left step evs s.

(** [getFadeStats]: [{ activeFades: activeFades.size, isAnimating }]. *)
Definition getFadeStats (s : State) : nat * bool :=
  (JsMap.size (activeFades s), isAnimating s).

End FadeManager.

(* ------------------------------------------------------------------ *)
(** ** components/infinite-canvas/scene.tsx: chunk logic *)

Module SceneController.

Import Constants ChunkUtils.

(** The fields of [ControllerState] the chunk logic uses. *)
Record ControllerState := mkController {
  lastChunkKey : string;
  lastChunkUpdate : Q;
  pendingChunk : option (Z * Z * Z)
}.

(** [createInitialState]. *)
Definition createInitialState : ControllerState :=
  mkController "" 0 None.

(** What the chunk logic of one [useFrame] call reads: the clock, the
    position after integration, and [velocity.z] before and after the
    smoothing step of this frame. *)
Record FrameInput := mkFrame {
  now : Q;
  basePosX : Q; basePosY : Q; basePosZ : Q;
  velocityZBefore : Q;
  velocityZ : Q
}.

(** [Math.floor(pos / CHUNK_SIZE)]. *)
Definition chunkCoord (pos : Q) : Z := Qfloor (pos / inject_Z CHUNK_SIZE).

(** The argument of [setChunks]: [CHUNK_OFFSETS] recentred. *)
Definition chunksAround (ucx ucy ucz : Z) : list ChunkData :=
  map (fun o =>
         mkChunk (chunkKey (ucx + dx o) (ucy + dy o) (ucz + dz o))
                 (ucx + dx o) (ucy + dy o) (ucz + dz o))%Z
      CHUNK_OFFSETS.

(** The mount effect: [setChunks(CHUNK_OFFSETS.map(...))]. *)
Definition initialChunks : list ChunkData :=
  map (fun o => mkChunk (chunkKey (dx o) (dy o) (dz o)) (dx o) (dy o) (dz o))
      CHUNK_OFFSETS.

(** The chunk the camera is in at a frame, and its key. *)
Definition frameChunk (f : FrameInput) : Z * Z * Z :=
  (chunkCoord (basePosX f), chunkCoord (basePosY f), chunkCoord (basePosZ f)).

Definition frameKey (f : FrameInput) : string :=
  let '(cx, cy, cz) := frameChunk f in chunkKey cx cy cz.

(** The chunk boundary check of [useFrame]. *)
Definition boundaryCheck (f : FrameInput) (s : ControllerState)
  : ControllerState :=
  if negb (String.eqb (frameKey f) (lastChunkKey s))
  then mkController (frameKey f) (lastChunkUpdate s) (Some (frameChunk f))
  else s.

(** [getChunkUpdateThrottleMs(isZooming, Math.abs(s.velocity.z))], with
    [isZooming = Math.abs(s.velocity.z) > 0.05] taken before the smoothing
    step of the frame. *)
Definition frameThrottle (f : FrameInput) : Q :=
  getChunkUpdateThrottleMs (negb (Qle_bool (Qabs (velocityZBefore f)) 0.05))
                           (Qabs (velocityZ f)).

(** The chunk boundary check and the throttled update of [useFrame]:
    the new controller state and the argument of [setChunks], if called. *)
Definition chunkFrame (f : FrameInput) (s : ControllerState)
  : ControllerState * option (list ChunkData) :=
  let s := boundaryCheck f s in
  let throttleMs := frameThrottle f in
  match pendingChunk s with
  | Some (ucx, ucy, ucz) =>
      if shouldThrottleUpdate (lastChunkUpdate s) throttleMs (now f)
      then (mkController (lastChunkKey s) (now f) None,
            Some (chunksAround ucx ucy ucz))
      else (s, None)
  | None => (s, None)
  end.

(** A run of frames: the final state and the [setChunks] arguments in the
    order of the calls. *)
Fixpoint runFrames (fs : list FrameInput) (s : ControllerState)
  : ControllerState * list (list ChunkData) :=
  match fs with
  | [] => (s, [])
  | f :: fs' =>
      let (s', u) := chunkFrame f s in
      let (s'', us) := runFrames fs' s' in
      (s'', match u with Some c => c :: us | None => us end)
  end.

(** Some frame of [fs] is in another chunk than the frame before it, the
    first one being compared with the chunk of key [k]. *)
Fixpoint crossed (fs : list FrameInput) (k : string) : Prop :=
  match fs with
  | [] => False
  | f :: fs' => frameKey f <> k \/ crossed fs' (frameKey f)
  end.

(** The pending marker, when set, is the chunk of [lastChunkKey]. *)
Definition consistent (s : ControllerState) : Prop :=
  match pendingChunk s with
  | Some (x, y, z) => chunkKey x y z = lastChunkKey s
  | None => True
  end.

(** The [%] operator on integer-valued numbers; a zero divisor gives NaN. *)
Definition jsRem (a b : Z) : option Z :=
  if (b =? 0)%Z then None else Some (Z.rem a b).

(** Array indexing [media[i]]; [undefined] is [None]. *)
Definition arrayGet {A} (l : list A) (i : option Z) : option A :=
  match i with
  | Some i => if (i <? 0)%Z then None else nth_error l (Z.to_nat i)
  | None => None
  end.

(** The body of [planes.map] in [Chunk]: [None] is the skipped plane. *)
Definition renderPlane (media : list MediaItem) (plane : PlaneData)
  : option (MediaItem * PlaneData) :=
  match arrayGet media (jsRem (mediaIndex plane) (Z.of_nat (List.length media))) with
  | Some mediaItem => Some (mediaItem, plane)
  | None => None
  end.

(** [planes.map(...)] in [Chunk], on the plane list of the chunk. *)
Definition renderChunk (media : list MediaItem) (planes : list PlaneData)
  : list (option (MediaItem * PlaneData)) :=
  map (renderPlane media) planes.

End SceneController.

(* ------------------------------------------------------------------ *)
(** ** components/infinite-canvas/scene.tsx: camera motion *)

Module CameraMotion.

Import Utils Constants.
Open Scope Q_scope.

Record Axes := mkAxes { ax : Q; ay : Q; az : Q }.

(** The keys of [getKeys()]. *)
Record Keys := mkKeys {
  forward : bool; backward : bool; left : bool; right : bool;
  up : bool; down : bool
}.

(** The fields of [ControllerState] the motion of the camera uses. *)
Record MotionState := mkMotion {
  velocity : Axes;
  targetVel : Axes;
  basePos : Axes;
  scrollAccum : Q
}.

(** [createInitialState(camZ)], on these fields. *)
Definition createInitialState (camZ : Q) : MotionState :=
  mkMotion (mkAxes 0 0 0) (mkAxes 0 0 0) (mkAxes 0 0 camZ) 0.

(** The keyboard block of [useFrame]. *)
Definition keyboard (k : Keys) (t : Axes) : Axes :=
  let tz := if forward k then az t - KEYBOARD_SPEED else az t in
  let tz := if backward k then tz + KEYBOARD_SPEED else tz in
  let tx := if left k then ax t - KEYBOARD_SPEED else ax t in
  let tx := if right k then tx + KEYBOARD_SPEED else tx in
  let ty := if down k then ay t - KEYBOARD_SPEED else ay t in
  let ty := if up k then ty + KEYBOARD_SPEED else ty in
  mkAxes tx ty tz.

(** [useFrame] from the keyboard block to the velocity decay: scroll,
    clamp, smoothing, integration, decay.  The mouse drift only offsets
    the rendered camera and is left out. *)
Definition moveFrame (k : Keys) (s : MotionState) : MotionState :=
  let t := keyboard k (targetVel s) in
  let t := mkAxes (ax t) (ay t) (az t + scrollAccum s) in
  let scroll := scrollAccum s * 0.8 in
  let t := mkAxes (clamp (ax t) (- MAX_VELOCITY) MAX_VELOCITY)
                  (clamp (ay t) (- MAX_VELOCITY) MAX_VELOCITY)
                  (clamp (az t) (- MAX_VELOCITY) MAX_VELOCITY) in
  let v := mkAxes (lerp (ax (velocity s)) (ax t) VELOCITY_LERP)
                  (lerp (ay (velocity s)) (ay t) VELOCITY_LERP)
                  (lerp (az (velocity s)) (az t) VELOCITY_LERP) in
  let p := mkAxes (ax (basePos s) + ax v) (ay (basePos s) + ay v)
                  (az (basePos s) + az v) in
  let t := mkAxes (ax t * VELOCITY_DECAY) (ay t * VELOCITY_DECAY)
                  (az t * VELOCITY_DECAY) in
  mkMotion v t p scroll.

(** What writes to these fields besides [useFrame]: the mount effect,
    which copies the camera position to [basePos]; [onMouseMove] while
    dragging and [onTouchMove] with one touch, by the pointer's
    displacement; [onWheel] by [deltaY]; [onTouchMove] with two touches,
    by [lastTouchDist - dist]. *)
Inductive Input :=
| Mount (cameraPosition : Axes)
| MouseDrag (dx dy : Q)
| TouchPan (dx dy : Q)
| Wheel (deltaY : Q)
| Pinch (shrink : Q)
| Frame (k : Keys).

Definition step (s : MotionState) (i : Input) : MotionState :=
  let t := targetVel s in
  match i with
  | Mount cameraPosition =>
      mkMotion (velocity s) t cameraPosition (scrollAccum s)
  | MouseDrag dx dy =>
      mkMotion (velocity s)
               (mkAxes (ax t - dx * 0.025) (ay t + dy * 0.025) (az t))
               (basePos s) (scrollAccum s)
  | TouchPan dx dy =>
      mkMotion (velocity s)
               (mkAxes (ax t - dx * 0.02) (ay t + dy * 0.02) (az t))
               (basePos s) (scrollAccum s)
  | Wheel deltaY =>
      mkMotion (velocity s) t (basePos s) (scrollAccum s + deltaY * 0.006)
  | Pinch shrink =>
      mkMotion (velocity s) t (basePos s) (scrollAccum s + shrink * 0.006)
  | Frame k => moveFrame k s
  end.

Definition run (inputs : list Input) (s : MotionState) : MotionState :=
  fold_left step inputs s.

(** The chunk the camera is in: [Math.floor(s.basePos / CHUNK_SIZE)]. *)
Definition chunkOf (s : MotionState) : Z * Z * Z :=
  (SceneController.chunkCoord (ax (basePos s)),
   SceneController.chunkCoord (ay (basePos s)),
   SceneController.chunkCoord (az (basePos s))).

(** [getTouchDistance], on the touch points as pairs of reals. *)
Definition getTouchDistance (touches : list (R * R)) : R :=
  match touches with
  | t1 :: t2 :: _ =>
      let dx := (fst t1 - fst t2)%R in
      let dy := (snd t1 - snd t2)%R in
      sqrt (dx * dx + dy * dy)
  | _ => 0%R
  end.

End CameraMotion.

(* ------------------------------------------------------------------ *)
(** ** components/infinite-canvas/scene.tsx: overscan preloading *)

Module Overscan.

Import Constants ChunkUtils SceneController CameraMotion.

(** [lastPreloadUpdate] and [lastPreloadKey] of [ControllerState]. *)
Record PreloadState := mkPreloadState {
  lastPreloadUpdate : Q;
  lastPreloadKey : string
}.

(** [a.dx * vx + a.dy * vy + a.dz * vz]. *)
Definition dot (o : ChunkOffset) (v : Axes) : Q :=
  (inject_Z (dx o) * ax v + inject_Z (dy o) * ay v
   + inject_Z (dz o) * az v)%Q.

(** [[...PRELOAD_CHUNK_OFFSETS].sort((a, b) => dotB - dotA)]. *)
Definition sortedOffsets (v : Axes) : list ChunkOffset :=
  JsArray.sortBy (fun a b => TextureManager.Qltb (dot b v) (dot a v))
                 PRELOAD_CHUNK_OFFSETS.

(** The index of [media[plane.mediaIndex % media.length]] when that is an
    element of the array. *)
Definition mediaSlot (media : list MediaItem) (plane : PlaneData)
  : option nat :=
  match jsRem (mediaIndex plane) (Z.of_nat (List.length media)) with
  | Some i =>
      if (i <? 0)%Z then None
      else if (Z.to_nat i <? List.length media)%nat then Some (Z.to_nat i)
      else None
  | None => None
  end.

(** The inner loop body.  [preloadItems] holds elements of [media]; an
    element is identified by its index, the array holding distinct
    objects, so [includes] compares indices. *)
Definition collectPlane (media : list MediaItem) (items : list nat)
                        (plane : PlaneData) : list nat :=
  match mediaSlot media plane with
  | Some i => if existsb (Nat.eqb i) items then items else items ++ [i]
  | None => items
  end.

(** The outer loop over [sortedOffsets]: the plane cache, through
    [getChunkPlanes], and [preloadItems]. *)
Fixpoint collectChunks (media : list MediaItem) (cx cy cz : Z)
                       (offsets : list ChunkOffset) (cache : PlaneCache)
                       (items : list nat)
  : option (PlaneCache * list nat) :=
  match offsets with
  | [] => Some (cache, items)
  | o :: rest =>
      match generateChunkPlanesCached (cx + dx o) (cy + dy o) (cz + dz o)
                                      cache with
      | Some (planes, cache') =>
          collectChunks media cx cy cz rest cache'
                        (fold_left (collectPlane media) planes items)
      | None => None
      end
  end.

(** The end of the overscan block: the markers are updated, and
    [preloadTextures] is called [if (preloadItems.length > 0)]. *)
Definition finishPreload (now : Q) (preloadKey : string)
                         (r : option (PlaneCache * list nat))
  : option (PreloadState * PlaneCache * option (list nat)) :=
  match r with
  | Some (cache', items) =>
      Some (mkPreloadState now preloadKey, cache',
            if (0 <? List.length items)%nat then Some items else None)
  | None => None
  end.

(** The overscan block of [useFrame] for a camera in chunk (cx, cy, cz)
    moving at [v]: the new preload markers, the plane cache and the
    argument of [preloadTextures], if called; [None] when the block does
    not return. *)
Definition preloadFrame (media : list MediaItem) (now : Q) (cx cy cz : Z)
                        (v : Axes) (p : PreloadState) (cache : PlaneCache)
  : option (PreloadState * PlaneCache * option (list nat)) :=
  let preloadKey := chunkKey cx cy cz in
  if negb (String.eqb preloadKey (lastPreloadKey p))
     && TextureManager.Qltb PRELOAD_THROTTLE_MS (now - lastPreloadUpdate p)
  then finishPreload now preloadKey
         (collectChunks media cx cy cz (sortedOffsets v) cache [])
  else Some (p, cache, None).

End Overscan.

(* ------------------------------------------------------------------ *)
(** ** Notions used in the statements *)

Module Notions.

Fixpoint occurs (c : ascii) (s : string) : Prop :=
  match s with
  | EmptyString => False
  | String a s' => a = c \/ occurs c s'
  end.

Definition isDigit (a : ascii) : Prop :=
  In a ["0"; "1"; "2"; "3"; "4"; "5"; "6"; "7"; "8"; "9"]%char.

(** The offset a chunk record stands at, relative to the origin. *)
Definition chunkOffset (c : ChunkData) : ChunkOffset :=
  mkOffset (chunk_cx c) (chunk_cy c) (chunk_cz c).

(** The key of a chunk coordinate. *)
Definition coordKey (c : Z * Z * Z) : string :=
  let '(x, y, z) := c in ChunkUtils.chunkKey x y z.

(** Successive calls of [generateChunkPlanesCached] on one plane cache;
    [None] when a call does not return. *)
Fixpoint runCache (trace : list (Z * Z * Z)) (cache : ChunkUtils.PlaneCache)
  : option ChunkUtils.PlaneCache :=
  match trace with
  | [] => Some cache
  | (x, y, z) :: rest =>
      match ChunkUtils.generateChunkPlanesCached x y z cache with
      | Some (_, cache') => runCache rest cache'
      | None => None
      end
  end.

(** What a least-recently-used store of capacity [cap] holds after the
    accesses [trace]: the keys accessed so far, each once, the least
    recently accessed first, cut down to the [cap] most recent ones. *)
Definition touch (acc : list string) (k : string) : list string :=
  remove string_dec k acc ++ [k].

Definition recency (trace : list string) : list string :=
  fold_left touch trace [].

Definition lastN {A} (n : nat) (l : list A) : list A :=
  skipn (List.length l - n) l.

Definition lruContents (cap : nat) (trace : list string) : list string :=
  lastN cap (recency trace).

(** Every entry of a plane cache is the generator's list for a chunk,
    stored under that chunk's key. *)
Definition generated (cache : ChunkUtils.PlaneCache) : Prop :=
  Forall (fun e : string * list PlaneData =>
            exists x y z, fst e = ChunkUtils.chunkKey x y z
                          /\ snd e = ChunkUtils.generateChunkPlanes x y z)
         cache.

(** A state of the fade manager as the exported functions and the
    browser's frames leave it: the map has unique keys, and a frame
    callback is scheduled exactly while [isAnimating] is set. *)
Definition wellFormed (s : FadeManager.State) : Prop :=
  NoDup (JsMap.keys (FadeManager.activeFades s))
  /\ if FadeManager.isAnimating s
     then exists i, FadeManager.scheduled s = [i]
                    /\ FadeManager.animationFrameId s = Some i
     else FadeManager.scheduled s = [].

(** The animator runs exactly while entries are tracked. *)
Definition synced (s : FadeManager.State) : Prop :=
  wellFormed s
  /\ (FadeManager.isAnimating s = true <-> FadeManager.activeFades s <> []).

(** An entry that shares no material and no mesh with the given ones. *)
Definition aloof (im pm imesh pmesh : nat) (e : FadeManager.FadeEntry)
  : Prop :=
  FadeManager.imageMaterial e <> im
  /\ FadeManager.imageMaterial e <> pm
  /\ FadeManager.placeholderMaterial e <> im
  /\ FadeManager.placeholderMaterial e <> pm
  /\ FadeManager.imageMesh e <> imesh
  /\ FadeManager.imageMesh e <> pmesh
  /\ FadeManager.placeholderMesh e <> imesh
  /\ FadeManager.placeholderMesh e <> pmesh.

(** The entry [startFade] registers, after [k] ticks of the animator. *)
Definition fadeAfter (k : nat) (im pm imesh pmesh : nat)
  : FadeManager.FadeEntry :=
  Nat.iter k FadeManager.advance (FadeManager.mkEntry im pm imesh pmesh 0 1).

(** The loop of [animate] taken apart: the entries as advanced, the scene
    as painted and the ids collected in [toRemove]; and the map after the
    second loop. *)
Definition advanced (fades : JsMap.t FadeManager.FadeEntry)
  : JsMap.t FadeManager.FadeEntry :=
  map (fun p => (fst p, FadeManager.advance (snd p))) fades.

Definition painted (fades : JsMap.t FadeManager.FadeEntry)
           (sc : FadeManager.Scene) : FadeManager.Scene :=
  fold_left (fun sc p => FadeManager.paint (FadeManager.advance (snd p)) sc)
            fades sc.

Definition finished (fades : JsMap.t FadeManager.FadeEntry) : list string :=
  map fst (filter (fun p => FadeManager.complete
                              (FadeManager.advance (snd p))) fades).

Definition survivors (fades : JsMap.t FadeManager.FadeEntry)
  : JsMap.t FadeManager.FadeEntry :=
  fold_left (fun m id => JsMap.delete id m) (finished fades) (advanced fades).

(** The scene shows an entry: its materials and meshes carry what the
    loop body of [animate] writes for it. *)
Definition shows (sc : FadeManager.Scene) (e : FadeManager.FadeEntry) : Prop :=
  FadeManager.materials sc (FadeManager.imageMaterial e)
  = FadeManager.mkMaterial
      (FadeManager.imageOpacity e)
      (FadeManager.Qgtb (FadeManager.imageOpacity e) 0.99)
  /\ FadeManager.opacity
       (FadeManager.materials sc (FadeManager.placeholderMaterial e))
     = FadeManager.placeholderOpacity e
  /\ FadeManager.visible sc (FadeManager.imageMesh e)
     = FadeManager.Qgtb (FadeManager.imageOpacity e) 0.01
  /\ FadeManager.visible sc (FadeManager.placeholderMesh e)
     = FadeManager.Qgtb (FadeManager.placeholderOpacity e) 0.01.

(** The events the texture manager does not cause by a call of its own:
    a load settles, a timer fires. *)
Definition environmentEvent (ev : TextureManager.Event) : Prop :=
  match ev with
  | TextureManager.LoadSettled _ _ _ | TextureManager.TimerFired => True
  | _ => False
  end.

(** The callbacks waiting for a URL, in registration order; the fetches
    started for it so far; whether it waits in the queue. *)
Definition callbacksOf (u : string) (s : TextureManager.State)
  : list TextureManager.Callback :=
  match JsMap.get u (TextureManager.loadCallbacks s) with
  | Some l => l
  | None => []
  end.

Definition fetchCount (u : string) (s : TextureManager.State) : nat :=
  count_occ string_dec
            (TextureManager.fetched (TextureManager.effects s)) u.

Definition queuedOnce (u : string) (s : TextureManager.State) : nat :=
  if JsArray.includes u (TextureManager.loadQueue s) then 1%nat else 0%nat.

(** The queue holds no URL twice and none that is being loaded; the
    callback set of each URL holds no callback twice. *)
Definition orderly (s : TextureManager.State) : Prop :=
  NoDup (TextureManager.loadQueue s)
  /\ (forall v, In v (TextureManager.loadQueue s) ->
                ~ In v (TextureManager.loadingUrls s))
  /\ (forall v, NoDup (callbacksOf v s)).

(** A request for [u] is under way: [u] is not cached, it is queued or
    being loaded, and [c] counts the fetches started for it so far plus
    the one its place in the queue stands for. *)
Definition awaiting (u : string) (c : nat) (s : TextureManager.State)
  : Prop :=
  orderly s
  /\ JsMap.get u (TextureManager.textureCache s) = None
  /\ (In u (TextureManager.loadingUrls s)
      \/ In u (TextureManager.loadQueue s))
  /\ (fetchCount u s + queuedOnce u s = c)%nat.


(** What [processQueue] may take off the queue without loading it. *)
Definition droppable (s : TextureManager.State) (d : string) : Prop :=
  d = ""%string \/ In d (TextureManager.loadingUrls s)
  \/ TextureManager.readyTexture d s <> None.

(** Opacities of an entry within [0, 1]. *)
Definition bounded (e : FadeManager.FadeEntry) : Prop :=
  (0 <= FadeManager.imageOpacity e <= 1
   /\ 0 <= FadeManager.placeholderOpacity e <= 1)%Q.

(** What every call of the fade manager and every frame keeps: the state
    is well formed, the animator runs while entries are tracked, tracked
    and painted opacities are within [0, 1]. *)
Definition steady (s : FadeManager.State) : Prop :=
  wellFormed s
  /\ (FadeManager.activeFades s <> [] -> FadeManager.isAnimating s = true)
  /\ (forall p, In p (FadeManager.activeFades s) -> bounded (snd p))
  /\ (forall h, (0 <= FadeManager.opacity
                        (FadeManager.materials (FadeManager.scene s) h)
                  <= 1)%Q).

(** What every call of the texture manager and every settled load keep:
    besides [orderly], no URL is loaded twice at a time, [activeLoads]
    counts the URLs being loaded and respects the limit, no timer is
    pending, every cached texture carries its image, and no URL that is
    queued or being loaded is cached. *)
Definition tidy (s : TextureManager.State) : Prop :=
  orderly s
  /\ NoDup (TextureManager.loadingUrls s)
  /\ TextureManager.activeLoads s
     = List.length (TextureManager.loadingUrls s)
  /\ (TextureManager.activeLoads s
      <= TextureManager.MAX_CONCURRENT_LOADS)%nat
  /\ TextureManager.timers s = 0%nat
  /\ ~ In ""%string (TextureManager.loadingUrls s)
  /\ (forall u tex,
        JsMap.get u (TextureManager.textureCache s) = Some tex ->
        TextureManager.tex_image tex = true)
  /\ (forall u,
        In u (TextureManager.loadingUrls s)
        \/ In u (TextureManager.loadQueue s) ->
        JsMap.get u (TextureManager.textureCache s) = None).


(** The timestamp entries [evictOldTextures] walks through: the
    [size - MAX_CACHE_SIZE] oldest of [textureLastUsed]. *)
Definition evictionCandidates (s : TextureManager.State)
  : list (string * Q) :=
  firstn (JsMap.size (TextureManager.textureCache s)
          - TextureManager.MAX_CACHE_SIZE)%nat
         (JsArray.sortBy
            (fun a b : string * Q =>
               TextureManager.Qltb (snd a) (snd b))
            (TextureManager.textureLastUsed s)).

(** Every component within [-bound, bound]. *)
Definition within (bound : Q) (a : CameraMotion.Axes) : Prop :=
  (- bound <= CameraMotion.ax a <= bound
   /\ - bound <= CameraMotion.ay a <= bound
   /\ - bound <= CameraMotion.az a <= bound)%Q.

(** The chunk at offset [o] from the chunk (cx, cy, cz). *)
Definition shifted (cx cy cz : Z) (o : ChunkOffset) : Z * Z * Z :=
  (cx + dx o, cy + dy o, cz + dz o)%Z.

(** An entry that has been advanced at least [n] times. *)
Definition faded (n : nat) (e : FadeManager.FadeEntry) : Prop :=
  (Qmin 1 (inject_Z (Z.of_nat n) * FadeManager.FADE_IN_SPEED)
   <= FadeManager.imageOpacity e
   /\ FadeManager.placeholderOpacity e
      <= Qmax 0 (1 - inject_Z (Z.of_nat n) * FadeManager.FADE_OUT_SPEED))%Q.

End Notions.

(* ------------------------------------------------------------------ *)
(** ** Concrete inputs *)

Module Examples.

Import SceneController.
Open Scope Q_scope.

(** A slow pan away from the mount position (0, 0, 50): one frame every
    16 ms, the first at 100 ms, the camera moving 0.0918 units per frame
    along x, 0.0916 along y and 0.05 along z (all far below MAX_VELOCITY;
    a zoom speed of 0.05 does not count as zooming).  Frame [k] is at
    (0.0918 k, 0.0916 k, 50 + 0.05 k): the camera passes a corner of the
    chunk grid, entering chunk (1,0,0) at frame 1199, (1,0,1) at frame
    1200 and (1,1,1) at frame 1201. *)
Definition panFrame (k : nat) : FrameInput :=
  mkFrame (100 + 16 * inject_Z (Z.of_nat k))
          (0.0918 * inject_Z (Z.of_nat k))
          (0.0916 * inject_Z (Z.of_nat k))
          (50 + 0.05 * inject_Z (Z.of_nat k))
          0.05 0.05.

(** The frames [from], ..., [from + n - 1] of the pan. *)
Definition pan (from n : nat) : list FrameInput := map panFrame (seq from n).

(** Two frames of a camera at rest at its initial position (0, 0, 50). *)
Definition restFrames : list FrameInput :=
  [mkFrame 16 0 0 50 0 0; mkFrame 200 0 0 50 0 0].

Import TextureManager.
Open Scope nat_scope.

(** A manifest of [n] images, as the application's pose manifest. *)
Definition poseUrl (i : nat) : string :=
  ("/poses/pose-" ++ Utils.numberToString (Z.of_nat i) ++ ".png")%string.

Definition pose (i : nat) : MediaItem := mkMedia (poseUrl i) 800 600.

Definition manifest (n : nat) : list MediaItem := map pose (seq 1 n).

Definition clock (i : nat) : Q := inject_Z (Z.of_nat i).

(** The loads of the poses [from .. from + n - 1] settle in that order,
    pose [i] at time [base + i]; [failing] lists the poses whose load
    fails. *)
Definition settleAll (failing : list nat) (base from n : nat) : list Event :=
  map (fun i => LoadSettled (poseUrl i)
                            (negb (existsb (Nat.eqb i) failing))
                            (clock (base + i)))
      (seq from n).

(** [getTexture] for the poses [from .. from + n - 1], pose [i] at time
    [base + i], without callback. *)
Definition requestAll (base from n : nat) : list Event :=
  map (fun i => GetTexture (pose i) None (clock (base + i))) (seq from n).

(** Each pose of [from .. from + n - 1] is requested and loaded before the
    next one is requested. *)
Definition loadOneByOne (from n : nat) : list Event :=
  flat_map (fun i => [GetTexture (pose i) None (clock (2 * i));
                      LoadSettled (poseUrl i) true (clock (2 * i + 1))])
           (seq from n).

(** Cold start over the 45-pose manifest, every load succeeding. *)
Definition coldStart : list Event :=
  PreloadAllTextures (manifest 45) (clock 0) :: settleAll [] 0 1 45.

(** Cold start over the 45-pose manifest, the load of pose 7 failing. *)
Definition coldStartWithFailure : list Event :=
  PreloadAllTextures (manifest 45) (clock 0) :: settleAll [7] 0 1 45.

(** 752 poses requested back to back, the first 751 loads settled. *)
Definition burstOfRequests : list Event :=
  requestAll 0 1 752 ++ settleAll [] 1000 1 751.

(** A pose whose load fails, then 751 poses loaded one by one. *)
Definition failureThenLoads : list Event :=
  GetTexture (pose 0) None (clock 0)
    :: LoadSettled (poseUrl 0) false (clock 1) :: loadOneByOne 1 751.

(** 750 poses loaded one by one; pose 1, the oldest, is then read, through
    [getCachedTexture] or through [getTexture]; one more pose is loaded. *)
Definition readThenLoad (read : Event) : list Event :=
  loadOneByOne 1 750 ++ [read] ++ loadOneByOne 751 1.

(** A loader that holds the poses 1 .. n in its cache, pose [i] stamped at
    time [i], and is otherwise idle. *)
Definition cachedPoses (n : nat) : State :=
  mkState (map (fun i => (poseUrl i, mkTexture i true)) (seq 1 n)) []
          (map (fun i => (poseUrl i, clock i)) (seq 1 n)) [] 0 [] 0
          (mkEffects n [] [] [] [] []).


End Examples.

(* ------------------------------------------------------------------ *)
(** * Properties *)

Unset Implicit Arguments.

(** ** Arrays and maps *)

Module JsArrayFacts.
Import JsArray.

Section Sort.
Variable A : Type.
Variable key : A -> Z.

Let lt (a b : A) : bool := (key a <? key b)%Z.
Let le (a b : A) : Prop := (key a <= key b)%Z.

Lemma insertBy_perm (x : A) (l : list A) :
  Permutation (insertBy lt x l) (x :: l).
Proof.
  induction l as [|y l IH]; simpl; [reflexivity|].
  destruct (lt y x); [|reflexivity].
  rewrite IH. apply perm_swap.
Qed.

Lemma sortBy_perm (l : list A) : Permutation (sortBy lt l) l.
Proof.
  induction l as [|x l IH]; simpl; [constructor|].
  rewrite insertBy_perm. now constructor.
Qed.

Lemma insertBy_sorted (x : A) (l : list A) :
  StronglySorted le l -> StronglySorted le (insertBy lt x l).
Proof.
  induction 1 as [|y l Hs IH Hall]; simpl.
  - repeat constructor.
  - unfold lt at 1. destruct (Z.ltb_spec (key y) (key x)) as [Hlt|Hge].
    + constructor; [exact IH|].
      rewrite Forall_forall in *. intros z Hz.
      apply (Permutation_in _ (insertBy_perm x l)) in Hz.
      destruct Hz as [<-|Hz]; [unfold le; lia | now apply Hall].
    + constructor; [now constructor|].
      constructor; [exact Hge|].
      rewrite Forall_forall in *. intros z Hz.
      specialize (Hall z Hz). unfold le in *. lia.
Qed.

Lemma sortBy_sorted (l : list A) : StronglySorted le (sortBy lt l).
Proof.
  induction l as [|x l IH]; simpl; [constructor|].
  now apply insertBy_sorted.
Qed.
End Sort.
End JsArrayFacts.

Module ConstantsFacts.
Import Constants.
Open Scope Z_scope.

Lemma range_In (n : nat) : forall lo v,
  In v (range lo n) <-> lo <= v < lo + Z.of_nat n.
Proof.
  induction n as [|n IH]; intros lo v; simpl range.
  - simpl. lia.
  - simpl In. rewrite IH. lia.
Qed.

Lemma range_NoDup (n : nat) : forall lo, NoDup (range lo n).
Proof.
  induction n as [|n IH]; intros lo; simpl; constructor.
  - rewrite range_In. lia.
  - apply IH.
Qed.

Lemma loopRange_In (m v : Z) : In v (loopRange m) <-> - m <= v <= m.
Proof. unfold loopRange. rewrite range_In. lia. Qed.

Lemma flat_map_NoDup {A B} (f : A -> list B) (l : list A) :
  NoDup l ->
  (forall x, In x l -> NoDup (f x)) ->
  (forall x y z, In x l -> In y l -> In z (f x) -> In z (f y) -> x = y) ->
  NoDup (flat_map f l).
Proof.
  induction 1 as [|x l Hx Hl IH]; intros Hf Hinj; simpl; [constructor|].
  apply NoDup_app.
  - apply Hf. now left.
  - apply IH.
    + intros y Hy. apply Hf. now right.
    + intros a b z Ha Hb. apply Hinj; now right.
  - intros z Hz Hz'. apply in_flat_map in Hz' as [y [Hy Hzy]].
    assert (x = y) by (apply (Hinj x y z); auto; [now left | now right]).
    subst y. contradiction.
Qed.

Lemma offsetLoop_In (m : Z) (o : ChunkOffset) :
  In o (offsetLoop m) <-> chebyshev o <= m.
Proof.
  unfold offsetLoop. split.
  - intros H.
    apply in_flat_map in H as [x [_ H]].
    apply in_flat_map in H as [y [_ H]].
    apply in_flat_map in H as [z [_ H]].
    cbv zeta in H.
    destruct (Z.leb_spec (chebyshev (mkOffset x y z)) m) as [Hle|_];
      [|destruct H].
    destruct H as [<-|[]]. exact Hle.
  - intros H. destruct o as [x y z]. unfold chebyshev in H. simpl in H.
    apply in_flat_map. exists x. split; [apply loopRange_In; lia|].
    apply in_flat_map. exists y. split; [apply loopRange_In; lia|].
    apply in_flat_map. exists z. split; [apply loopRange_In; lia|].
    cbv zeta. unfold chebyshev. simpl.
    destruct (Z.leb_spec (Z.max (Z.abs x) (Z.max (Z.abs y) (Z.abs z))) m);
      [now left | lia].
Qed.

Lemma offsetLoop_NoDup (m : Z) : NoDup (offsetLoop m).
Proof.
  unfold offsetLoop, loopRange.
  apply flat_map_NoDup; [apply range_NoDup | |].
  - intros x _. apply flat_map_NoDup; [apply range_NoDup | |].
    + intros y _. apply flat_map_NoDup; [apply range_NoDup | |].
      * intros z _. cbv zeta.
        destruct (_ <=? _); repeat constructor. intros [].
      * intros z z' o _ _. cbv zeta.
        destruct (_ <=? _); [|intros []]. destruct (_ <=? _); [|intros _ []].
        intros [<-|[]] [H|[]]. congruence.
    + intros y y' o _ _ H H'.
      apply in_flat_map in H as [z [_ H]]. apply in_flat_map in H' as [z' [_ H']].
      cbv zeta in H, H'.
      destruct (_ <=? _) in H; [|destruct H]. destruct (_ <=? _) in H'; [|destruct H'].
      destruct H as [<-|[]]. destruct H' as [H'|[]]. congruence.
  - intros x x' o _ _ H H'.
    apply in_flat_map in H as [y [_ H]]. apply in_flat_map in H' as [y' [_ H']].
    apply in_flat_map in H as [z [_ H]]. apply in_flat_map in H' as [z' [_ H']].
    cbv zeta in H, H'.
    destruct (_ <=? _) in H; [|destruct H]. destruct (_ <=? _) in H'; [|destruct H'].
    destruct H as [<-|[]]. destruct H' as [H'|[]]. congruence.
Qed.

Lemma computeChunkOffsets_perm (m : Z) :
  Permutation (computeChunkOffsets m) (offsetLoop m).
Proof. apply (JsArrayFacts.sortBy_perm _ chebyshev). Qed.

Lemma computeChunkOffsets_In (m : Z) (o : ChunkOffset) :
  In o (computeChunkOffsets m) <-> chebyshev o <= m.
Proof.
  rewrite <- offsetLoop_In. split; apply Permutation_in;
    [|symmetry]; apply computeChunkOffsets_perm.
Qed.

Lemma computeChunkOffsets_NoDup (m : Z) : NoDup (computeChunkOffsets m).
Proof.
  eapply Permutation_NoDup; [symmetry; apply computeChunkOffsets_perm|].
  apply offsetLoop_NoDup.
Qed.

Lemma computeChunkOffsets_sorted (m : Z) :
  StronglySorted (fun a b => chebyshev a <= chebyshev b)
                 (computeChunkOffsets m).
Proof. apply (JsArrayFacts.sortBy_sorted _ chebyshev). Qed.

End ConstantsFacts.

(** ** Chunk keys *)

Module ChunkKeyFacts.
Import Utils ChunkUtils Notions.
Open Scope string_scope.

Lemma uint_digits (d : Decimal.uint) (c : ascii) :
  occurs c (NilEmpty.string_of_uint d) -> isDigit c.
Proof.
  unfold isDigit.
  induction d; simpl; try tauto;
    (intros [<-|H]; [simpl; tauto | auto]).
Qed.

Lemma numberToString_chars (z : Z) (c : ascii) :
  occurs c (numberToString z) -> isDigit c \/ c = "-"%char.
Proof.
  unfold numberToString, NilZero.string_of_int, NilZero.string_of_uint.
  destruct (Z.to_int z) as [d|d].
  - destruct d; try (intros H; left; revert H; apply uint_digits).
    simpl. intros [<-|[]]. left. unfold isDigit. simpl. tauto.
  - simpl. intros [<-|H]; [now right|]. left. revert H.
    destruct d; try apply uint_digits.
    simpl. intros [<-|[]]. unfold isDigit. simpl. tauto.
Qed.

Lemma numberToString_no_comma (z : Z) : ~ occurs ","%char (numberToString z).
Proof.
  intros H. apply numberToString_chars in H as [H|H]; [|discriminate].
  unfold isDigit in H. simpl in H.
  repeat (destruct H as [H|H]; [discriminate|]). exact H.
Qed.

Lemma numberToString_inj (a b : Z) :
  numberToString a = numberToString b -> a = b.
Proof.
  unfold numberToString. intros H.
  assert (Hnil : forall z, Z.to_int z <> Decimal.Pos Decimal.Nil
                        /\ Z.to_int z <> Decimal.Neg Decimal.Nil).
  { intros z. split; intros E;
      assert (z = 0%Z) by (rewrite <- (DecimalZ.of_to z), E; reflexivity);
      subst z; discriminate E. }
  apply DecimalZ.to_int_inj.
  assert (Some (Z.to_int a) = Some (Z.to_int b)) as [= E]; [|exact E].
  rewrite <- (NilZero.isi (Z.to_int a)) by apply Hnil.
  rewrite <- (NilZero.isi (Z.to_int b)) by apply Hnil.
  now rewrite H.
Qed.

Lemma split_at_separator (c : ascii) (s1 : string) :
  forall s2 r1 r2,
    ~ occurs c s1 -> ~ occurs c s2 ->
    s1 ++ String c r1 = s2 ++ String c r2 -> s1 = s2 /\ r1 = r2.
Proof.
  induction s1 as [|a s1 IH]; intros [|b s2] r1 r2 H1 H2; simpl; intros E.
  - now injection E.
  - injection E as E _. exfalso. apply H2. simpl. now left.
  - injection E as E _. exfalso. apply H1. simpl. now left.
  - injection E as -> E.
    destruct (IH s2 r1 r2) as [-> ->]; auto.
    + intros H. apply H1. simpl. now right.
    + intros H. apply H2. simpl. now right.
Qed.

Lemma chunkKey_inj (x y z x' y' z' : Z) :
  chunkKey x y z = chunkKey x' y' z' -> x = x' /\ y = y' /\ z = z'.
Proof.
  unfold chunkKey. cbn [append]. intros E.
  apply split_at_separator in E as [Ex E];
    try apply numberToString_no_comma.
  apply split_at_separator in E as [Ey Ez];
    try apply numberToString_no_comma.
  repeat split; now apply numberToString_inj.
Qed.

Lemma chunkKey_nonempty (x y z : Z) : chunkKey x y z <> "".
Proof.
  unfold chunkKey. destruct (numberToString x); discriminate.
Qed.

End ChunkKeyFacts.

(** ** Chunk-update throttling and the active chunk set *)

Module SceneControllerFacts.
Import Constants ChunkUtils SceneController Notions.

Arguments chunksAround : simpl never.

Lemma throttle_values (isZooming : bool) (zoomSpeed : Q) :
  getChunkUpdateThrottleMs isZooming zoomSpeed = 100%Q
  \/ getChunkUpdateThrottleMs isZooming zoomSpeed = 400%Q
  \/ getChunkUpdateThrottleMs isZooming zoomSpeed = 500%Q.
Proof.
  unfold getChunkUpdateThrottleMs.
  destruct (Qlt_le_dec 1 zoomSpeed); [tauto|]. destruct isZooming; tauto.
Qed.

Lemma throttle_monotone (iz iz' : bool) (zs zs' : Q) :
  (zs <= zs')%Q -> (iz = true -> iz' = true) ->
  (getChunkUpdateThrottleMs iz zs <= getChunkUpdateThrottleMs iz' zs')%Q.
Proof.
  unfold getChunkUpdateThrottleMs. intros Hz Hi.
  destruct (Qlt_le_dec 1 zs), (Qlt_le_dec 1 zs'); try lra;
    destruct iz, iz'; try lra; try discriminate (Hi eq_refl);
    try discriminate.
Qed.

Lemma throttled_false (last thr t : Q) :
  (t - last < thr)%Q -> shouldThrottleUpdate last thr t = false.
Proof.
  unfold shouldThrottleUpdate. intros H.
  destruct (Qle_bool thr (t - last)) eqn:E; [|reflexivity].
  apply Qle_bool_iff in E. lra.
Qed.

Lemma throttled_true (last thr t : Q) :
  shouldThrottleUpdate last thr t = true <-> (thr <= t - last)%Q.
Proof. unfold shouldThrottleUpdate. apply Qle_bool_iff. Qed.

Lemma boundaryCheck_key (f : FrameInput) (s : ControllerState) :
  lastChunkKey (boundaryCheck f s) = frameKey f.
Proof.
  unfold boundaryCheck.
  destruct (String.eqb_spec (frameKey f) (lastChunkKey s)); simpl; congruence.
Qed.

Lemma boundaryCheck_update (f : FrameInput) (s : ControllerState) :
  lastChunkUpdate (boundaryCheck f s) = lastChunkUpdate s.
Proof. unfold boundaryCheck. now destruct (negb _). Qed.

Lemma boundaryCheck_consistent (f : FrameInput) (s : ControllerState) :
  consistent s -> consistent (boundaryCheck f s).
Proof.
  unfold boundaryCheck, consistent.
  destruct (negb _); simpl; [|auto].
  intros _. reflexivity.
Qed.

(** Last write wins: a set marker is the chunk of the current frame. *)
Lemma boundaryCheck_pending (f : FrameInput) (s : ControllerState) c :
  consistent s ->
  pendingChunk (boundaryCheck f s) = Some c -> c = frameChunk f.
Proof.
  intros Hs Hp. pose proof (boundaryCheck_consistent f s Hs) as Hc.
  unfold consistent in Hc. rewrite Hp in Hc. destruct c as [[x y] z].
  rewrite boundaryCheck_key in Hc. unfold frameKey in Hc.
  destruct (frameChunk f) as [[x' y'] z'].
  apply ChunkKeyFacts.chunkKey_inj in Hc as (-> & -> & ->). reflexivity.
Qed.

Lemma boundaryCheck_marks (f : FrameInput) (s : ControllerState) :
  pendingChunk (boundaryCheck f s) <> None <->
  pendingChunk s <> None \/ frameKey f <> lastChunkKey s.
Proof.
  unfold boundaryCheck.
  destruct (String.eqb_spec (frameKey f) (lastChunkKey s)); simpl.
  - tauto.
  - split; [auto | discriminate].
Qed.

Lemma chunkFrame_consistent (f : FrameInput) (s : ControllerState) :
  consistent s -> consistent (fst (chunkFrame f s)).
Proof.
  intros Hs. apply (boundaryCheck_consistent f s) in Hs.
  unfold chunkFrame. destruct (pendingChunk (boundaryCheck f s)) as [[[x y] z]|];
    [|exact Hs].
  destruct (shouldThrottleUpdate _ _ _); [exact I | exact Hs].
Qed.

Lemma chunkFrame_throttled (f : FrameInput) (s : ControllerState) :
  (now f - lastChunkUpdate s < frameThrottle f)%Q ->
  chunkFrame f s = (boundaryCheck f s, None).
Proof.
  intros H. unfold chunkFrame.
  destruct (pendingChunk (boundaryCheck f s)) as [[[x y] z]|]; [|reflexivity].
  rewrite boundaryCheck_update, throttled_false; auto.
Qed.

Lemma chunkFrame_applied (f : FrameInput) (s s' : ControllerState) cs :
  chunkFrame f s = (s', Some cs) ->
  (frameThrottle f <= now f - lastChunkUpdate s)%Q
  /\ lastChunkUpdate s' = now f /\ pendingChunk s' = None
  /\ exists x y z, pendingChunk (boundaryCheck f s) = Some (x, y, z)
                   /\ cs = chunksAround x y z.
Proof.
  unfold chunkFrame.
  destruct (pendingChunk (boundaryCheck f s)) as [[[x y] z]|] eqn:Hp;
    [|discriminate].
  rewrite boundaryCheck_update.
  destruct (shouldThrottleUpdate _ _ _) eqn:E; [|discriminate].
  intros [= <- <-]. apply throttled_true in E. simpl. eauto 10.
Qed.

Lemma runFrames_app (fs gs : list FrameInput) (s : ControllerState) :
  runFrames (fs ++ gs) s =
  (fst (runFrames gs (fst (runFrames fs s))),
   snd (runFrames fs s) ++ snd (runFrames gs (fst (runFrames fs s)))).
Proof.
  revert s. induction fs as [|f fs IH]; intros s; simpl.
  - now destruct (runFrames gs s).
  - destruct (chunkFrame f s) as [s' u]. rewrite IH.
    destruct (runFrames fs s') as [s'' us]. simpl.
    destruct (runFrames gs s''). now destruct u.
Qed.

Lemma runFrames_consistent (fs : list FrameInput) :
  forall s, consistent s -> consistent (fst (runFrames fs s)).
Proof.
  induction fs as [|f fs IH]; intros s Hs; simpl; [exact Hs|].
  pose proof (chunkFrame_consistent f s Hs) as H.
  destruct (chunkFrame f s) as [s' u]. apply IH in H. simpl fst in H.
  destruct (runFrames fs s'). exact H.
Qed.

Lemma last_default {A} (l : list A) :
  forall a d d', last (a :: l) d = last (a :: l) d'.
Proof.
  induction l as [|b l IH]; intros a d d'; [reflexivity|].
  change (last (b :: l) d = last (b :: l) d'). apply IH.
Qed.

(** A burst of frames that all fall inside the throttle window opened by
    the last applied update: nothing is applied, and the marker records
    whether a boundary was crossed. *)
Lemma burst_throttled (burst : list FrameInput) :
  forall s,
    (forall f, In f burst ->
               (now f - lastChunkUpdate s < frameThrottle f)%Q) ->
    snd (runFrames burst s) = []
    /\ lastChunkUpdate (fst (runFrames burst s)) = lastChunkUpdate s
    /\ lastChunkKey (fst (runFrames burst s))
       = last (map frameKey burst) (lastChunkKey s)
    /\ (pendingChunk (fst (runFrames burst s)) <> None <->
        pendingChunk s <> None \/ crossed burst (lastChunkKey s)).
Proof.
  induction burst as [|f burst IH]; intros s Hthr.
  - simpl. tauto.
  - simpl runFrames. rewrite chunkFrame_throttled by (apply Hthr; now left).
    destruct (IH (boundaryCheck f s)) as (Hu & Ht & Hk & Hp).
    { intros g Hg. rewrite boundaryCheck_update. apply Hthr. now right. }
    destruct (runFrames burst (boundaryCheck f s)) as [s'' us]. simpl in *.
    rewrite boundaryCheck_update in Ht. rewrite boundaryCheck_key in Hk, Hp.
    repeat split; auto.
    + rewrite Hk. destruct burst; [reflexivity|]. apply last_default.
    + intros H. apply Hp in H as [H|H]; [|tauto].
      apply boundaryCheck_marks in H. tauto.
    + intros H. apply Hp. rewrite boundaryCheck_marks. tauto.
Qed.

Lemma crossed_app (fs gs : list FrameInput) :
  forall k, crossed (fs ++ gs) k <->
            crossed fs k \/ crossed gs (last (map frameKey fs) k).
Proof.
  induction fs as [|f fs IH]; intros k.
  - simpl. tauto.
  - cbn [app crossed map]. rewrite IH.
    assert (E : last (frameKey f :: map frameKey fs) k
                = last (map frameKey fs) (frameKey f)).
    { destruct fs as [|g fs]; [reflexivity|]. simpl map.
      change (last (frameKey g :: map frameKey fs) k
              = last (frameKey g :: map frameKey fs) (frameKey f)).
      apply last_default. }
    rewrite E. tauto.
Qed.

Lemma initialChunks_centered : initialChunks = chunksAround 0 0 0.
Proof.
  unfold initialChunks, chunksAround. apply map_ext. intros o.
  now rewrite !Z.add_0_l.
Qed.

Lemma origin_frame (f : FrameInput) (s : ControllerState) :
  (pendingChunk s = None \/ pendingChunk s = Some (0, 0, 0)%Z) ->
  frameChunk f = (0, 0, 0)%Z ->
  (pendingChunk (fst (chunkFrame f s)) = None
   \/ pendingChunk (fst (chunkFrame f s)) = Some (0, 0, 0)%Z)
  /\ forall c, snd (chunkFrame f s) = Some c -> c = chunksAround 0 0 0.
Proof.
  intros Hs Hf.
  assert (Hb : pendingChunk (boundaryCheck f s) = None
               \/ pendingChunk (boundaryCheck f s) = Some (0, 0, 0)%Z).
  { unfold boundaryCheck. destruct (negb _); [|exact Hs].
    right. cbn [pendingChunk]. now rewrite Hf. }
  unfold chunkFrame. destruct Hb as [Hb|Hb]; rewrite Hb.
  - split; [left; exact Hb | discriminate].
  - destruct (shouldThrottleUpdate _ _ _); cbn [fst snd].
    + split; [now left | now intros c [= <-]].
    + split; [right; exact Hb | discriminate].
Qed.

Lemma origin_frames (fs : list FrameInput) :
  forall s,
    (pendingChunk s = None \/ pendingChunk s = Some (0, 0, 0)%Z) ->
    (forall f, In f fs -> frameChunk f = (0, 0, 0)%Z) ->
    forall cs, In cs (snd (runFrames fs s)) -> cs = chunksAround 0 0 0.
Proof.
  induction fs as [|f fs IH]; intros s Hs Hfs cs; [intros []|].
  cbn [runFrames].
  destruct (origin_frame f s Hs (Hfs f (or_introl eq_refl))) as [Hs' Hu].
  destruct (chunkFrame f s) as [s' u]. cbn [fst snd] in Hs', Hu.
  specialize (IH s' Hs' (fun g Hg => Hfs g (or_intror Hg)) cs).
  destruct (runFrames fs s') as [s'' us]. cbn [fst snd] in *.
  destruct u as [c|]; [|exact IH].
  intros [<-|H]; [now apply Hu | now apply IH].
Qed.

Lemma chunkFrame_due (f : FrameInput) (s : ControllerState) :
  consistent s ->
  (frameThrottle f <= now f - lastChunkUpdate s)%Q ->
  pendingChunk (boundaryCheck f s) <> None ->
  chunkFrame f s =
  (mkController (frameKey f) (now f) None,
   Some (let '(x, y, z) := frameChunk f in chunksAround x y z)).
Proof.
  intros Hs Hdue Hp. unfold chunkFrame.
  destruct (pendingChunk (boundaryCheck f s)) as [c|] eqn:E; [|congruence].
  apply boundaryCheck_pending in E as ->; [|exact Hs].
  rewrite boundaryCheck_update, boundaryCheck_key.
  apply throttled_true in Hdue. rewrite Hdue.
  now destruct (frameChunk f) as [[x y] z].
Qed.

Lemma last_map_frameKey (fs : list FrameInput) (k : string) (d : FrameInput) :
  fs <> [] -> last (map frameKey fs) k = frameKey (last fs d).
Proof.
  induction fs as [|f fs IH]; [congruence|]. intros _.
  destruct fs as [|g fs]; [reflexivity|].
  change (last (map frameKey (g :: fs)) k = frameKey (last (g :: fs) d)).
  apply IH. discriminate.
Qed.

Lemma crossed_nonempty (fs : list FrameInput) (k : string) :
  crossed fs k -> fs <> [].
Proof. destruct fs; [intros [] | discriminate]. Qed.

Lemma chunksAround_offsets (x y z : Z) :
  map (fun c => mkOffset (chunk_cx c - x) (chunk_cy c - y) (chunk_cz c - z))
      (chunksAround x y z) = CHUNK_OFFSETS.
Proof.
  unfold chunksAround. rewrite map_map. rewrite <- (map_id CHUNK_OFFSETS) at 2.
  apply map_ext. intros [a b c]. cbn. f_equal; lia.
Qed.

Lemma chunksAround_keys (x y z : Z) (c : ChunkData) :
  In c (chunksAround x y z) ->
  chunk_key c = chunkKey (chunk_cx c) (chunk_cy c) (chunk_cz c).
Proof.
  unfold chunksAround. rewrite in_map_iff. now intros (o & <- & _).
Qed.

Lemma frameThrottle_cases (f : FrameInput) :
  ((1 < Qabs (velocityZ f))%Q -> frameThrottle f = 500%Q)
  /\ ((Qabs (velocityZ f) <= 1)%Q -> (0.05 < Qabs (velocityZBefore f))%Q ->
      frameThrottle f = 400%Q)
  /\ ((Qabs (velocityZ f) <= 1)%Q -> (Qabs (velocityZBefore f) <= 0.05)%Q ->
      frameThrottle f = 100%Q).
Proof.
  unfold frameThrottle, getChunkUpdateThrottleMs.
  destruct (Qlt_le_dec 1 (Qabs (velocityZ f))) as [H|H].
  - split; [reflexivity|]. split; intros H'; lra.
  - split; [intros H'; lra|].
    destruct (Qle_bool (Qabs (velocityZBefore f)) 0.05) eqn:E; cbn [negb].
    + apply Qle_bool_iff in E. split; [intros _ H'; lra | reflexivity].
    + split; [reflexivity|]. intros _ H'. apply Qle_bool_iff in H'.
      congruence.
Qed.

(** The argument of [setChunks] for the chunk (x, y, z): the chunks at
    Chebyshev distance at most RENDER_DISTANCE + CHUNK_FADE_MARGIN from
    it, keyed by their coordinates. *)
Lemma chunksAround_In (x y z : Z) (c : ChunkData) :
  In c (chunksAround x y z) <->
  (chebyshev (mkOffset (chunk_cx c - x) (chunk_cy c - y) (chunk_cz c - z))
   <= RENDER_DISTANCE + CHUNK_FADE_MARGIN)%Z
  /\ chunk_key c = chunkKey (chunk_cx c) (chunk_cy c) (chunk_cz c).
Proof.
  assert (HIn : forall o, In o CHUNK_OFFSETS <->
                  (chebyshev o <= RENDER_DISTANCE + CHUNK_FADE_MARGIN)%Z)
    by apply ConstantsFacts.computeChunkOffsets_In.
  unfold chunksAround. split.
  - intros H. destruct (proj1 (in_map_iff _ _ _) H) as (o & E & Ho).
    subst c. cbn [chunk_cx chunk_cy chunk_cz chunk_key].
    split; [|reflexivity].
    replace (mkOffset (x + dx o - x) (y + dy o - y) (z + dz o - z)) with o
      by (destruct o as [a b d]; cbn [dx dy dz]; f_equal; lia).
    exact (proj1 (HIn o) Ho).
  - intros [Hd Hk]. apply in_map_iff.
    exists (mkOffset (chunk_cx c - x) (chunk_cy c - y) (chunk_cz c - z)).
    split; [|exact (proj2 (HIn _) Hd)].
    cbn [dx dy dz]. destruct c as [k a b d].
    cbn [chunk_cx chunk_cy chunk_cz chunk_key] in *. subst k.
    replace (x + (a - x))%Z with a by lia.
    replace (y + (b - y))%Z with b by lia.
    replace (z + (d - z))%Z with d by lia. reflexivity.
Qed.

(** C8, amended.  Chunk throttling, in any state the frames so far have
    left the controller in.  A burst of frames that crosses chunk
    boundaries while less than the required interval has elapsed since the
    last applied update applies nothing; every crossing overwrites the one
    pending marker, which is then the chunk of the latest frame; the first
    frame at which the interval has elapsed applies exactly one update,
    the neighbourhood of the chunk the camera is then in.  The throttle
    is leading-edge: a crossing at a frame where the interval has already
    elapsed is applied in that very frame.  The required interval is 500
    ms when the zoom speed exceeds 1, else 400 ms while zooming, else 100
    ms; it grows with the zoom speed, and an update is only ever applied
    when the interval has elapsed since the last applied one. *)
Theorem throttled_burst_applies_only_final_chunk :
  forall (history burst : list FrameInput) (final : FrameInput),
    let s := fst (runFrames history createInitialState) in
    (forall f, In f burst ->
               (now f - lastChunkUpdate s < frameThrottle f)%Q) ->
    (frameThrottle final <= now final - lastChunkUpdate s)%Q ->
    pendingChunk s <> None \/ crossed (burst ++ [final]) (lastChunkKey s) ->
    snd (runFrames burst s) = []
    /\ (forall pre post,
          burst = pre ++ post -> crossed pre (lastChunkKey s) ->
          pendingChunk (fst (runFrames pre s))
          = Some (frameChunk (last pre final)))
    /\ snd (runFrames (burst ++ [final]) s)
       = [let '(x, y, z) := frameChunk final in chunksAround x y z]
    /\ pendingChunk (fst (runFrames (burst ++ [final]) s)) = None
    /\ lastChunkUpdate (fst (runFrames (burst ++ [final]) s)) = now final
    /\ (forall f,
          frameKey f <> lastChunkKey s ->
          (frameThrottle f <= now f - lastChunkUpdate s)%Q ->
          snd (chunkFrame f s)
          = Some (let '(x, y, z) := frameChunk f in chunksAround x y z))
    /\ (forall f s0 s1 cs,
          chunkFrame f s0 = (s1, Some cs) ->
          (frameThrottle f <= now f - lastChunkUpdate s0)%Q
          /\ lastChunkUpdate s1 = now f)
    /\ (forall f,
          ((1 < Qabs (velocityZ f))%Q -> frameThrottle f = 500%Q)
          /\ ((Qabs (velocityZ f) <= 1)%Q ->
              (0.05 < Qabs (velocityZBefore f))%Q ->
              frameThrottle f = 400%Q)
          /\ ((Qabs (velocityZ f) <= 1)%Q ->
              (Qabs (velocityZBefore f) <= 0.05)%Q ->
              frameThrottle f = 100%Q))
    /\ (forall iz iz' zs zs',
          (zs <= zs')%Q -> (iz = true -> iz' = true) ->
          (getChunkUpdateThrottleMs iz zs
           <= getChunkUpdateThrottleMs iz' zs')%Q)
    /\ (forall x y z c,
          In c (chunksAround x y z) <->
          (chebyshev (mkOffset (chunk_cx c - x) (chunk_cy c - y)
                               (chunk_cz c - z))
           <= RENDER_DISTANCE + CHUNK_FADE_MARGIN)%Z
          /\ chunk_key c = chunkKey (chunk_cx c) (chunk_cy c) (chunk_cz c)).
Proof.
  intros history burst final s Hthr Hdue Hcross.
  assert (Hs : consistent s).
  { apply runFrames_consistent. exact I. }
  destruct (burst_throttled burst s Hthr) as (Hu & Ht & Hk & Hp).
  split; [exact Hu|]. split.
  { intros pre post -> Hpre.
    assert (Hthr' : forall f, In f pre ->
              (now f - lastChunkUpdate s < frameThrottle f)%Q).
    { intros f Hf. apply Hthr, in_or_app. now left. }
    destruct (burst_throttled pre s Hthr') as (_ & _ & Hk' & Hp').
    pose proof (runFrames_consistent pre s Hs) as Hc.
    destruct (pendingChunk (fst (runFrames pre s))) as [[[x y] z]|] eqn:E.
    - unfold consistent in Hc. rewrite E in Hc. rewrite Hk' in Hc.
      rewrite (last_map_frameKey pre _ final) in Hc
        by (eapply crossed_nonempty; eauto).
      unfold frameKey in Hc.
      destruct (frameChunk (last pre final)) as [[x' y'] z'].
      apply ChunkKeyFacts.chunkKey_inj in Hc as (-> & -> & ->). reflexivity.
    - exfalso. apply Hp'; [tauto | reflexivity]. }
  assert (Hfinal : chunkFrame final (fst (runFrames burst s)) =
            (mkController (frameKey final) (now final) None,
             Some (let '(x, y, z) := frameChunk final in chunksAround x y z))).
  { apply chunkFrame_due.
    - now apply runFrames_consistent.
    - now rewrite Ht.
    - apply boundaryCheck_marks. rewrite Hp, Hk.
      destruct Hcross as [H|H]; [tauto|].
      apply crossed_app in H as [H|H]; [tauto|].
      right. simpl in H. tauto. }
  rewrite runFrames_app. cbn [runFrames]. rewrite Hfinal, Hu. cbn [fst snd app].
  split; [reflexivity|]. split; [reflexivity|]. split; [reflexivity|].
  split.
  { intros f Hf Hd. rewrite (chunkFrame_due f s Hs Hd); [reflexivity|].
    apply boundaryCheck_marks. now right. }
  split.
  { intros f s0 s1 cs H. apply chunkFrame_applied in H as (H1 & H2 & _).
    now split. }
  split; [apply frameThrottle_cases|].
  split; [apply throttle_monotone|]. apply chunksAround_In.
Qed.

(** The claim as stated fails for a burst that begins after a pause.  On
    the pan of [Examples.panFrame] the camera, moving far less than
    MAX_VELOCITY per frame and not zooming, is in chunk (0,0,0) up to
    frame 1198 and enters (1,0,0) at frame 1199, (1,0,1) at frame 1200 and
    (1,1,1), where it stays, at frame 1201: three crossings within 32 ms,
    with a required interval of 100 ms.  The first crossing comes long
    after the last applied update and is applied at once, so the
    neighbourhood of the intermediate chunk (1,0,0) is applied; the
    second crossing is overwritten, and the final chunk (1,1,1) is applied
    112 ms after the first. *)
Lemma burst_after_pause_applies_intermediate_chunk :
  frameChunk (Examples.panFrame 1198) = (0, 0, 0)%Z
  /\ frameChunk (Examples.panFrame 1199) = (1, 0, 0)%Z
  /\ frameChunk (Examples.panFrame 1200) = (1, 0, 1)%Z
  /\ (forall f, In f (Examples.pan 1201 6) -> frameChunk f = (1, 1, 1)%Z)
  /\ (now (Examples.panFrame 1201) - now (Examples.panFrame 1199)
      < frameThrottle (Examples.panFrame 1201))%Q
  /\ (forall k,
        basePosX (Examples.panFrame (S k)) - basePosX (Examples.panFrame k)
        <= MAX_VELOCITY
        /\ basePosY (Examples.panFrame (S k))
           - basePosY (Examples.panFrame k) <= MAX_VELOCITY
        /\ basePosZ (Examples.panFrame (S k))
           - basePosZ (Examples.panFrame k)
           == velocityZ (Examples.panFrame (S k))
        /\ frameThrottle (Examples.panFrame k) = 100)%Q
  /\ snd (runFrames (Examples.pan 0 1199) createInitialState)
     = [chunksAround 0 0 0]
  /\ snd (runFrames (Examples.pan 0 1207) createInitialState)
     = [chunksAround 0 0 0; chunksAround 1 0 0; chunksAround 1 1 1]
  /\ chunksAround 1 0 0 <> chunksAround 1 1 1.
Proof.
  split; [vm_compute; reflexivity|]. split; [vm_compute; reflexivity|].
  split; [vm_compute; reflexivity|]. split.
  { unfold Examples.pan. cbn [seq map In].
    intros f [<-|[<-|[<-|[<-|[<-|[<-|[]]]]]]]; vm_compute; reflexivity. }
  split; [vm_compute; reflexivity|]. split.
  { intros k. unfold Examples.panFrame, MAX_VELOCITY.
    cbn [basePosX basePosY basePosZ velocityZ].
    rewrite Nat2Z.inj_succ. unfold Z.succ. rewrite inject_Z_plus.
    change (inject_Z 1) with 1%Q.
    split; [lra|]. split; [lra|]. split; [ring|]. reflexivity. }
  split; [vm_compute; reflexivity|]. split; [vm_compute; reflexivity|].
  intros H. apply (f_equal (@hd_error ChunkData)) in H.
  vm_compute in H. discriminate.
Qed.

(** C9.  Stationary camera.  While the camera stays in the chunk of the
    origin, the active chunk set is the one set at mount, the
    neighbourhood offsets recentred on (0,0,0): its chunks stand at
    exactly the offsets of Chebyshev distance at most
    RENDER_DISTANCE + CHUNK_FADE_MARGIN, each once, in ascending order
    of Chebyshev distance, and are keyed by their coordinates. *)
Theorem stationary_camera_active_chunks :
  forall fs : list FrameInput,
    (forall f, In f fs -> frameChunk f = (0, 0, 0)%Z) ->
    (forall cs,
        In cs (initialChunks :: snd (runFrames fs createInitialState)) ->
        cs = chunksAround 0 0 0)
    /\ map chunkOffset (chunksAround 0 0 0) = CHUNK_OFFSETS
    /\ (forall c, In c (chunksAround 0 0 0) ->
                  chunk_key c = chunkKey (chunk_cx c) (chunk_cy c) (chunk_cz c))
    /\ (forall o, In o CHUNK_OFFSETS <->
                  (chebyshev o <= RENDER_DISTANCE + CHUNK_FADE_MARGIN)%Z)
    /\ NoDup CHUNK_OFFSETS
    /\ StronglySorted (fun a b => (chebyshev a <= chebyshev b)%Z)
                      CHUNK_OFFSETS.
Proof.
  intros fs Hfs. split; [|split; [|split; [|split; [|split]]]].
  - intros cs [<-|H]; [apply initialChunks_centered|].
    revert H. apply origin_frames; [now left | exact Hfs].
  - etransitivity; [|apply (chunksAround_offsets 0 0 0)]. apply map_ext.
    intros c. unfold chunkOffset. now rewrite !Z.sub_0_r.
  - apply chunksAround_keys.
  - apply ConstantsFacts.computeChunkOffsets_In.
  - apply ConstantsFacts.computeChunkOffsets_NoDup.
  - apply ConstantsFacts.computeChunkOffsets_sorted.
Qed.

Lemma throttled_burst_witness :
  (forall f, In f (Examples.pan 1200 6) ->
      (now f
       - lastChunkUpdate
           (fst (runFrames (Examples.pan 0 1200) createInitialState))
       < frameThrottle f)%Q)
  /\ (frameThrottle (Examples.panFrame 1206)
      <= now (Examples.panFrame 1206)
         - lastChunkUpdate
             (fst (runFrames (Examples.pan 0 1200) createInitialState)))%Q
  /\ crossed (Examples.pan 1200 6 ++ [Examples.panFrame 1206])
             (lastChunkKey
                (fst (runFrames (Examples.pan 0 1200) createInitialState)))
  /\ pendingChunk
       (fst (runFrames (Examples.pan 1200 1)
               (fst (runFrames (Examples.pan 0 1200) createInitialState))))
     = Some (1, 0, 1)%Z
  /\ snd (runFrames (Examples.pan 1200 6 ++ [Examples.panFrame 1206])
                    (fst (runFrames (Examples.pan 0 1200) createInitialState)))
     = [chunksAround 1 1 1].
Proof.
  assert (H2 : forall f, In f (Examples.pan 1200 6) ->
            (now f
             - lastChunkUpdate
                 (fst (runFrames (Examples.pan 0 1200) createInitialState))
             < frameThrottle f)%Q).
  { unfold Examples.pan at 1. cbn [seq map In].
    intros f [<-|[<-|[<-|[<-|[<-|[<-|[]]]]]]]; vm_compute; reflexivity. }
  assert (H3 : (frameThrottle (Examples.panFrame 1206)
                <= now (Examples.panFrame 1206)
                   - lastChunkUpdate
                       (fst (runFrames (Examples.pan 0 1200)
                                       createInitialState)))%Q).
  { vm_compute. discriminate. }
  assert (H4 : crossed (Examples.pan 1200 6 ++ [Examples.panFrame 1206])
                 (lastChunkKey
                    (fst (runFrames (Examples.pan 0 1200)
                                    createInitialState)))).
  { unfold Examples.pan at 1. cbn [seq map app crossed]. left.
    vm_compute. discriminate. }
  split; [exact H2|]. split; [exact H3|]. split; [exact H4|].
  split; [vm_compute; reflexivity|].
  destruct (throttled_burst_applies_only_final_chunk
              (Examples.pan 0 1200) (Examples.pan 1200 6)
              (Examples.panFrame 1206) H2 H3 (or_intror H4))
    as (_ & _ & H & _).
  assert (E : frameChunk (Examples.panFrame 1206) = (1, 1, 1)%Z)
    by (vm_compute; reflexivity).
  rewrite E in H. exact H.
Defined.

Lemma stationary_camera_witness :
  (forall f, In f Examples.restFrames -> frameChunk f = (0, 0, 0)%Z)
  /\ (forall cs,
        In cs (initialChunks
                 :: snd (runFrames Examples.restFrames createInitialState)) ->
        cs = chunksAround 0 0 0).
Proof.
  assert (H : forall f, In f Examples.restFrames -> frameChunk f = (0, 0, 0)%Z).
  { intros f [<-|[<-|[]]]; reflexivity. }
  split; [exact H|].
  exact (proj1 (stationary_camera_active_chunks Examples.restFrames H)).
Defined.

End SceneControllerFacts.

(** ** The deterministic generator *)

Module GeneratorFacts.
Import Utils Constants ChunkUtils SceneController Notions.
Open Scope R_scope.

Lemma floor_bounds (x : R) : IZR (floor x) <= x < IZR (floor x) + 1.
Proof.
  unfold floor. destruct (base_Int_part x) as [H1 H2]. lra.
Qed.

Lemma floor_range (x : R) (lo hi : Z) :
  IZR lo <= x < IZR hi -> (lo <= floor x < hi)%Z.
Proof.
  intros [Hlo Hhi]. pose proof (floor_bounds x) as [H1 H2]. split.
  - apply Z.lt_succ_r, lt_IZR. rewrite succ_IZR. lra.
  - apply lt_IZR. lra.
Qed.

(** [seededRandom] returns a number in [0, 1). *)
Lemma seededRandom_range (seed : Z) : 0 <= seededRandom seed < 1.
Proof.
  unfold seededRandom. cbv zeta.
  pose proof (floor_bounds (sin (IZR seed * 9999.9) * 99999.9)). lra.
Qed.

Lemma hashString_range (str : string) : (0 <= hashString str < 2 ^ 32)%Z.
Proof. unfold hashString, toUint32. apply Z.mod_pos_bound. reflexivity. Qed.

Lemma generateChunkPlanes_length (cx cy cz : Z) :
  List.length (generateChunkPlanes cx cy cz) = PLANES_PER_CHUNK.
Proof. unfold generateChunkPlanes. now rewrite length_map, length_seq. Qed.

Lemma generateChunkPlanes_In (cx cy cz : Z) (p : PlaneData) :
  In p (generateChunkPlanes cx cy cz) ->
  exists i, (i < PLANES_PER_CHUNK)%nat
            /\ p = generatePlane cx cy cz (hashString (chunkKey cx cy cz)) i.
Proof.
  unfold generateChunkPlanes. cbv zeta. rewrite in_map_iff.
  intros (i & <- & Hi). apply in_seq in Hi. exists i. split; [lia | reflexivity].
Qed.

(** The media index of a generated plane: [Math.floor(r(5) * 1000000)]
    with [r(5)] in [0, 1). *)
Lemma generatePlane_mediaIndex (cx cy cz seed : Z) (i : nat) :
  (0 <= mediaIndex (generatePlane cx cy cz seed i) < 1000000)%Z.
Proof.
  unfold generatePlane. cbv zeta. cbn [mediaIndex].
  set (s := (seed + Z.of_nat i * 1000)%Z).
  pose proof (seededRandom_range (s + 5)) as H5.
  apply floor_range. lra.
Qed.

(** With a non-empty media list a non-negative index always selects an
    item. *)
Lemma renderPlane_defined (media : list MediaItem) (p : PlaneData) :
  media <> [] -> (0 <= mediaIndex p)%Z ->
  exists item,
    renderPlane media p = Some (item, p)
    /\ nth_error media
         (Z.to_nat (mediaIndex p mod Z.of_nat (List.length media))) = Some item.
Proof.
  intros Hm Hi. unfold renderPlane, jsRem.
  assert (Hlen : (0 < Z.of_nat (List.length media))%Z).
  { destruct media; [congruence | simpl; lia]. }
  destruct (Z.eqb_spec (Z.of_nat (List.length media)) 0) as [E|_]; [lia|].
  cbn [arrayGet]. rewrite Z.rem_mod_nonneg by lia.
  pose proof (Z.mod_pos_bound (mediaIndex p) _ Hlen) as Hb.
  destruct (Z.ltb_spec (mediaIndex p mod Z.of_nat (List.length media)) 0);
    [lia|].
  destruct (nth_error media _) as [item|] eqn:E.
  - exists item. split; reflexivity.
  - apply nth_error_None in E. lia.
Qed.

(** C10.  Every plane the generator produces has a media index that is a
    non-negative integer (below 1,000,000); so for a non-empty media list
    the index reduced modulo the list's length lies in [0, length) and
    selects an item: no plane of a chunk is skipped by the composer. *)
Theorem media_index_selects_item :
  forall (media : list MediaItem) (cx cy cz : Z),
    media <> [] ->
    (forall p, In p (generateChunkPlanes cx cy cz) ->
        (0 <= mediaIndex p < 1000000)%Z
        /\ (0 <= mediaIndex p mod Z.of_nat (List.length media)
            < Z.of_nat (List.length media))%Z
        /\ exists item,
             renderPlane media p = Some (item, p)
             /\ nth_error media
                  (Z.to_nat (mediaIndex p mod Z.of_nat (List.length media)))
                = Some item)
    /\ ~ In None (renderChunk media (generateChunkPlanes cx cy cz))
    /\ List.length (renderChunk media (generateChunkPlanes cx cy cz))
       = PLANES_PER_CHUNK.
Proof.
  intros media cx cy cz Hm.
  assert (Hidx : forall p, In p (generateChunkPlanes cx cy cz) ->
                           (0 <= mediaIndex p < 1000000)%Z).
  { intros p Hp. apply generateChunkPlanes_In in Hp as (i & _ & ->).
    apply generatePlane_mediaIndex. }
  split; [|split].
  - intros p Hp. specialize (Hidx p Hp). split; [exact Hidx|]. split.
    + apply Z.mod_pos_bound. destruct media; [congruence | simpl; lia].
    + apply renderPlane_defined; [exact Hm | lia].
  - unfold renderChunk. rewrite in_map_iff. intros (p & E & Hp).
    destruct (renderPlane_defined media p Hm) as (item & E' & _).
    { apply Hidx, Hp. }
    congruence.
  - unfold renderChunk. rewrite length_map. apply generateChunkPlanes_length.
Qed.

Lemma media_index_witness :
  [mkMedia "/poses/pose-1.png" 800 600] <> []
  /\ ~ In None (renderChunk [mkMedia "/poses/pose-1.png" 800 600]
                            (generateChunkPlanes (-1) 0 2)).
Proof.
  assert (H : [mkMedia "/poses/pose-1.png" 800 600] <> []) by discriminate.
  split; [exact H|].
  exact (proj1 (proj2 (media_index_selects_item
                         [mkMedia "/poses/pose-1.png" 800 600] (-1) 0 2 H))).
Defined.

End GeneratorFacts.

(** ** Maps in insertion order *)

Module JsMapFacts.
Import JsMap.
Open Scope nat_scope.

Section Facts.
Variable V : Type.
Implicit Types (m : t V) (k : string) (v : V).

Lemma get_In k m v : get k m = Some v -> In (k, v) m.
Proof.
  induction m as [|[k' v'] m IH]; simpl; [discriminate|].
  destruct (String.eqb_spec k k') as [->|_].
  - intros [= ->]. now left.
  - intros H. right. now apply IH.
Qed.

Lemma get_None k m : get k m = None <-> ~ In k (keys m).
Proof.
  induction m as [|[k' v'] m IH]; simpl; [tauto|].
  destruct (String.eqb_spec k k') as [->|Hne].
  - split; [discriminate | intros H; exfalso; apply H; now left].
  - rewrite IH. split.
    + intros H [E|E]; [now apply Hne | now apply H].
    + intros H E. apply H. now right.
Qed.

Lemma get_Some_keys k m : In k (keys m) <-> exists v, get k m = Some v.
Proof.
  destruct (get k m) as [v|] eqn:E.
  - split; [eauto|]. intros _. apply get_In in E.
    unfold keys. apply in_map_iff. now exists (k, v).
  - apply get_None in E. split; [tauto | intros [v [=]]].
Qed.

Lemma keys_delete k m : keys (delete k m) = remove string_dec k (keys m).
Proof.
  induction m as [|[k' v'] m IH]; simpl; [reflexivity|].
  destruct (String.eqb_spec k k') as [->|Hne]; simpl.
  - destruct (string_dec k' k'); [exact IH | congruence].
  - destruct (string_dec k k'); [congruence|]. simpl. now rewrite IH.
Qed.

Lemma set_absent k v m : ~ In k (keys m) -> set k v m = m ++ [(k, v)].
Proof.
  induction m as [|[k' v'] m IH]; simpl; [reflexivity|]. intros H.
  destruct (String.eqb_spec k k') as [->|_]; [tauto|].
  now rewrite IH by tauto.
Qed.

Lemma keys_set_present k v m : In k (keys m) -> keys (set k v m) = keys m.
Proof.
  induction m as [|[k' v'] m IH]; simpl; [tauto|]. intros H.
  destruct (String.eqb_spec k k') as [->|Hne]; [reflexivity|]. simpl.
  rewrite IH; [reflexivity|]. destruct H; [congruence | assumption].
Qed.

Lemma get_set_same k v m : get k (set k v m) = Some v.
Proof.
  induction m as [|[k' v'] m IH]; simpl.
  - now rewrite String.eqb_refl.
  - destruct (String.eqb_spec k k') as [->|Hne]; simpl.
    + now rewrite String.eqb_refl.
    + destruct (String.eqb_spec k k'); [congruence | exact IH].
Qed.

Lemma get_set_other k k' v m : k <> k' -> get k (set k' v m) = get k m.
Proof.
  intros Hne. induction m as [|[k0 v0] m IH]; simpl.
  - destruct (String.eqb_spec k k'); [congruence | reflexivity].
  - destruct (String.eqb_spec k' k0) as [->|Hne0]; simpl.
    + destruct (String.eqb_spec k k0); [congruence | reflexivity].
    + destruct (String.eqb_spec k k0); [reflexivity | exact IH].
Qed.

Lemma get_delete_same k m : get k (delete k m) = None.
Proof.
  apply get_None. rewrite keys_delete. apply remove_In.
Qed.

Lemma get_delete_other k k' m : k <> k' -> get k (delete k' m) = get k m.
Proof.
  intros Hne. induction m as [|[k0 v0] m IH]; simpl; [reflexivity|].
  destruct (String.eqb_spec k' k0) as [->|Hne0]; simpl.
  - destruct (String.eqb_spec k k0); [congruence | exact IH].
  - destruct (String.eqb_spec k k0); [reflexivity | exact IH].
Qed.

Lemma keys_app m m' : keys (m ++ m') = keys m ++ keys m'.
Proof. apply map_app. Qed.

Lemma keys_skipn n m : keys (skipn n m) = skipn n (keys m).
Proof. unfold keys. now rewrite skipn_map. Qed.

Lemma size_keys m : size m = List.length (keys m).
Proof. unfold size, keys. now rewrite length_map. Qed.
End Facts.
End JsMapFacts.

(** ** Least-recently-used order *)

Module LruFacts.
Import Notions.
Open Scope nat_scope.

Lemma NoDup_app_inv {A} (l1 l2 : list A) :
  NoDup (l1 ++ l2) ->
  NoDup l1 /\ NoDup l2 /\ forall a, In a l1 -> ~ In a l2.
Proof.
  intros H. split; [now apply NoDup_app_remove_r in H|].
  split; [now apply NoDup_app_remove_l in H|].
  induction l1 as [|x l1 IH]; simpl; [tauto|].
  apply NoDup_cons_iff in H as [Hx H]. intros a [<-|Ha].
  - intros Ha. apply Hx, in_or_app. now right.
  - now apply IH.
Qed.

Lemma remove_absent (k : string) (l : list string) :
  ~ In k l -> remove string_dec k l = l.
Proof. apply notin_remove. Qed.

Lemma remove_NoDup (k : string) (l : list string) :
  NoDup l -> NoDup (remove string_dec k l).
Proof.
  induction 1 as [|x l Hx Hl IH]; simpl; [constructor|].
  destruct (string_dec k x); [exact IH|]. constructor; [|exact IH].
  intros H. apply in_remove in H. tauto.
Qed.

Lemma remove_length (k : string) (l : list string) :
  NoDup l -> In k l -> S (List.length (remove string_dec k l)) = List.length l.
Proof.
  induction 1 as [|x l Hx Hl IH]; simpl; [tauto|].
  destruct (string_dec k x) as [->|Hne].
  - intros _. now rewrite remove_absent.
  - intros [E|H]; [congruence|]. simpl. now rewrite IH.
Qed.

Lemma touch_NoDup (l : list string) (k : string) :
  NoDup l -> NoDup (touch l k).
Proof.
  intros H. unfold touch. apply NoDup_app.
  - now apply remove_NoDup.
  - repeat constructor. intros [].
  - intros x Hx [<-|[]]. now apply remove_In in Hx.
Qed.

Lemma recency_snoc (trace : list string) (k : string) :
  recency (trace ++ [k]) = touch (recency trace) k.
Proof. unfold recency. now rewrite fold_left_app. Qed.

Lemma recency_NoDup (trace : list string) : NoDup (recency trace).
Proof.
  induction trace as [|k trace IH] using rev_ind; [constructor|].
  rewrite recency_snoc. now apply touch_NoDup.
Qed.

(** Distinct accesses are recorded in the order they were made. *)
Lemma recency_distinct (trace : list string) :
  NoDup trace -> recency trace = trace.
Proof.
  induction trace as [|k trace IH] using rev_ind; [reflexivity|].
  intros H. rewrite recency_snoc. apply NoDup_remove in H as [H Hk].
  rewrite app_nil_r in *. rewrite IH by exact H.
  unfold touch. now rewrite remove_absent.
Qed.

Lemma lastN_split {A} (n : nat) (l : list A) :
  l = firstn (List.length l - n) l ++ lastN n l.
Proof. unfold lastN. now rewrite firstn_skipn. Qed.

Lemma lastN_length {A} (n : nat) (l : list A) :
  List.length (lastN n l) = Nat.min n (List.length l).
Proof. unfold lastN. rewrite length_skipn. lia. Qed.

Lemma lastN_app {A} (n : nat) (a l : list A) :
  List.length a = 0 \/ List.length l = n -> List.length l <= n ->
  lastN n (a ++ l) = l.
Proof.
  intros H Hle. unfold lastN. rewrite length_app.
  destruct H as [H|H].
  - apply length_zero_iff_nil in H. subst a. simpl.
    now replace (List.length l - n) with 0 by lia.
  - rewrite H. replace (List.length a + n - n) with (List.length a + 0) by lia.
    now rewrite skipn_app, skipn_all2, Nat.add_comm, Nat.add_sub by lia.
Qed.

Lemma lastN_short {A} (n : nat) (l : list A) :
  List.length l <= n -> lastN n l = l.
Proof.
  intros H. unfold lastN. now replace (List.length l - n) with 0 by lia.
Qed.

(** One access to a least-recently-used store: a key it holds moves to the
    most-recent end; a new key is appended, and pushes the oldest key out
    when the store is full. *)
Lemma lastN_touch (cap : nat) (r : list string) (k : string) :
  0 < cap -> NoDup r ->
  lastN cap (touch r k) =
  if in_dec string_dec k (lastN cap r)
  then touch (lastN cap r) k
  else if List.length (lastN cap r) <? cap
       then lastN cap r ++ [k]
       else tl (lastN cap r) ++ [k].
Proof.
  intros Hcap Hr.
  pose proof (lastN_split cap r) as Hsplit.
  pose proof (lastN_length cap r) as Hlen.
  assert (HlenA : List.length (firstn (List.length r - cap) r)
                  = List.length r - cap).
  { rewrite length_firstn. lia. }
  revert Hsplit Hlen HlenA.
  generalize (lastN cap r) as K.
  generalize (firstn (List.length r - cap) r) as A.
  intros A K -> Hlen HlenA. rewrite length_app in Hlen, HlenA.
  apply NoDup_app_inv in Hr as (HndA & HndK & Hdisj).
  unfold touch at 1. rewrite remove_app.
  destruct (in_dec string_dec k K) as [HK|HK].
  - assert (HA : ~ In k A) by (intros HA; exact (Hdisj k HA HK)).
    rewrite (remove_absent k A HA), <- app_assoc.
    pose proof (remove_length k K HndK HK) as HL.
    apply lastN_app; unfold touch; rewrite length_app; simpl; lia.
  - rewrite (remove_absent k K HK).
    destruct (Nat.ltb_spec (List.length K) cap) as [Hlt|Hge].
    + assert (HA : List.length A = 0) by lia.
      apply length_zero_iff_nil in HA. subst A. simpl.
      apply lastN_short. rewrite length_app. simpl. lia.
    + destruct K as [|x K]; [simpl in Hge; lia|]. simpl tl.
      transitivity (lastN cap ((remove string_dec k A ++ [x]) ++ (K ++ [k]))).
      { f_equal. now rewrite <- !app_assoc. }
      apply lastN_app; rewrite ?length_app; simpl in *; lia.
Qed.

End LruFacts.

(** ** The plane cache *)

Module PlaneCacheFacts.
Import ChunkUtils Notions JsMap.
Open Scope nat_scope.

Arguments generateChunkPlanes : simpl never.
Arguments chunkKey : simpl never.

Lemma generated_get (cache : PlaneCache) (x y z : Z) (v : list PlaneData) :
  generated cache ->
  get (chunkKey x y z) cache = Some v -> v = generateChunkPlanes x y z.
Proof.
  intros Hg Hv. apply JsMapFacts.get_In in Hv.
  unfold generated in Hg. rewrite Forall_forall in Hg.
  destruct (Hg _ Hv) as (x' & y' & z' & Hk & Hs). cbn [fst snd] in Hk, Hs.
  apply ChunkKeyFacts.chunkKey_inj in Hk as (-> & -> & ->). exact Hs.
Qed.

(** The eviction loop returns, with the [MAX_PLANE_CACHE] newest entries. *)
Lemma evictPlanes_generated (cache : PlaneCache) :
  generated cache ->
  evictPlanes cache = Some (lastN MAX_PLANE_CACHE cache).
Proof.
  induction 1 as [|[k v] cache (x & y & z & Hk & _) Hg IH]; [reflexivity|].
  cbn [evictPlanes]. unfold size.
  destruct (Nat.ltb_spec MAX_PLANE_CACHE (List.length ((k, v) :: cache)))
    as [Hlt|Hge].
  - simpl in Hk. subst k.
    destruct (String.eqb_spec (chunkKey x y z) "") as [E|_].
    { now apply ChunkKeyFacts.chunkKey_nonempty in E. }
    rewrite IH. f_equal. unfold lastN. simpl List.length in *.
    now replace (S (List.length cache) - MAX_PLANE_CACHE)
      with (S (List.length cache - MAX_PLANE_CACHE)) by lia.
  - now rewrite LruFacts.lastN_short.
Qed.

Lemma keys_lastN (n : nat) (cache : PlaneCache) :
  keys (lastN n cache) = lastN n (keys cache).
Proof.
  unfold lastN. rewrite JsMapFacts.keys_skipn.
  unfold keys. now rewrite length_map.
Qed.

Lemma generated_lastN (n : nat) (cache : PlaneCache) :
  generated cache -> generated (lastN n cache).
Proof.
  unfold generated, lastN. intros H.
  rewrite <- (firstn_skipn (List.length cache - n) cache) in H.
  now apply Forall_app in H.
Qed.

Lemma generated_delete (k : string) (cache : PlaneCache) :
  generated cache -> generated (delete k cache).
Proof.
  unfold generated, delete. rewrite !Forall_forall. intros H e He.
  apply filter_In in He as [He _]. now apply H.
Qed.

(** A hit: the stored list is returned as it is and its entry becomes the
    most recently used one. *)
Lemma cached_hit (x y z : Z) (cache : PlaneCache) (v : list PlaneData) :
  get (chunkKey x y z) cache = Some v ->
  generateChunkPlanesCached x y z cache
  = Some (v, delete (chunkKey x y z) cache ++ [(chunkKey x y z, v)]).
Proof.
  intros Hv. unfold generateChunkPlanesCached. cbv zeta. rewrite Hv.
  rewrite JsMapFacts.set_absent; [reflexivity|].
  rewrite JsMapFacts.keys_delete. apply remove_In.
Qed.

(** A miss: the generator's list is returned and stored as the most
    recently used entry; the oldest entries beyond the capacity go. *)
Lemma cached_miss (x y z : Z) (cache : PlaneCache) :
  generated cache ->
  get (chunkKey x y z) cache = None ->
  generateChunkPlanesCached x y z cache
  = Some (generateChunkPlanes x y z,
          lastN MAX_PLANE_CACHE
                (cache ++ [(chunkKey x y z, generateChunkPlanes x y z)])).
Proof.
  intros Hg Hv. unfold generateChunkPlanesCached. cbv zeta. rewrite Hv.
  rewrite JsMapFacts.set_absent by now apply JsMapFacts.get_None.
  rewrite evictPlanes_generated; [reflexivity|].
  apply Forall_app. split; [exact Hg|]. constructor; [|constructor].
  now exists x, y, z.
Qed.

Lemma runCache_snoc (trace : list (Z * Z * Z)) (c : Z * Z * Z) :
  forall cache,
    runCache (trace ++ [c]) cache =
    match runCache trace cache with
    | Some cache' =>
        let '(x, y, z) := c in
        option_map snd (generateChunkPlanesCached x y z cache')
    | None => None
    end.
Proof.
  induction trace as [|[[x y] z] trace IH]; intros cache.
  - destruct c as [[x y] z]. simpl.
    now destruct (generateChunkPlanesCached x y z cache) as [[? ?]|].
  - simpl. destruct (generateChunkPlanesCached x y z cache) as [[? ?]|];
      [apply IH | reflexivity].
Qed.

(** One call keeps the cache generated and moves its key order as one
    access to a least-recently-used store does. *)
Lemma cached_step (x y z : Z) (cache : PlaneCache) (r : list string) :
  generated cache -> NoDup r ->
  keys cache = lastN MAX_PLANE_CACHE r ->
  exists planes cache',
    generateChunkPlanesCached x y z cache = Some (planes, cache')
    /\ planes = generateChunkPlanes x y z
    /\ generated cache'
    /\ keys cache' = lastN MAX_PLANE_CACHE (touch r (chunkKey x y z)).
Proof.
  intros Hg Hr Hk.
  rewrite LruFacts.lastN_touch by (exact Hr || (unfold MAX_PLANE_CACHE; lia)).
  rewrite <- Hk.
  destruct (get (chunkKey x y z) cache) as [v|] eqn:Hv.
  - exists v, (delete (chunkKey x y z) cache ++ [(chunkKey x y z, v)]).
    split; [now apply cached_hit|].
    split; [now apply generated_get with (cache := cache)|].
    split.
    + apply Forall_app. split; [now apply generated_delete|].
      constructor; [|constructor]. exists x, y, z. split; [reflexivity|].
      now apply generated_get with (cache := cache).
    + destruct (in_dec string_dec (chunkKey x y z) (keys cache)) as [_|Hn].
      * rewrite JsMapFacts.keys_app, JsMapFacts.keys_delete. reflexivity.
      * exfalso. apply Hn. apply JsMapFacts.get_Some_keys. eauto.
  - exists (generateChunkPlanes x y z),
      (lastN MAX_PLANE_CACHE
             (cache ++ [(chunkKey x y z, generateChunkPlanes x y z)])).
    split; [now apply cached_miss|]. split; [reflexivity|].
    split.
    + apply generated_lastN, Forall_app. split; [exact Hg|].
      constructor; [|constructor]. now exists x, y, z.
    + rewrite keys_lastN, JsMapFacts.keys_app. simpl keys at 2.
      destruct (in_dec string_dec (chunkKey x y z) (keys cache)) as [Hi|_].
      { apply JsMapFacts.get_Some_keys in Hi as [v Hi]. congruence. }
      assert (Hlen : List.length (keys cache) <= MAX_PLANE_CACHE).
      { rewrite Hk, LruFacts.lastN_length. lia. }
      destruct (Nat.ltb_spec (List.length (keys cache)) MAX_PLANE_CACHE).
      * apply LruFacts.lastN_short. rewrite length_app. simpl. lia.
      * destruct (keys cache) as [|k0 ks]; [simpl in *; unfold MAX_PLANE_CACHE in *; lia|].
        simpl tl. change ((k0 :: ks) ++ [chunkKey x y z])
          with ([k0] ++ (ks ++ [chunkKey x y z])).
        apply LruFacts.lastN_app; rewrite ?length_app; simpl in *; lia.
Qed.

(** Any sequence of calls on an empty cache returns, and leaves the keys
    a least-recently-used store of capacity [MAX_PLANE_CACHE] holds. *)
Lemma runCache_lru (trace : list (Z * Z * Z)) :
  exists cache,
    runCache trace [] = Some cache
    /\ generated cache
    /\ keys cache = lruContents MAX_PLANE_CACHE (map coordKey trace).
Proof.
  induction trace as [|[[x y] z] trace IH] using rev_ind.
  - exists []. repeat split. constructor.
  - destruct IH as (cache & Hrun & Hg & Hk).
    destruct (cached_step x y z cache (recency (map coordKey trace)) Hg
                (LruFacts.recency_NoDup _) Hk)
      as (planes & cache' & Hcall & _ & Hg' & Hk').
    exists cache'. rewrite runCache_snoc, Hrun, Hcall. simpl option_map.
    split; [reflexivity|]. split; [exact Hg'|].
    rewrite Hk', map_app. unfold lruContents. cbn [map coordKey].
    now rewrite LruFacts.recency_snoc.
Qed.

(** Capacity + 1 distinct keys: only the first one is pushed out. *)
Lemma lru_overflow (k : string) (ks : list string) :
  NoDup (k :: ks) -> List.length ks = MAX_PLANE_CACHE ->
  lruContents MAX_PLANE_CACHE (k :: ks) = ks.
Proof.
  intros Hnd Hlen. unfold lruContents.
  rewrite LruFacts.recency_distinct by exact Hnd.
  change (k :: ks) with ([k] ++ ks). apply LruFacts.lastN_app; lia.
Qed.

(** The first key is accessed again before the insert that overflows the
    store: the second key is pushed out instead. *)
Lemma lru_protected (k1 k2 ke : string) (kr : list string) :
  NoDup (k1 :: k2 :: kr ++ [ke]) ->
  List.length (k1 :: k2 :: kr) = MAX_PLANE_CACHE ->
  lruContents MAX_PLANE_CACHE (k1 :: k2 :: kr ++ [k1; ke]) = kr ++ [k1; ke].
Proof.
  intros Hnd Hlen. unfold lruContents.
  change (k1 :: k2 :: kr ++ [k1; ke])
    with ((k1 :: k2 :: kr) ++ [k1] ++ [ke]).
  rewrite app_assoc, !LruFacts.recency_snoc.
  assert (Hnd' : NoDup (k1 :: k2 :: kr)).
  { change (k1 :: k2 :: kr ++ [ke]) with ((k1 :: k2 :: kr) ++ [ke]) in Hnd.
    now apply NoDup_app_remove_r in Hnd. }
  rewrite LruFacts.recency_distinct by exact Hnd'.
  apply NoDup_cons_iff in Hnd as [Hk1 Hnd].
  assert (Hke : ~ In ke (k2 :: kr) /\ ke <> k1).
  { split.
    - intros H. change (k2 :: kr ++ [ke]) with ((k2 :: kr) ++ [ke]) in Hnd.
      apply LruFacts.NoDup_app_inv in Hnd as (_ & _ & Hd).
      apply (Hd ke H). now left.
    - intros ->. apply Hk1. right. apply in_or_app. right. now left. }
  assert (E1 : touch (k1 :: k2 :: kr) k1 = (k2 :: kr) ++ [k1]).
  { unfold touch. simpl remove.
    destruct (string_dec k1 k1) as [_|]; [|congruence].
    apply NoDup_cons_iff in Hnd' as [Hk1' _].
    change (remove string_dec k1 (k2 :: kr) ++ [k1] = (k2 :: kr) ++ [k1]).
    now rewrite LruFacts.remove_absent. }
  rewrite E1.
  assert (E2 : touch ((k2 :: kr) ++ [k1]) ke = [k2] ++ (kr ++ [k1; ke])).
  { unfold touch. rewrite LruFacts.remove_absent.
    - simpl. now rewrite <- app_assoc.
    - intros H. apply in_app_or in H as [H|[H|[]]]; [tauto|].
      destruct Hke as [_ Hke]. congruence. }
  rewrite E2. apply LruFacts.lastN_app; rewrite ?length_app; simpl in *; lia.
Qed.

(** C6.  The plane cache is a true least-recently-used store of capacity
    256.  After any sequence of calls on an empty cache, every call has
    returned and the cache holds exactly the 256 most recently accessed
    keys, least recently accessed first.  A further call returns the
    generator's list; on a hit this is the stored list, unchanged, and the
    key becomes the most recently used one.  After capacity + 1 distinct
    keys the first one is evicted and misses while the others hit; when
    the first key is read again before the (capacity + 1)-th insert, it
    stays and the second key is the one evicted. *)
Theorem plane_cache_true_lru :
  forall trace : list (Z * Z * Z),
  exists cache,
    runCache trace [] = Some cache
    /\ keys cache = lruContents MAX_PLANE_CACHE (map coordKey trace)
    /\ size cache <= MAX_PLANE_CACHE
    /\ (forall x y z,
          exists cache',
            generateChunkPlanesCached x y z cache
            = Some (generateChunkPlanes x y z, cache')
            /\ keys cache'
               = lruContents MAX_PLANE_CACHE
                             (map coordKey (trace ++ [(x, y, z)]))
            /\ (forall cached,
                  get (chunkKey x y z) cache = Some cached ->
                  cached = generateChunkPlanes x y z
                  /\ keys cache' = touch (keys cache) (chunkKey x y z)))
    /\ (forall first others,
          trace = first :: others ->
          List.length trace = S MAX_PLANE_CACHE ->
          NoDup (map coordKey trace) ->
          get (coordKey first) cache = None
          /\ forall c, In c others -> get (coordKey c) cache <> None)
    /\ (forall first second rest extra,
          trace = first :: second :: rest ++ [first; extra] ->
          List.length (first :: second :: rest) = MAX_PLANE_CACHE ->
          NoDup (map coordKey (first :: second :: rest ++ [extra])) ->
          get (coordKey first) cache <> None
          /\ get (coordKey second) cache = None
          /\ forall c, In c (rest ++ [extra]) ->
                       get (coordKey c) cache <> None).
Proof.
  intros trace. destruct (runCache_lru trace) as (cache & Hrun & Hg & Hk).
  exists cache. split; [exact Hrun|]. split; [exact Hk|]. split.
  { rewrite JsMapFacts.size_keys, Hk. unfold lruContents.
    rewrite LruFacts.lastN_length. lia. }
  split.
  { intros x y z.
    destruct (cached_step x y z cache (recency (map coordKey trace)) Hg
                (LruFacts.recency_NoDup _) Hk)
      as (planes & cache' & Hcall & -> & _ & Hk').
    exists cache'. split; [exact Hcall|]. split.
    - rewrite Hk', map_app. unfold lruContents. cbn [map coordKey].
      now rewrite LruFacts.recency_snoc.
    - intros cached Hc. split; [now apply generated_get with (cache := cache)|].
      rewrite (cached_hit x y z cache cached Hc) in Hcall.
      injection Hcall as _ <-.
      now rewrite JsMapFacts.keys_app, JsMapFacts.keys_delete. }
  split.
  { intros first others -> Hlen Hnd. cbn [map] in Hk, Hnd.
    rewrite lru_overflow in Hk;
      [|exact Hnd | rewrite length_map; simpl in Hlen; lia].
    split.
    - apply JsMapFacts.get_None. rewrite Hk.
      now apply NoDup_cons_iff in Hnd.
    - intros c Hc H. apply JsMapFacts.get_None in H. apply H.
      rewrite Hk. now apply in_map. }
  { intros first second rest extra -> Hlen Hnd.
    assert (E : map coordKey (first :: second :: rest ++ [first; extra])
                = coordKey first :: coordKey second
                    :: map coordKey rest ++ [coordKey first; coordKey extra]).
    { cbn [map]. now rewrite map_app. }
    rewrite E in Hk. cbn [map] in Hnd. rewrite map_app in Hnd.
    cbn [map] in Hnd.
    rewrite lru_protected in Hk;
      [|exact Hnd | simpl in *; rewrite length_map; lia].
    assert (Hin : forall c, In c (rest ++ [first; extra]) ->
                            get (coordKey c) cache <> None).
    { intros c Hc H. apply JsMapFacts.get_None in H. apply H. rewrite Hk.
      change [coordKey first; coordKey extra]
        with (map coordKey [first; extra]).
      rewrite <- map_app. now apply in_map. }
    split; [apply Hin, in_or_app; right; now left|]. split.
    - apply JsMapFacts.get_None. rewrite Hk.
      apply NoDup_cons_iff in Hnd as [H1 Hnd].
      apply NoDup_cons_iff in Hnd as [H2 _].
      intros H. apply in_app_or in H as [H|[H|[H|[]]]].
      + apply H2, in_or_app. now left.
      + apply H1. left. now symmetry.
      + apply H2, in_or_app. right. now left.
    - intros c Hc. apply Hin. apply in_app_or in Hc as [Hc|[<-|[]]];
        apply in_or_app; [now left | right; right; now left]. }
Qed.

End PlaneCacheFacts.

(** ** The fade animator *)

Module FadeManagerFacts.
Import FadeManager Notions JsMap.
Open Scope nat_scope.

Lemma animateLoop_spec (fades : JsMap.t FadeEntry) (sc : Scene) :
  animateLoop fades sc = (advanced fades, painted fades sc, finished fades).
Proof.
  revert sc. induction fades as [|[id e] fades IH]; intros sc; [reflexivity|].
  cbn [animateLoop]. rewrite IH. unfold finished. cbn [filter snd].
  now destruct (complete (advance e)).
Qed.

Lemma animate_spec (s : State) :
  animate s =
  let fades := survivors (activeFades s) in
  let sc := painted (activeFades s) (scene s) in
  if 0 <? size fades
  then requestAnimationFrame
         (mkState fades (isAnimating s) (animationFrameId s) (scheduled s)
                  (nextFrameId s) sc)
  else mkState fades false None (scheduled s) (nextFrameId s) sc.
Proof. unfold animate. now rewrite animateLoop_spec. Qed.

(** *** The map after a tick *)

Lemma get_deleteAll (ids : list string) :
  forall (m : JsMap.t FadeEntry) (id : string),
    get id (fold_left (fun m k => delete k m) ids m)
    = if in_dec string_dec id ids then None else get id m.
Proof.
  induction ids as [|k ids IH]; intros m id; [reflexivity|].
  cbn [fold_left]. rewrite IH.
  destruct (in_dec string_dec id ids) as [Hi|Hn];
    destruct (in_dec string_dec id (k :: ids)) as [Hi'|Hn'];
    try reflexivity.
  - exfalso. apply Hn'. now right.
  - destruct Hi' as [->|Hi']; [apply JsMapFacts.get_delete_same | tauto].
  - apply JsMapFacts.get_delete_other. intros ->. apply Hn'. now left.
Qed.

Lemma In_deleteAll (ids : list string) :
  forall (m : JsMap.t FadeEntry) p,
    In p (fold_left (fun m k => delete k m) ids m) -> In p m.
Proof.
  induction ids as [|k ids IH]; intros m p; [auto|].
  cbn [fold_left]. intros H. apply IH in H. unfold delete in H.
  now apply filter_In in H.
Qed.

Lemma keys_deleteAll_NoDup (ids : list string) :
  forall m : JsMap.t FadeEntry,
    NoDup (keys m) -> NoDup (keys (fold_left (fun m k => delete k m) ids m)).
Proof.
  induction ids as [|k ids IH]; intros m H; [exact H|].
  cbn [fold_left]. apply IH. rewrite JsMapFacts.keys_delete.
  now apply LruFacts.remove_NoDup.
Qed.

Lemma keys_advanced (fades : JsMap.t FadeEntry) :
  keys (advanced fades) = keys fades.
Proof. unfold keys, advanced. rewrite map_map. now apply map_ext. Qed.

Lemma get_advanced (fades : JsMap.t FadeEntry) (id : string) :
  get id (advanced fades) = option_map advance (get id fades).
Proof.
  induction fades as [|[k e] fades IH]; [reflexivity|]. cbn.
  now destruct (String.eqb id k).
Qed.

Lemma In_get (m : JsMap.t FadeEntry) (k : string) (e : FadeEntry) :
  NoDup (keys m) -> In (k, e) m -> get k m = Some e.
Proof.
  induction m as [|[k' e'] m IH]; [intros _ []|].
  cbn. intros Hnd [[= -> ->]|H].
  - now rewrite String.eqb_refl.
  - apply NoDup_cons_iff in Hnd as [Hk Hnd].
    destruct (String.eqb_spec k k') as [->|_]; [|now apply IH].
    exfalso. apply Hk. unfold keys. apply in_map_iff. now exists (k', e).
Qed.

Lemma finished_iff (fades : JsMap.t FadeEntry) (id : string) (e : FadeEntry) :
  NoDup (keys fades) -> get id fades = Some e ->
  In id (finished fades) <-> complete (advance e) = true.
Proof.
  intros Hnd He. unfold finished. rewrite in_map_iff. split.
  - intros ([k e'] & <- & H). apply filter_In in H as [H Hc].
    cbn [fst snd] in *. apply (In_get _ _ _ Hnd) in H. congruence.
  - intros Hc. exists (id, e). split; [reflexivity|].
    apply filter_In. split; [now apply JsMapFacts.get_In | exact Hc].
Qed.

Lemma get_survivors (fades : JsMap.t FadeEntry) (id : string) :
  NoDup (keys fades) ->
  get id (survivors fades) =
  match get id fades with
  | Some e => if complete (advance e) then None else Some (advance e)
  | None => None
  end.
Proof.
  intros Hnd. unfold survivors. rewrite get_deleteAll, get_advanced.
  destruct (get id fades) as [e|] eqn:He; cbn [option_map].
  - pose proof (finished_iff fades id e Hnd He) as Hf.
    destruct (in_dec string_dec id (finished fades)) as [Hi|Hn].
    + now rewrite (proj1 Hf Hi).
    + destruct (complete (advance e)); [|reflexivity].
      exfalso. apply Hn. now apply Hf.
  - now destruct (in_dec string_dec id (finished fades)).
Qed.

Lemma survivors_NoDup (fades : JsMap.t FadeEntry) :
  NoDup (keys fades) -> NoDup (keys (survivors fades)).
Proof.
  intros H. apply keys_deleteAll_NoDup. now rewrite keys_advanced.
Qed.

Lemma In_survivors (fades : JsMap.t FadeEntry) (id : string) (e' : FadeEntry) :
  In (id, e') (survivors fades) ->
  exists e, In (id, e) fades /\ e' = advance e.
Proof.
  intros H. apply In_deleteAll in H. unfold advanced in H.
  apply in_map_iff in H as ([k e] & [= <- <-] & H). eauto.
Qed.

(** *** The scene after a tick *)

Lemma update_same {A} (f : nat -> A) (h : nat) (v : A) : update f h v h = v.
Proof. unfold update. now rewrite Nat.eqb_refl. Qed.

Lemma update_other {A} (f : nat -> A) (h h' : nat) (v : A) :
  h' <> h -> update f h v h' = f h'.
Proof.
  intros H. unfold update. destruct (Nat.eqb_spec h' h); [tauto | reflexivity].
Qed.

Lemma paint_materials_other (e : FadeEntry) (sc : Scene) (h : nat) :
  h <> imageMaterial e -> h <> placeholderMaterial e ->
  materials (paint e sc) h = materials sc h.
Proof.
  intros H1 H2. unfold paint, setDepthWrite, setVisible, setOpacity.
  cbn [materials visible]. now rewrite !update_other by assumption.
Qed.

Lemma paint_visible_other (e : FadeEntry) (sc : Scene) (h : nat) :
  h <> imageMesh e -> h <> placeholderMesh e ->
  visible (paint e sc) h = visible sc h.
Proof.
  intros H1 H2. unfold paint, setDepthWrite, setVisible, setOpacity.
  cbn [materials visible]. now rewrite !update_other by assumption.
Qed.

Lemma paint_shows (e : FadeEntry) (sc : Scene) :
  imageMaterial e <> placeholderMaterial e ->
  imageMesh e <> placeholderMesh e ->
  shows (paint e sc) e.
Proof.
  intros Hm Hv. unfold shows, paint, setDepthWrite, setVisible, setOpacity.
  cbn [materials visible].
  rewrite !update_same.
  rewrite (update_other _ (placeholderMaterial e) (imageMaterial e)) by exact Hm.
  rewrite update_same. cbn [opacity depthWrite].
  rewrite (update_other _ (imageMaterial e) (placeholderMaterial e))
    by (intros E; now apply Hm).
  rewrite update_same. cbn [opacity].
  rewrite (update_other _ (placeholderMesh e) (imageMesh e)) by exact Hv.
  rewrite update_same. repeat split.
Qed.

Lemma advance_handles (e : FadeEntry) :
  imageMaterial (advance e) = imageMaterial e
  /\ placeholderMaterial (advance e) = placeholderMaterial e
  /\ imageMesh (advance e) = imageMesh e
  /\ placeholderMesh (advance e) = placeholderMesh e.
Proof. repeat split. Qed.

Lemma aloof_advance (im pm imesh pmesh : nat) (e : FadeEntry) :
  aloof im pm imesh pmesh e -> aloof im pm imesh pmesh (advance e).
Proof. exact (fun H => H). Qed.

(** Painting entries that are aloof of [e] leaves what the scene shows of
    [e] as it is. *)
Lemma painted_aloof (fades : JsMap.t FadeEntry) (e : FadeEntry) :
  forall sc,
    (forall p, In p fades ->
               aloof (imageMaterial e) (placeholderMaterial e)
                     (imageMesh e) (placeholderMesh e) (snd p)) ->
    shows sc e -> shows (painted fades sc) e.
Proof.
  induction fades as [|[k e0] fades IH]; intros sc Hal Hsh; [exact Hsh|].
  cbn [painted fold_left]. apply IH.
  - intros p Hp. apply Hal. now right.
  - specialize (Hal (k, e0) (or_introl eq_refl)). cbn [snd] in Hal.
    destruct Hal as (H1 & H2 & H3 & H4 & H5 & H6 & H7 & H8).
    destruct Hsh as (S1 & S2 & S3 & S4). unfold shows.
    rewrite !paint_materials_other, !paint_visible_other;
      cbn [imageMaterial placeholderMaterial imageMesh placeholderMesh advance];
      auto.
Qed.

Lemma painted_shows (fades : JsMap.t FadeEntry) (id : string) (e : FadeEntry) :
  forall sc,
    NoDup (keys fades) -> get id fades = Some e ->
    imageMaterial e <> placeholderMaterial e ->
    imageMesh e <> placeholderMesh e ->
    (forall id' e', In (id', e') fades -> id' <> id ->
                    aloof (imageMaterial e) (placeholderMaterial e)
                          (imageMesh e) (placeholderMesh e) e') ->
    shows (painted fades sc) (advance e).
Proof.
  induction fades as [|[k e0] fades IH]; intros sc Hnd Hget Hm Hv Hal;
    [discriminate|].
  cbn [painted fold_left snd]. apply NoDup_cons_iff in Hnd as [Hk Hnd].
  cbn [get] in Hget. destruct (String.eqb_spec id k) as [->|Hne].
  - injection Hget as ->.
    apply (painted_aloof fades (advance e)).
    + intros [k' e'] Hp. cbn [snd]. apply (Hal k' e'); [now right|].
      intros ->. apply Hk. unfold keys. apply in_map_iff. now exists (k, e').
    + now apply paint_shows.
  - apply IH; auto. intros id' e' H. apply Hal. now right.
Qed.

(** *** Ticks *)

Lemma tick_idle (s : State) : scheduled s = [] -> tick s = s.
Proof. intros H. unfold tick. rewrite H. destruct s. cbn in *. now subst. Qed.

Lemma tick_animating (s : State) (i : nat) :
  scheduled s = [i] ->
  tick s = animate (mkState (activeFades s) (isAnimating s)
                            (animationFrameId s) [] (nextFrameId s) (scene s)).
Proof. intros H. unfold tick. now rewrite H. Qed.

Lemma size_zero (m : JsMap.t FadeEntry) : (0 <? size m) = false <-> m = [].
Proof. destruct m; cbn; split; congruence. Qed.

(** After a tick of a running animator: the entries that are not complete,
    advanced; the scene painted; and a next frame exactly when entries
    remain. *)
Lemma tick_running (s : State) (i : nat) :
  isAnimating s = true -> scheduled s = [i] ->
  activeFades (tick s) = survivors (activeFades s)
  /\ scene (tick s) = painted (activeFades s) (scene s)
  /\ (survivors (activeFades s) = [] ->
      isAnimating (tick s) = false /\ scheduled (tick s) = []
      /\ animationFrameId (tick s) = None)
  /\ (survivors (activeFades s) <> [] ->
      isAnimating (tick s) = true
      /\ scheduled (tick s) = [nextFrameId s]
      /\ animationFrameId (tick s) = Some (nextFrameId s)).
Proof.
  intros Ha Hs. rewrite (tick_animating s i Hs), animate_spec.
  cbn [activeFades scene isAnimating animationFrameId scheduled nextFrameId].
  cbv zeta.
  destruct (0 <? size (survivors (activeFades s))) eqn:E.
  - unfold requestAnimationFrame. cbn.
    split; [reflexivity|]. split; [reflexivity|]. split.
    + intros H. rewrite H in E. discriminate.
    + intros _. repeat split. exact Ha.
  - apply size_zero in E. cbn.
    split; [reflexivity|]. split; [reflexivity|]. split.
    + intros _. repeat split.
    + intros H. now apply H in E.
Qed.

Lemma tick_wellFormed (s : State) : wellFormed s -> wellFormed (tick s).
Proof.
  intros [Hnd Hs]. destruct (isAnimating s) eqn:Ha.
  - destruct Hs as (i & Hs & _).
    destruct (tick_running s i Ha Hs) as (Hf & _ & He & Hn).
    unfold wellFormed. rewrite Hf. split; [now apply survivors_NoDup|].
    destruct (survivors (activeFades s)) eqn:E.
    + destruct (He eq_refl) as (-> & -> & _). reflexivity.
    + destruct Hn as (-> & -> & ->); [discriminate|]. eauto.
  - rewrite (tick_idle s Hs). split; [exact Hnd | now rewrite Ha].
Qed.

Lemma ticks_S (k : nat) : forall s, ticks (S k) s = tick (ticks k s).
Proof.
  induction k as [|k IH]; intros s; [reflexivity|].
  change (ticks (S (S k)) s) with (ticks (S k) (tick s)). rewrite IH.
  reflexivity.
Qed.

Lemma ticks_idle (j : nat) (s : State) : scheduled s = [] -> ticks j s = s.
Proof.
  intros H. induction j as [|j IH]; [reflexivity|].
  cbn [ticks]. now rewrite (tick_idle s H).
Qed.

Lemma keys_tick (s : State) (k : string) :
  wellFormed s ->
  In k (keys (activeFades (tick s))) -> In k (keys (activeFades s)).
Proof.
  intros [_ Hs]. destruct (isAnimating s) eqn:Ha.
  - destruct Hs as (i & Hs & _).
    destruct (tick_running s i Ha Hs) as (-> & _).
    unfold keys. rewrite !in_map_iff. intros ([k' e'] & <- & H).
    apply In_survivors in H as (e & H & _). now exists (k', e).
  - now rewrite (tick_idle s Hs).
Qed.

Lemma tick_synced (s : State) : synced s -> synced (tick s).
Proof.
  intros [Hwf Hsy]. split; [now apply tick_wellFormed|].
  destruct Hwf as [_ Hs]. destruct (isAnimating s) eqn:Ha.
  - destruct Hs as (i & Hs & _).
    destruct (tick_running s i Ha Hs) as (Hf & _ & He & Hn). rewrite Hf.
    destruct (survivors (activeFades s)) eqn:E.
    + destruct (He eq_refl) as (-> & _). split; [discriminate | tauto].
    + destruct Hn as (-> & _); [discriminate|]. split; [discriminate | auto].
  - rewrite (tick_idle s Hs). now rewrite Ha.
Qed.

Lemma ticks_synced (k : nat) (s : State) : synced s -> synced (ticks k s).
Proof.
  intros H. induction k as [|k IH]; [exact H|].
  rewrite ticks_S. now apply tick_synced.
Qed.

Lemma In_set_other (m : JsMap.t FadeEntry) (k k' : string) (v v' : FadeEntry) :
  In (k', v') (set k v m) -> k' <> k -> In (k', v') m.
Proof.
  induction m as [|[k0 v0] m IH]; cbn.
  - intros [E|[]] Hk. injection E as E1 E2. congruence.
  - destruct (String.eqb_spec k k0) as [->|Hne]; cbn.
    + intros [E|H] Hk; [injection E as E1 E2; congruence | now right].
    + intros [H|H] Hk; [now left | right; now apply IH].
Qed.

Lemma keys_set_NoDup (m : JsMap.t FadeEntry) (k : string) (v : FadeEntry) :
  NoDup (keys m) -> NoDup (keys (set k v m)).
Proof.
  intros H. destruct (in_dec string_dec k (keys m)) as [Hi|Hn].
  - now rewrite JsMapFacts.keys_set_present.
  - rewrite JsMapFacts.set_absent, JsMapFacts.keys_app by exact Hn.
    apply NoDup_app; [exact H | repeat constructor; intros [] |].
    intros a Ha [<-|[]]. contradiction.
Qed.

Lemma startFade_synced (s : State) (id : string) (im pm imesh pmesh : nat) :
  wellFormed s ->
  synced (startFade id im pm imesh pmesh s)
  /\ get id (activeFades (startFade id im pm imesh pmesh s))
     = Some (mkEntry im pm imesh pmesh 0 1)
  /\ forall id' e',
       In (id', e') (activeFades (startFade id im pm imesh pmesh s)) ->
       id' <> id -> In (id', e') (activeFades s).
Proof.
  intros [Hnd Hs]. unfold startFade. cbn [isAnimating activeFades].
  assert (Hne : set id (mkEntry im pm imesh pmesh 0 1) (activeFades s) <> []).
  { intros E. pose proof (JsMapFacts.get_set_same _ id
                            (mkEntry im pm imesh pmesh 0 1) (activeFades s)) as G.
    rewrite E in G. discriminate. }
  destruct (isAnimating s) eqn:Ha; cbn.
  - split; [|split].
    + split; [|cbn; tauto].
      split; cbn; [now apply keys_set_NoDup | exact Hs].
    + apply JsMapFacts.get_set_same.
    + intros id' e'. apply In_set_other.
  - split; [|split].
    + split; [|cbn; tauto].
      split; cbn; [now apply keys_set_NoDup|]. rewrite Hs.
      exists (nextFrameId s). split; reflexivity.
    + apply JsMapFacts.get_set_same.
    + intros id' e'. apply In_set_other.
Qed.

(** One tick of a running animator on a tracked entry. *)
Lemma tick_entry (s : State) (id : string) (e : FadeEntry) :
  synced s -> get id (activeFades s) = Some e ->
  imageMaterial e <> placeholderMaterial e ->
  imageMesh e <> placeholderMesh e ->
  (forall id' e', In (id', e') (activeFades s) -> id' <> id ->
                  aloof (imageMaterial e) (placeholderMaterial e)
                        (imageMesh e) (placeholderMesh e) e') ->
  get id (activeFades (tick s))
  = (if complete (advance e) then None else Some (advance e))
  /\ shows (scene (tick s)) (advance e)
  /\ (forall id' e', In (id', e') (activeFades (tick s)) -> id' <> id ->
                     aloof (imageMaterial e) (placeholderMaterial e)
                           (imageMesh e) (placeholderMesh e) e').
Proof.
  intros [[Hnd Hs] Hsy] Hget Hm Hv Hal.
  assert (Ha : isAnimating s = true).
  { apply Hsy. intros E. rewrite E in Hget. discriminate. }
  rewrite Ha in Hs. destruct Hs as (i & Hs & _).
  destruct (tick_running s i Ha Hs) as (-> & -> & _).
  split; [|split].
  - now rewrite get_survivors, Hget.
  - now apply painted_shows with (id := id).
  - intros id' e' H Hne. apply In_survivors in H as (e0 & H & ->).
    now apply (Hal id' e0).
Qed.

(** *** The entry registered by [startFade] *)

Lemma fadeInTicks_value : fadeInTicks = 13.
Proof. reflexivity. Qed.

Lemma fadeAfter_handles (k im pm imesh pmesh : nat) :
  imageMaterial (fadeAfter k im pm imesh pmesh) = im
  /\ placeholderMaterial (fadeAfter k im pm imesh pmesh) = pm
  /\ imageMesh (fadeAfter k im pm imesh pmesh) = imesh
  /\ placeholderMesh (fadeAfter k im pm imesh pmesh) = pmesh.
Proof.
  induction k as [|k IH]; [repeat split|].
  change (fadeAfter (S k) im pm imesh pmesh)
    with (advance (fadeAfter k im pm imesh pmesh)).
  exact IH.
Qed.

Lemma fadeAfter_complete (k im pm imesh pmesh : nat) :
  k <= 13 -> complete (fadeAfter k im pm imesh pmesh) = (13 <=? k).
Proof.
  intros H. do 14 (destruct k as [|k]; [vm_compute; reflexivity|]). lia.
Qed.

Lemma fadeAfter_values (k im pm imesh pmesh : nat) :
  k <= 13 ->
  (imageOpacity (fadeAfter k im pm imesh pmesh)
   == Qmin 1 (inject_Z (Z.of_nat k) * FADE_IN_SPEED))%Q
  /\ (placeholderOpacity (fadeAfter k im pm imesh pmesh)
      == Qmax 0 (1 - inject_Z (Z.of_nat k) * FADE_OUT_SPEED))%Q.
Proof.
  intros H.
  do 14 (destruct k as [|k]; [split; vm_compute; reflexivity|]). lia.
Qed.

Lemma fadeAfter_monotone (k im pm imesh pmesh : nat) :
  k < 13 ->
  (0 <= imageOpacity (fadeAfter k im pm imesh pmesh))%Q
  /\ (imageOpacity (fadeAfter k im pm imesh pmesh)
      <= imageOpacity (fadeAfter (S k) im pm imesh pmesh))%Q
  /\ (imageOpacity (fadeAfter (S k) im pm imesh pmesh) <= 1)%Q
  /\ (0 <= placeholderOpacity (fadeAfter (S k) im pm imesh pmesh))%Q
  /\ (placeholderOpacity (fadeAfter (S k) im pm imesh pmesh)
      <= placeholderOpacity (fadeAfter k im pm imesh pmesh))%Q
  /\ (placeholderOpacity (fadeAfter k im pm imesh pmesh) <= 1)%Q.
Proof.
  intros H.
  do 13 (destruct k as [|k];
         [repeat split; vm_compute; discriminate|]). lia.
Qed.

Lemma fadeAfter_final (im pm imesh pmesh : nat) :
  fadeAfter 13 im pm imesh pmesh = mkEntry im pm imesh pmesh 1 0.
Proof. vm_compute. reflexivity. Qed.

(** The run of ticks after [startFade], up to the last tick before the
    entry completes. *)
Lemma run_entry (s : State) (id : string) (im pm imesh pmesh : nat) (k : nat) :
  wellFormed s ->
  im <> pm -> imesh <> pmesh ->
  (forall id' e', In (id', e') (activeFades s) -> id' <> id ->
                  aloof im pm imesh pmesh e') ->
  k < 13 ->
  synced (ticks k (startFade id im pm imesh pmesh s))
  /\ get id (activeFades (ticks k (startFade id im pm imesh pmesh s)))
     = Some (fadeAfter k im pm imesh pmesh)
  /\ (forall id' e',
        In (id', e') (activeFades (ticks k (startFade id im pm imesh pmesh s))) ->
        id' <> id -> aloof im pm imesh pmesh e').
Proof.
  intros Hwf Hm Hv Hal. induction k as [|k IH]; intros Hk.
  - destruct (startFade_synced s id im pm imesh pmesh Hwf) as (Hs & Hg & Ho).
    cbn [ticks]. split; [exact Hs|]. split; [exact Hg|].
    intros id' e' H Hne. apply (Hal id' e'); auto.
  - destruct IH as (Hs & Hg & Ho); [lia|]. rewrite ticks_S.
    destruct (fadeAfter_handles k im pm imesh pmesh) as (E1 & E2 & E3 & E4).
    destruct (tick_entry _ id _ Hs Hg) as (Hg' & _ & Ho');
      rewrite ?E1, ?E2, ?E3, ?E4; auto.
    rewrite E1, E2, E3, E4 in Ho'.
    split; [now apply tick_synced|]. split; [|exact Ho'].
    rewrite Hg'.
    change (advance (fadeAfter k im pm imesh pmesh))
      with (fadeAfter (S k) im pm imesh pmesh).
    rewrite fadeAfter_complete by lia.
    destruct (Nat.leb_spec 13 (S k)); [lia | reflexivity].
Qed.

(** C7.  Fade convergence.  After [startFade], each of the first
    N = ceil(1 / FADE_IN_SPEED) = 13 ticks advances the entry: the image
    opacity is min(1, k * FADE_IN_SPEED) and the placeholder opacity
    max(0, 1 - k * FADE_OUT_SPEED) after k ticks, so the image opacity
    never decreases, the placeholder opacity never increases and both stay
    in [0, 1].  The N-th tick leaves image opacity 1 and placeholder
    opacity 0, on the entry and on its materials (depth write on, image
    mesh visible, placeholder mesh hidden), and removes the entry from the
    map on that same tick.  After every tick a next frame is scheduled
    exactly when entries remain; once none remains the loop has halted:
    nothing is scheduled and further frames change nothing. *)
Theorem fade_converges_in_fadeInTicks :
  forall (s : State) (id : string) (im pm imesh pmesh : nat),
    wellFormed s ->
    im <> pm -> imesh <> pmesh ->
    (forall id' e', In (id', e') (activeFades s) -> id' <> id ->
                    aloof im pm imesh pmesh e') ->
    let s0 := startFade id im pm imesh pmesh s in
    let entry k := fadeAfter k im pm imesh pmesh in
    fadeInTicks = 13
    /\ (forall k, k < fadeInTicks ->
          get id (activeFades (ticks k s0)) = Some (entry k))
    /\ get id (activeFades (ticks fadeInTicks s0)) = None
    /\ (forall k, k <= fadeInTicks ->
          (imageOpacity (entry k)
           == Qmin 1 (inject_Z (Z.of_nat k) * FADE_IN_SPEED))%Q
          /\ (placeholderOpacity (entry k)
              == Qmax 0 (1 - inject_Z (Z.of_nat k) * FADE_OUT_SPEED))%Q)
    /\ (forall k, k < fadeInTicks ->
          (0 <= imageOpacity (entry k))%Q
          /\ (imageOpacity (entry k) <= imageOpacity (entry (S k)))%Q
          /\ (imageOpacity (entry (S k)) <= 1)%Q
          /\ (0 <= placeholderOpacity (entry (S k)))%Q
          /\ (placeholderOpacity (entry (S k)) <= placeholderOpacity (entry k))%Q
          /\ (placeholderOpacity (entry k) <= 1)%Q)
    /\ imageOpacity (entry fadeInTicks) = 1%Q
    /\ placeholderOpacity (entry fadeInTicks) = 0%Q
    /\ (let sc := scene (ticks fadeInTicks s0) in
        materials sc im = mkMaterial 1 true
        /\ opacity (materials sc pm) = 0%Q
        /\ visible sc imesh = true
        /\ visible sc pmesh = false)
    /\ (forall k,
          (activeFades (ticks k s0) = [] ->
           isAnimating (ticks k s0) = false
           /\ scheduled (ticks k s0) = []
           /\ forall j, ticks j (ticks k s0) = ticks k s0)
          /\ (activeFades (ticks k s0) <> [] ->
              isAnimating (ticks k s0) = true
              /\ exists i, scheduled (ticks k s0) = [i]))
    /\ (activeFades s = [] -> activeFades (ticks fadeInTicks s0) = []).
Proof.
  intros s id im pm imesh pmesh Hwf Hm Hv Hal. cbv zeta.
  set (s0 := startFade id im pm imesh pmesh s).
  rewrite fadeInTicks_value.
  destruct (run_entry s id im pm imesh pmesh 12 Hwf Hm Hv Hal)
    as (Hs12 & Hg12 & Ho12); [lia|].
  destruct (fadeAfter_handles 12 im pm imesh pmesh) as (E1 & E2 & E3 & E4).
  destruct (tick_entry _ id _ Hs12 Hg12) as (Hg13 & Hsh & _);
    rewrite ?E1, ?E2, ?E3, ?E4; auto.
  rewrite <- ticks_S in Hg13, Hsh.
  change (advance (fadeAfter 12 im pm imesh pmesh))
    with (fadeAfter 13 im pm imesh pmesh) in Hg13, Hsh.
  rewrite fadeAfter_complete in Hg13 by lia. cbn [Nat.leb] in Hg13.
  rewrite fadeAfter_final in Hsh. fold s0 in Hg13, Hsh.
  assert (Hsync : forall k, synced (ticks k s0)).
  { intros k. apply ticks_synced.
    now destruct (startFade_synced s id im pm imesh pmesh Hwf). }
  split; [reflexivity|]. split.
  { intros k Hk. now apply run_entry. }
  split; [exact Hg13|]. split.
  { intros k Hk. now apply fadeAfter_values. }
  split.
  { intros k Hk. now apply fadeAfter_monotone. }
  rewrite fadeAfter_final. split; [reflexivity|].
  split; [reflexivity|]. split.
  { destruct Hsh as (S1 & S2 & S3 & S4).
    cbn [imageMaterial placeholderMaterial imageMesh placeholderMesh
         imageOpacity placeholderOpacity] in S1, S2, S3, S4.
    rewrite S1, S2, S3, S4. repeat split. }
  split.
  { intros k. destruct (Hsync k) as [[_ Hsch] Hiff]. split.
    - intros He.
      assert (Ha : isAnimating (ticks k s0) = false).
      { destruct (isAnimating (ticks k s0)); [|reflexivity].
        exfalso. now apply Hiff. }
      rewrite Ha in Hsch. split; [exact Ha|]. split; [exact Hsch|].
      intros j. now apply ticks_idle.
    - intros Hne. apply Hiff in Hne. rewrite Hne in Hsch.
      split; [exact Hne|]. destruct Hsch as (i & Hi & _). eauto. }
  intros Hempty.
  assert (Hkeys : forall k id',
             In id' (keys (activeFades (ticks k s0))) -> id' = id).
  { induction k as [|k IH]; intros id'.
    - cbn [ticks]. unfold s0, startFade. rewrite Hempty.
      destruct (isAnimating _); cbn; intros [<-|[]]; reflexivity.
    - rewrite ticks_S. intros H. apply IH.
      apply keys_tick; [apply Hsync | exact H]. }
  destruct (activeFades (ticks 13 s0)) as [|[k e] m] eqn:E; [reflexivity|].
  exfalso. assert (k = id) as ->.
  { apply (Hkeys 13). rewrite E. now left. }
  cbn in Hg13. rewrite String.eqb_refl in Hg13. discriminate.
Qed.

Lemma fade_converges_witness :
  wellFormed initialState
  /\ 0 <> 1
  /\ get "plane" (activeFades (ticks fadeInTicks
                                     (startFade "plane" 0 1 0 1 initialState)))
     = None
  /\ activeFades (ticks fadeInTicks (startFade "plane" 0 1 0 1 initialState))
     = [].
Proof.
  assert (Hwf : wellFormed initialState).
  { split; [constructor | reflexivity]. }
  assert (Hne : 0 <> 1) by discriminate.
  assert (Hal : forall id' e', In (id', e') (activeFades initialState) ->
                               id' <> "plane"%string -> aloof 0 1 0 1 e').
  { intros id' e' []. }
  pose proof (fade_converges_in_fadeInTicks
                initialState "plane" 0 1 0 1 Hwf Hne Hne Hal) as H.
  cbv zeta in H.
  destruct H as (_ & _ & H3 & _ & _ & _ & _ & _ & _ & H10).
  split; [exact Hwf|]. split; [exact Hne|]. split; [exact H3|].
  apply H10. reflexivity.
Defined.

End FadeManagerFacts.

(** ** Request deduplication in the texture loader *)

Module TextureManagerFacts.
Import TextureManager Notions.
Open Scope nat_scope.

Lemma includes_In (x : string) (l : list string) :
  JsArray.includes x l = true <-> In x l.
Proof.
  unfold JsArray.includes. rewrite existsb_exists. split.
  - intros (y & Hy & E). apply String.eqb_eq in E. now subst.
  - intros H. exists x. split; [exact H | apply String.eqb_refl].
Qed.

Lemma includes_false (x : string) (l : list string) :
  JsArray.includes x l = false <-> ~ In x l.
Proof.
  rewrite <- includes_In. destruct (JsArray.includes x l); split; congruence.
Qed.

(** *** Callbacks *)

Lemma call_frame (cb : Callback) (tex : Texture) (e : Effects) :
  fetched (call cb tex e) = fetched e
  /\ created (call cb tex e) = created e
  /\ invoked (call cb tex e) = invoked e ++ [(cb, tex)].
Proof. repeat split. Qed.

Lemma callAll_frame (cbs : list Callback) (tex : Texture) :
  forall e,
    fetched (callAll cbs tex e) = fetched e
    /\ created (callAll cbs tex e) = created e
    /\ invoked (callAll cbs tex e)
       = invoked e ++ map (fun cb => (cb, tex)) cbs.
Proof.
  induction cbs as [|cb cbs IH]; intros e; cbn [callAll fold_left map].
  - now rewrite app_nil_r.
  - fold (callAll cbs tex (call cb tex e)).
    destruct (IH (call cb tex e)) as (-> & -> & ->).
    cbn [call fetched created invoked]. now rewrite <- app_assoc.
Qed.

Lemma setAdd_spec (cb : Callback) (l : list Callback) :
  exists added, setAdd cb l = l ++ added
                /\ In cb (setAdd cb l)
                /\ (~ In cb l -> added = [cb])
                /\ (NoDup l -> NoDup (setAdd cb l)).
Proof.
  unfold setAdd. destruct (existsb (Callback_eqb cb) l) eqn:E.
  - exists []. rewrite app_nil_r. apply existsb_exists in E as (x & Hx & E).
    assert (x = cb) as ->.
    { destruct cb, x; cbn in E; try discriminate.
      - apply Nat.eqb_eq in E. now subst.
      - apply andb_prop in E as [E1 E2].
        apply Nat.eqb_eq in E1, E2. now subst. }
    repeat split; auto. intros H. contradiction.
  - exists [cb]. split; [reflexivity|].
    assert (Hn : ~ In cb l).
    { intros H. assert (existsb (Callback_eqb cb) l = true); [|congruence].
      apply existsb_exists. exists cb. split; [exact H|].
      destruct cb; cbn; now rewrite ?Nat.eqb_refl. }
    split; [apply in_or_app; right; now left|]. split; [reflexivity|].
    intros H. apply NoDup_app; [exact H | repeat constructor; intros [] |].
    intros a Ha [<-|[]]. contradiction.
Qed.

Lemma flushCallbacks_frame (u : string) (tex : Texture) (s : State) :
  textureCache (flushCallbacks u tex s) = textureCache s
  /\ textureLastUsed (flushCallbacks u tex s) = textureLastUsed s
  /\ loadQueue (flushCallbacks u tex s) = loadQueue s
  /\ activeLoads (flushCallbacks u tex s) = activeLoads s
  /\ loadingUrls (flushCallbacks u tex s) = loadingUrls s
  /\ loadCallbacks (flushCallbacks u tex s) = JsMap.delete u (loadCallbacks s)
  /\ fetched (effects (flushCallbacks u tex s)) = fetched (effects s)
  /\ created (effects (flushCallbacks u tex s)) = created (effects s)
  /\ invoked (effects (flushCallbacks u tex s))
     = invoked (effects s) ++ map (fun cb => (cb, tex)) (callbacksOf u s).
Proof.
  unfold flushCallbacks, callbacksOf.
  cbn [textureCache textureLastUsed loadQueue activeLoads loadingUrls
       loadCallbacks effects withCallbacks withEffects].
  destruct (callAll_frame
              match JsMap.get u (loadCallbacks s) with
              | Some l => l
              | None => []
              end tex (effects s)) as (-> & -> & ->).
  repeat split.
Qed.

Lemma readyTexture_cache (w : string) (s s' : State) :
  textureCache s' = textureCache s -> readyTexture w s' = readyTexture w s.
Proof. unfold readyTexture. now intros ->. Qed.

Lemma afterLoop_frame (s : State) :
  textureCache (afterLoop s) = textureCache s
  /\ loadCallbacks (afterLoop s) = loadCallbacks s
  /\ textureLastUsed (afterLoop s) = textureLastUsed s
  /\ loadQueue (afterLoop s) = loadQueue s
  /\ loadingUrls (afterLoop s) = loadingUrls s
  /\ effects (afterLoop s) = effects s.
Proof. unfold afterLoop. destruct (_ && _); repeat split. Qed.

(** *** The queue *)

(** One call of [processQueue], up to its first [await] or to its end:
    it takes droppable URLs off the queue and starts at most one load,
    for the first URL that is not droppable. *)
Lemma processQueueFrom_spec (q : list string) :
  forall s,
  exists dropped started rest,
    q = dropped ++ started ++ rest
    /\ List.length started <= 1
    /\ Forall (droppable s) dropped
    /\ (forall v, In v started -> ~ droppable s v)
    /\ loadQueue (processQueueFrom q s) = rest
    /\ loadingUrls (processQueueFrom q s) = loadingUrls s ++ started
    /\ textureCache (processQueueFrom q s) = textureCache s
    /\ textureLastUsed (processQueueFrom q s) = textureLastUsed s
    /\ fetched (effects (processQueueFrom q s))
       = fetched (effects s) ++ started
    /\ created (effects (processQueueFrom q s)) = created (effects s)
    /\ (exists extra, invoked (effects (processQueueFrom q s))
                      = invoked (effects s) ++ extra)
    /\ (forall w,
          JsMap.get w (loadCallbacks (processQueueFrom q s))
          = JsMap.get w (loadCallbacks s)
          \/ (JsMap.get w (loadCallbacks (processQueueFrom q s)) = None
              /\ readyTexture w s <> None)).
Proof.
  induction q as [|u q IH]; intros s.
  - exists [], [], []. cbn [processQueueFrom].
    destruct (afterLoop_frame (withQueue [] s)) as (E1 & E2 & E3 & E4 & E5 & E6).
    rewrite E1, E2, E3, E4, E5, E6. cbn. rewrite !app_nil_r.
    repeat (split; [solve [reflexivity | lia | constructor | intros v []
                          | exists []; now rewrite app_nil_r]|]).
    intros w. now left.
  - cbn [processQueueFrom].
    destruct (activeLoads s <? MAX_CONCURRENT_LOADS).
    2:{ exists [], [], (u :: q).
        destruct (afterLoop_frame (withQueue (u :: q) s))
          as (E1 & E2 & E3 & E4 & E5 & E6).
        rewrite E1, E2, E3, E4, E5, E6. cbn. rewrite !app_nil_r.
        repeat (split; [solve [reflexivity | lia | constructor | intros v []
                              | exists []; now rewrite app_nil_r]|]).
        intros w. now left. }
    destruct (String.eqb u "" || JsArray.includes u (loadingUrls s)) eqn:Hskip.
    { destruct (IH s) as (dropped & started & rest & Hq & Hl & Hd & Hs & H).
      exists (u :: dropped), started, rest.
      split; [cbn; now rewrite Hq|]. split; [exact Hl|].
      split; [|split; [exact Hs | exact H]].
      constructor; [|exact Hd]. apply orb_prop in Hskip as [E|E].
      - left. now apply String.eqb_eq.
      - right. left. now apply includes_In. }
    apply orb_false_elim in Hskip as [Hne Hnl].
    destruct (readyTexture u s) as [existing|] eqn:Hready.
    + destruct (flushCallbacks_frame u existing s)
        as (F1 & F2 & F3 & F4 & F5 & F6 & F7 & F8 & F9).
      destruct (IH (flushCallbacks u existing s))
        as (dropped & started & rest & Hq & Hl & Hd & Hs & H1 & H2 & H3
            & H4 & H5 & H6 & (extra & H7) & H8).
      assert (Hdr : forall d, droppable (flushCallbacks u existing s) d
                              <-> droppable s d).
      { intros d. unfold droppable.
        now rewrite F5, (readyTexture_cache d s _ F1). }
      exists (u :: dropped), started, rest.
      split; [cbn; now rewrite Hq|]. split; [exact Hl|].
      split.
      { constructor.
        - right. right. now rewrite Hready.
        - eapply Forall_impl; [|exact Hd]. intros d. apply Hdr. }
      split; [intros v Hv Hdv; apply (Hs v Hv); now apply Hdr|].
      split; [exact H1|]. split; [now rewrite H2, F5|].
      split; [now rewrite H3, F1|]. split; [now rewrite H4, F2|].
      split; [now rewrite H5, F7|]. split; [now rewrite H6, F8|].
      split; [exists (map (fun cb => (cb, existing)) (callbacksOf u s) ++ extra);
              now rewrite H7, F9, app_assoc|].
      intros w. destruct (H8 w) as [E|[E Hr]].
      * rewrite E, F6. destruct (string_dec w u) as [->|Hwu].
        -- right. rewrite JsMapFacts.get_delete_same.
           split; [reflexivity | now rewrite Hready].
        -- left. now apply JsMapFacts.get_delete_other.
      * right. split; [exact E|].
        now rewrite <- (readyTexture_cache w s _ F1).
    + exists [], [u], q.
      cbn [loadQueue loadingUrls textureCache textureLastUsed effects
           fetched created invoked loadCallbacks withEffects withLoading
           withQueue app List.length].
      split; [reflexivity|]. split; [lia|]. split; [constructor|].
      split.
      { intros v [<-|[]] [E|[E|E]].
        - apply String.eqb_neq in Hne. contradiction.
        - apply includes_false in Hnl. contradiction.
        - now apply E. }
      repeat (split; [solve [reflexivity | exists []; now rewrite app_nil_r]|]).
      intros w. now left.
Qed.

Ltac simp_state :=
  cbn [textureCache loadCallbacks textureLastUsed loadQueue activeLoads
       loadingUrls timers effects withCache withCallbacks withLastUsed
       withQueue withLoading withTimers withEffects fetched created invoked
       disposed failures preloads] in *.

Lemma uncached_not_ready (u : string) (s : State) :
  JsMap.get u (textureCache s) = None -> readyTexture u s = None.
Proof. unfold readyTexture. now intros ->. Qed.



Lemma processQueue_awaiting (u : string) (c : nat) (s : State) :
  u <> ""%string -> awaiting u c s ->
  awaiting u c (processQueue s)
  /\ callbacksOf u (processQueue s) = callbacksOf u s
  /\ created (effects (processQueue s)) = created (effects s)
  /\ exists extra, invoked (effects (processQueue s))
                   = invoked (effects s) ++ extra.
Proof.
  intros Hu ((Hnd & Hdis & Hcb) & Hc & Hp & Hn). unfold processQueue.
  destruct (processQueueFrom_spec (loadQueue s) s)
    as (dropped & started & rest & Hq & Hl & Hd & Hs & H1 & H2 & H3 & _
        & H5 & H6 & H7 & H8).
  set (s' := processQueueFrom (loadQueue s) s) in *.
  assert (Hready : readyTexture u s = None) by now apply uncached_not_ready.
  assert (Hnd' : NoDup (started ++ rest)).
  { rewrite Hq in Hnd. now apply NoDup_app_remove_l in Hnd. }
  destruct (LruFacts.NoDup_app_inv _ _ Hnd') as (_ & Hndr & Hsr).
  assert (Hud : ~ In u dropped).
  { intros Hin. rewrite Forall_forall in Hd.
    destruct (Hd u Hin) as [E|[E|E]]; [contradiction | | contradiction].
    apply (Hdis u); [|exact E]. rewrite Hq. apply in_or_app. now left. }
  assert (Hcbs : forall w, callbacksOf w s' = callbacksOf w s
                           \/ callbacksOf w s' = []).
  { intros w. unfold callbacksOf. destruct (H8 w) as [->|[-> _]]; auto. }
  split; [|split; [|split; [exact H6 | exact H7]]].
  - unfold awaiting, orderly, fetchCount, queuedOnce.
    rewrite H1, H2, H3, H5. split; [split; [exact Hndr|split]|split; [exact Hc|split]].
    + intros v Hv Hin. apply in_app_or in Hin as [Hin|Hin].
      * apply (Hdis v); [|exact Hin]. rewrite Hq.
        apply in_or_app. right. apply in_or_app. now right.
      * now apply (Hsr v).
    + intros w. destruct (Hcbs w) as [->| ->]; [apply Hcb | constructor].
    + destruct Hp as [Hp|Hp]; [left; apply in_or_app; now left|].
      rewrite Hq in Hp. apply in_app_or in Hp as [Hp|Hp]; [contradiction|].
      apply in_app_or in Hp as [Hp|Hp]; [left; apply in_or_app|]; now right.
    + rewrite count_occ_app, <- Hn. unfold fetchCount, queuedOnce.
      rewrite <- Nat.add_assoc. f_equal.
      destruct (JsArray.includes u (loadQueue s)) eqn:Ein.
      * apply includes_In in Ein. rewrite Hq in Ein.
        apply in_app_or in Ein as [Ein|Ein]; [contradiction|].
        apply in_app_or in Ein as [Ein|Ein].
        -- assert (Er : JsArray.includes u rest = false).
           { apply includes_false. now apply Hsr. }
           rewrite Er. destruct started as [|v [|? ?]]; [destruct Ein | | cbn in Hl; lia].
           destruct Ein as [->|[]]. cbn.
           destruct (string_dec u u); [reflexivity | congruence].
        -- assert (Er : JsArray.includes u rest = true) by now apply includes_In.
           rewrite Er. rewrite (proj1 (count_occ_not_In string_dec started u));
             [reflexivity|]. intros Hin. now apply (Hsr u).
      * apply includes_false in Ein.
        assert (Er : JsArray.includes u rest = false).
        { apply includes_false. intros Hin. apply Ein. rewrite Hq.
          apply in_or_app. right. apply in_or_app. now right. }
        rewrite Er. rewrite (proj1 (count_occ_not_In string_dec started u));
          [reflexivity|]. intros Hin. apply Ein. rewrite Hq.
        apply in_or_app. right. apply in_or_app. now left.
  - unfold callbacksOf. destruct (H8 u) as [->|[_ E]]; [reflexivity|].
    contradiction.
Qed.

(** *** The exported functions on a state that awaits [u] *)

Lemma callbacksOf_set (w v : string) (l : list Callback) (s : State) :
  callbacksOf w (withCallbacks (JsMap.set v l (loadCallbacks s)) s)
  = if string_dec w v then l else callbacksOf w s.
Proof.
  unfold callbacksOf. simp_state. destruct (string_dec w v) as [->|Hne].
  - now rewrite JsMapFacts.get_set_same.
  - now rewrite JsMapFacts.get_set_other.
Qed.


(** The first request for a URL that is neither cached, queued nor
    loading: it is queued, or its load started, once. *)
Lemma getTexture_first (u : string) (item : MediaItem) (cb : Callback)
      (now : Q) (s : State) :
  u <> ""%string -> url item = u -> orderly s ->
  JsMap.get u (textureCache s) = None ->
  ~ In u (loadingUrls s) -> ~ In u (loadQueue s) ->
  awaiting u (fetchCount u s + 1) (getTexture item (Some cb) now s)
  /\ callbacksOf u (getTexture item (Some cb) now s)
     = setAdd cb (callbacksOf u s).
Proof.
  intros Hu Eu (Hnd & Hdis & Hcb) Hc Hl Hq. unfold getTexture. cbv zeta.
  rewrite Eu.
  set (s1 := withLastUsed (JsMap.set u now (textureLastUsed s)) s).
  rewrite (uncached_not_ready u s1) by exact Hc.
  set (s2 := withCallbacks
               (JsMap.set u
                  (setAdd cb match JsMap.get u (loadCallbacks s1) with
                             | Some l => l
                             | None => []
                             end) (loadCallbacks s1)) s1).
  assert (El : JsArray.includes u (loadingUrls s2) = false)
    by now apply includes_false.
  assert (Eq : JsArray.includes u (loadQueue s2) = false)
    by now apply includes_false.
  rewrite El, Eq. cbn [orb].
  assert (Hcb2 : forall w, callbacksOf w s2
                           = if string_dec w u
                             then setAdd cb (callbacksOf u s)
                             else callbacksOf w s).
  { intros w. unfold s2. now rewrite callbacksOf_set. }
  assert (Haw3 : awaiting u (fetchCount u s + 1)
                          (withQueue (loadQueue s2 ++ [u]) s2)).
  { unfold awaiting, orderly, fetchCount, queuedOnce. simp_state.
    split; [split; [|split]|split; [exact Hc|split]].
    - apply NoDup_app; [exact Hnd | repeat constructor; intros [] |].
      intros a Ha [<-|[]]. contradiction.
    - intros v Hv. apply in_app_or in Hv as [Hv|[<-|[]]]; auto.
    - intros w. change (NoDup (callbacksOf w s2)). rewrite Hcb2.
      destruct (string_dec w u); [|apply Hcb].
      destruct (setAdd_spec cb (callbacksOf u s)) as (_ & _ & _ & _ & H).
      apply H, Hcb.
    - right. apply in_or_app. right. now left.
    - assert (E : JsArray.includes u (loadQueue s2 ++ [u]) = true).
      { apply includes_In, in_or_app. right. now left. }
      rewrite E. reflexivity. }
  destruct (processQueue_awaiting u _ _ Hu Haw3) as (H1 & H2 & _).
  split; [exact H1|]. rewrite H2.
  change (callbacksOf u (withQueue (loadQueue s2 ++ [u]) s2))
    with (callbacksOf u s2).
  rewrite Hcb2. destruct (string_dec u u); [reflexivity | congruence].
Qed.

(** *** Eviction and settling *)

Lemma get_delete_None {V} (k w : string) (m : JsMap.t V) :
  JsMap.get w m = None -> JsMap.get w (JsMap.delete k m) = None.
Proof.
  intros H. apply JsMapFacts.get_None. rewrite JsMapFacts.keys_delete.
  intros Hin. apply in_remove in Hin as [Hin _].
  now apply JsMapFacts.get_None in H.
Qed.

Lemma evictEntry_frame (s : State) (e : string * Q) :
  loadQueue (evictEntry s e) = loadQueue s
  /\ loadingUrls (evictEntry s e) = loadingUrls s
  /\ loadCallbacks (evictEntry s e) = loadCallbacks s
  /\ activeLoads (evictEntry s e) = activeLoads s
  /\ fetched (effects (evictEntry s e)) = fetched (effects s)
  /\ created (effects (evictEntry s e)) = created (effects s)
  /\ invoked (effects (evictEntry s e)) = invoked (effects s)
  /\ forall w, JsMap.get w (textureCache s) = None ->
               JsMap.get w (textureCache (evictEntry s e)) = None.
Proof.
  unfold evictEntry.
  destruct (JsMap.get (fst e) (textureCache s)) as [tex|] eqn:E.
  - simp_state. repeat split. intros w Hw. now apply get_delete_None.
  - repeat split. auto.
Qed.

Lemma evictLoop_frame (entries : list (string * Q)) :
  forall s,
    loadQueue (fold_left evictEntry entries s) = loadQueue s
    /\ loadingUrls (fold_left evictEntry entries s) = loadingUrls s
    /\ loadCallbacks (fold_left evictEntry entries s) = loadCallbacks s
    /\ activeLoads (fold_left evictEntry entries s) = activeLoads s
    /\ fetched (effects (fold_left evictEntry entries s))
       = fetched (effects s)
    /\ created (effects (fold_left evictEntry entries s))
       = created (effects s)
    /\ invoked (effects (fold_left evictEntry entries s))
       = invoked (effects s)
    /\ forall w, JsMap.get w (textureCache s) = None ->
                 JsMap.get w (textureCache (fold_left evictEntry entries s))
                 = None.
Proof.
  induction entries as [|e entries IH]; intros s; [repeat split; auto|].
  cbn [fold_left].
  destruct (IH (evictEntry s e)) as (-> & -> & -> & -> & -> & -> & -> & H).
  destruct (evictEntry_frame s e) as (-> & -> & -> & -> & -> & -> & -> & H').
  repeat split. intros w Hw. now apply H, H'.
Qed.

Lemma evictOldTextures_frame (s : State) :
  loadQueue (evictOldTextures s) = loadQueue s
  /\ loadingUrls (evictOldTextures s) = loadingUrls s
  /\ loadCallbacks (evictOldTextures s) = loadCallbacks s
  /\ activeLoads (evictOldTextures s) = activeLoads s
  /\ fetched (effects (evictOldTextures s)) = fetched (effects s)
  /\ created (effects (evictOldTextures s)) = created (effects s)
  /\ invoked (effects (evictOldTextures s)) = invoked (effects s)
  /\ forall w, JsMap.get w (textureCache s) = None ->
               JsMap.get w (textureCache (evictOldTextures s)) = None.
Proof.
  unfold evictOldTextures.
  destruct (JsMap.size (textureCache s) <=? MAX_CACHE_SIZE);
    [repeat split; auto | apply evictLoop_frame].
Qed.

Lemma settle_resumes (v : string) (ok : bool) (now : Q) (s : State) :
  In v (loadingUrls s) ->
  settle v ok now s = processQueue (afterAwait v ok now s).
Proof.
  intros H. unfold settle. apply includes_In in H. now rewrite H.
Qed.

Lemma afterAwait_frame (v : string) (ok : bool) (now : Q) (s : State) :
  loadQueue (afterAwait v ok now s) = loadQueue s
  /\ loadingUrls (afterAwait v ok now s)
     = filter (fun w => negb (String.eqb v w)) (loadingUrls s)
  /\ fetched (effects (afterAwait v ok now s)) = fetched (effects s)
  /\ (forall w, w <> v -> JsMap.get w (textureCache s) = None ->
                JsMap.get w (textureCache (afterAwait v ok now s)) = None)
  /\ (forall w, callbacksOf w (afterAwait v ok now s) = callbacksOf w s
                \/ callbacksOf w (afterAwait v ok now s) = [])
  /\ (forall w, w <> v ->
                callbacksOf w (afterAwait v ok now s) = callbacksOf w s)
  /\ (ok = true ->
      invoked (effects (afterAwait v ok now s))
      = invoked (effects s)
          ++ map (fun cb => (cb, mkTexture (created (effects s)) true))
                 (callbacksOf v s)).
Proof.
  unfold afterAwait. destruct ok; cbv zeta.
  - set (s3 := withLastUsed _ _).
    destruct (evictOldTextures_frame
                (flushCallbacks v (mkTexture (created (effects s)) true) s3))
      as (E1 & E2 & E3 & E4 & E5 & E6 & E7 & E8).
    destruct (flushCallbacks_frame v (mkTexture (created (effects s)) true) s3)
      as (F1 & F2 & F3 & F4 & F5 & F6 & F7 & F8 & F9).
    simp_state. rewrite E1, E2, E5, E7, F3, F5, F7, F9.
    split; [reflexivity|]. split; [reflexivity|]. split; [reflexivity|].
    split.
    { intros w Hwv Hw. apply E8. rewrite F1. unfold s3. simp_state.
      now rewrite JsMapFacts.get_set_other. }
    assert (Hcb : forall w, callbacksOf w
                    (withLoading
                       (pred (activeLoads
                          (evictOldTextures
                             (flushCallbacks v
                                (mkTexture (created (effects s)) true) s3))))
                       (filter (fun w0 => negb (String.eqb v w0))
                               (loadingUrls s3))
                       (evictOldTextures
                          (flushCallbacks v
                             (mkTexture (created (effects s)) true) s3)))
                  = if string_dec w v then [] else callbacksOf w s).
    { intros w. unfold callbacksOf. simp_state. rewrite E3, F6.
      destruct (string_dec w v) as [->|Hne].
      - now rewrite JsMapFacts.get_delete_same.
      - now rewrite JsMapFacts.get_delete_other. }
    split; [|split].
    + intros w. rewrite Hcb. destruct (string_dec w v); auto.
    + intros w Hne. rewrite Hcb. destruct (string_dec w v); [contradiction|].
      reflexivity.
    + intros _. reflexivity.
  - simp_state. repeat split; auto. discriminate.
Qed.







(** The settling of the load of [u], successfully: its callbacks are
    invoked once each, in registration order, with the one new texture,
    and no further fetch for [u] starts. *)
Lemma settle_awaited (u : string) (c : nat) (now : Q) (s : State) :
  awaiting u c s -> In u (loadingUrls s) ->
  fetchCount u s = c
  /\ fetchCount u (step s (LoadSettled u true now)) = c
  /\ exists extra,
       invoked (effects (step s (LoadSettled u true now)))
       = invoked (effects s)
           ++ map (fun cb => (cb, mkTexture (created (effects s)) true))
                  (callbacksOf u s)
           ++ extra.
Proof.
  intros ((Hnd & Hdis & Hcb) & Hc & Hp & Hn) Hin.
  assert (Hq : ~ In u (loadQueue s)).
  { intros H. now apply (Hdis u H). }
  assert (Hcount : fetchCount u s = c).
  { unfold queuedOnce in Hn. apply includes_false in Hq. rewrite Hq in Hn. lia. }
  split; [exact Hcount|]. cbn [step]. rewrite settle_resumes by exact Hin.
  destruct (afterAwait_frame u true now s) as (E1 & _ & E3 & _ & _ & _ & E7).
  specialize (E7 eq_refl). unfold processQueue.
  destruct (processQueueFrom_spec (loadQueue (afterAwait u true now s))
                                  (afterAwait u true now s))
    as (dropped & started & rest & Hsplit & _ & _ & _ & _ & _ & _ & _
        & H5 & _ & (extra & H7) & _).
  split.
  - unfold fetchCount in *. rewrite H5, E3, count_occ_app, Hcount.
    rewrite (proj1 (count_occ_not_In string_dec started u)); [lia|].
    intros H. apply Hq. rewrite <- E1, Hsplit.
    apply in_or_app. right. apply in_or_app. now left.
  - exists extra. now rewrite H7, E7, app_assoc.
Qed.

End TextureManagerFacts.

(** ** Chunk offsets, keys and the numeric helpers *)

Module OffsetFacts.
Import Constants Notions.
Open Scope Z_scope.

Lemma flat_map_length_const {A B} (f : A -> list B) (k : nat) (l : list A) :
  (forall x, In x l -> List.length (f x) = k) ->
  List.length (flat_map f l) = (List.length l * k)%nat.
Proof.
  induction l as [|a l IH]; intros H; simpl; [reflexivity|].
  rewrite length_app, (H a (or_introl eq_refl)), IH; [reflexivity|].
  intros x Hx. apply H. now right.
Qed.

Lemma flat_map_ext_In {A B} (f g : A -> list B) (l : list A) :
  (forall x, In x l -> f x = g x) -> flat_map f l = flat_map g l.
Proof.
  induction l as [|a l IH]; intros H; simpl; [reflexivity|].
  rewrite (H a (or_introl eq_refl)), IH; [reflexivity|].
  intros x Hx. apply H. now right.
Qed.

Lemma flat_map_singletons {A B} (f : A -> list B) (g : A -> B) (l : list A) :
  (forall x, In x l -> f x = [g x]) -> flat_map f l = map g l.
Proof.
  induction l as [|a l IH]; intros H; simpl; [reflexivity|].
  rewrite (H a (or_introl eq_refl)), IH; [reflexivity|].
  intros x Hx. apply H. now right.
Qed.

Lemma range_length (n : nat) : forall lo, List.length (range lo n) = n.
Proof. induction n; intros lo; simpl; [reflexivity|now rewrite IHn]. Qed.

Lemma offsetLoop_length (m : Z) :
  List.length (offsetLoop m) = Z.to_nat ((2 * m + 1) ^ 3).
Proof.
  unfold offsetLoop.
  set (n := Z.to_nat (2 * m + 1)).
  assert (Hn : List.length (loopRange m) = n) by apply range_length.
  rewrite (flat_map_length_const _ (n * n)%nat).
  - rewrite Hn. subst n.
    destruct (Z.le_gt_cases 0 (2 * m + 1)) as [H|H].
    + replace ((2 * m + 1) ^ 3) with ((2 * m + 1) * ((2 * m + 1) * (2 * m + 1)))
        by ring.
      rewrite !Z2Nat.inj_mul by nia. reflexivity.
    + replace ((2 * m + 1) ^ 3) with ((2 * m + 1) * ((2 * m + 1) * (2 * m + 1)))
        by ring.
      assert (E0 : Z.to_nat (2 * m + 1) = 0%nat) by lia.
      assert (E1 : (2 * m + 1) * ((2 * m + 1) * (2 * m + 1)) <= 0) by nia.
      set (c := (2 * m + 1) * ((2 * m + 1) * (2 * m + 1))) in *.
      rewrite E0. lia.
  - intros x Hx.
    rewrite (flat_map_length_const _ n); [rewrite Hn; reflexivity|].
    intros y Hy.
    rewrite (flat_map_length_const _ 1%nat); [rewrite Hn; lia|].
    intros z Hz.
    pose proof (proj1 (ConstantsFacts.loopRange_In m x) Hx).
    pose proof (proj1 (ConstantsFacts.loopRange_In m y) Hy).
    pose proof (proj1 (ConstantsFacts.loopRange_In m z) Hz).
    assert (E : (chebyshev (mkOffset x y z) <=? m) = true).
    { apply Z.leb_le. unfold chebyshev. cbn [dx dy dz]. lia. }
    cbv zeta. rewrite E. reflexivity.
Qed.

Lemma chebyshev_zero (o : ChunkOffset) :
  chebyshev o <= 0 -> o = mkOffset 0 0 0.
Proof.
  destruct o as [a b c]. unfold chebyshev. simpl. intros H.
  f_equal; lia.
Qed.

Lemma preload_In (o : ChunkOffset) :
  In o PRELOAD_CHUNK_OFFSETS <->
  RENDER_DISTANCE + CHUNK_FADE_MARGIN < chebyshev o <= PRELOAD_DISTANCE.
Proof.
  unfold PRELOAD_CHUNK_OFFSETS. rewrite filter_In.
  rewrite ConstantsFacts.computeChunkOffsets_In, Z.ltb_lt. tauto.
Qed.

Lemma computeChunkOffsets_length (m : Z) :
  List.length (computeChunkOffsets m) = Z.to_nat ((2 * m + 1) ^ 3).
Proof.
  rewrite (Permutation_length (ConstantsFacts.computeChunkOffsets_perm m)).
  apply offsetLoop_length.
Qed.

Lemma active_In (o : ChunkOffset) :
  In o CHUNK_OFFSETS <-> chebyshev o <= RENDER_DISTANCE + CHUNK_FADE_MARGIN.
Proof.
  unfold CHUNK_OFFSETS. apply ConstantsFacts.computeChunkOffsets_In.
Qed.

Lemma active_NoDup : NoDup CHUNK_OFFSETS.
Proof.
  unfold CHUNK_OFFSETS. apply ConstantsFacts.computeChunkOffsets_NoDup.
Qed.

Lemma active_length : List.length CHUNK_OFFSETS = 343%nat.
Proof.
  unfold CHUNK_OFFSETS. rewrite computeChunkOffsets_length. reflexivity.
Qed.

Lemma preload_NoDup : NoDup PRELOAD_CHUNK_OFFSETS.
Proof.
  apply NoDup_filter, ConstantsFacts.computeChunkOffsets_NoDup.
Qed.

Lemma ring_partition :
  Permutation (CHUNK_OFFSETS ++ PRELOAD_CHUNK_OFFSETS)
              (computeChunkOffsets PRELOAD_DISTANCE).
Proof.
  apply NoDup_Permutation.
  - apply NoDup_app.
    + apply active_NoDup.
    + apply preload_NoDup.
    + intros o H1 H2.
      pose proof (proj1 (preload_In o) H2).
      pose proof (proj1 (active_In o) H1).
      lia.
  - apply ConstantsFacts.computeChunkOffsets_NoDup.
  - intros o.
    pose proof (preload_In o) as Hp.
    pose proof (active_In o) as Ha.
    pose proof (ConstantsFacts.computeChunkOffsets_In PRELOAD_DISTANCE o)
      as Hc.
    rewrite in_app_iff, Hp, Ha, Hc.
    unfold RENDER_DISTANCE, CHUNK_FADE_MARGIN, PRELOAD_DISTANCE. lia.
Qed.

Lemma preload_length : List.length PRELOAD_CHUNK_OFFSETS = 386%nat.
Proof.
  pose proof (Permutation_length ring_partition) as H.
  rewrite length_app in H.
  pose proof (computeChunkOffsets_length PRELOAD_DISTANCE) as Hc.
  rewrite active_length, Hc in H.
  change (Z.to_nat ((2 * PRELOAD_DISTANCE + 1) ^ 3)) with 729%nat in H.
  lia.
Qed.

Lemma computeChunkOffsets_hd (m : Z) :
  0 <= m -> hd_error (computeChunkOffsets m) = Some (mkOffset 0 0 0).
Proof.
  intros Hm.
  pose proof (ConstantsFacts.computeChunkOffsets_sorted m) as Hs.
  assert (Hin : In (mkOffset 0 0 0) (computeChunkOffsets m)).
  { apply ConstantsFacts.computeChunkOffsets_In.
    unfold chebyshev. simpl. lia. }
  destruct (computeChunkOffsets m) as [|h l]; [destruct Hin|].
  simpl. f_equal. apply chebyshev_zero.
  destruct Hin as [->|Hin]; [unfold chebyshev; simpl; lia|].
  apply StronglySorted_inv in Hs as [_ Hs].
  rewrite Forall_forall in Hs. apply (Hs _ Hin).
Qed.

Lemma active_hd : hd_error CHUNK_OFFSETS = Some (mkOffset 0 0 0).
Proof.
  unfold CHUNK_OFFSETS. apply computeChunkOffsets_hd.
  unfold RENDER_DISTANCE, CHUNK_FADE_MARGIN. lia.
Qed.

(** X1.  [computeChunkOffsets(maxDist)] lists every offset of the cube of
    half-width [maxDist] exactly once, the nearest first: it has
    [(2 maxDist + 1)^3] entries (none for a negative [maxDist]; the
    distance test inside the loops never rejects), and for a non-negative
    [maxDist] its first entry is the offset (0, 0, 0). *)
Theorem computeChunkOffsets_cube :
  forall m : Z,
    (forall o, In o (computeChunkOffsets m) <-> chebyshev o <= m)
    /\ NoDup (computeChunkOffsets m)
    /\ StronglySorted (fun a b => chebyshev a <= chebyshev b)
                      (computeChunkOffsets m)
    /\ List.length (computeChunkOffsets m) = Z.to_nat ((2 * m + 1) ^ 3)
    /\ computeChunkOffsets m = JsArray.sortBy
                                 (fun a b => chebyshev a <? chebyshev b)
                                 (flat_map (fun x =>
                                    flat_map (fun y =>
                                      map (fun z => mkOffset x y z)
                                          (loopRange m))
                                      (loopRange m))
                                    (loopRange m))
    /\ hd_error (computeChunkOffsets (Z.abs m)) = Some (mkOffset 0 0 0).
Proof.
  intros m. split; [|split; [|split; [|split; [|split]]]].
  - apply ConstantsFacts.computeChunkOffsets_In.
  - apply ConstantsFacts.computeChunkOffsets_NoDup.
  - apply ConstantsFacts.computeChunkOffsets_sorted.
  - apply computeChunkOffsets_length.
  - unfold computeChunkOffsets, offsetLoop. f_equal.
    apply flat_map_ext_In. intros x Hx.
    apply flat_map_ext_In. intros y Hy.
    apply flat_map_singletons. intros z Hz.
    pose proof (proj1 (ConstantsFacts.loopRange_In m x) Hx).
    pose proof (proj1 (ConstantsFacts.loopRange_In m y) Hy).
    pose proof (proj1 (ConstantsFacts.loopRange_In m z) Hz).
    assert (E : (chebyshev (mkOffset x y z) <=? m) = true).
    { apply Z.leb_le. unfold chebyshev. cbn [dx dy dz]. lia. }
    cbv zeta. rewrite E. reflexivity.
  - apply computeChunkOffsets_hd. lia.
Qed.

(** X2.  [PRELOAD_CHUNK_OFFSETS] is the shell between the active cube and
    the preload cube: the offsets at distance 4, each once, none of them
    in [CHUNK_OFFSETS]; the two lists together are the preload cube, of
    343 + 386 = 729 offsets. *)
Theorem preload_offsets_shell :
  (forall o, In o PRELOAD_CHUNK_OFFSETS <->
             RENDER_DISTANCE + CHUNK_FADE_MARGIN < chebyshev o
                                                <= PRELOAD_DISTANCE)
  /\ (forall o, In o PRELOAD_CHUNK_OFFSETS <-> chebyshev o = 4)
  /\ NoDup PRELOAD_CHUNK_OFFSETS
  /\ (forall o, In o PRELOAD_CHUNK_OFFSETS -> ~ In o CHUNK_OFFSETS)
  /\ Permutation (CHUNK_OFFSETS ++ PRELOAD_CHUNK_OFFSETS)
                 (computeChunkOffsets PRELOAD_DISTANCE)
  /\ List.length CHUNK_OFFSETS = 343%nat
  /\ List.length PRELOAD_CHUNK_OFFSETS = 386%nat.
Proof.
  split; [|split; [|split; [|split; [|split; [|split]]]]].
  - apply preload_In.
  - intros o. pose proof (preload_In o) as Hp. rewrite Hp.
    unfold RENDER_DISTANCE, CHUNK_FADE_MARGIN, PRELOAD_DISTANCE. lia.
  - apply preload_NoDup.
  - intros o H1 H2.
    pose proof (proj1 (preload_In o) H1).
    pose proof (proj1 (active_In o) H2).
    lia.
  - apply ring_partition.
  - apply active_length.
  - apply preload_length.
Qed.

End OffsetFacts.

Module UtilsFacts.
Import Utils Constants ChunkUtils Notions.

Lemma clamp_cases (value lo hi : Q) :
  (lo <= hi ->
   (value < lo /\ clamp value lo hi == lo)
   \/ (lo <= value <= hi /\ clamp value lo hi == value)
   \/ (hi < value /\ clamp value lo hi == hi))%Q.
Proof.
  unfold clamp. intros H.
  destruct (Q.max_spec value lo) as [[H1 E1]|[H1 E1]];
    destruct (Q.min_spec (Qmax value lo) hi) as [[H2 E2]|[H2 E2]];
    rewrite E1 in H2; rewrite E2; try rewrite E1.
  - left. split; [lra|reflexivity].
  - left. split; [lra|]. lra.
  - destruct (Qlt_le_dec value lo).
    + left. split; lra.
    + right. left. split; [lra|reflexivity].
  - destruct (Qlt_le_dec hi value).
    + right. right. split; [lra|reflexivity].
    + right. left. split; lra.
Qed.

Lemma clamp_bounds (value lo hi : Q) :
  (lo <= hi -> lo <= clamp value lo hi <= hi)%Q.
Proof.
  intros H. destruct (clamp_cases value lo hi H) as [[? E]|[[? E]|[? E]]];
    rewrite E; lra.
Qed.

(** X3.  [clamp(value, min, max)] never exceeds [max]; for [min <= max]
    it lies in the interval, is the identity on it and saturates outside;
    for [min > max] it is [max] whatever the value. *)
Theorem clamp_saturates :
  forall value lo hi : Q,
    (clamp value lo hi <= hi
     /\ (lo <= hi -> lo <= clamp value lo hi)
     /\ (lo <= value <= hi -> clamp value lo hi == value)
     /\ (lo <= hi -> value <= lo -> clamp value lo hi == lo)
     /\ (hi <= value -> clamp value lo hi == hi)
     /\ (hi < lo -> clamp value lo hi == hi)
     /\ clamp (clamp value lo hi) lo hi == clamp value lo hi)%Q.
Proof.
  intros value lo hi.
  assert (Hle : (clamp value lo hi <= hi)%Q) by apply Q.le_min_r.
  assert (Hhi : (hi <= Qmax value lo -> clamp value lo hi == hi)%Q).
  { intros H. unfold clamp. now apply Q.min_r. }
  split; [exact Hle|]. split; [|split; [|split; [|split; [|split]]]].
  - intros H. now apply clamp_bounds.
  - intros [H1 H2]. unfold clamp.
    rewrite (Q.max_l value lo H1). now apply Q.min_l.
  - intros H H1. unfold clamp.
    rewrite (Q.max_r value lo H1). now apply Q.min_l.
  - intros H. apply Hhi.
    apply Qle_trans with value; [exact H|apply Q.le_max_l].
  - intros H. apply Hhi.
    apply Qle_trans with lo; [lra|apply Q.le_max_r].
  - destruct (Qlt_le_dec hi lo) as [H|H].
    + assert (Hlt : forall w, clamp w lo hi == hi).
      { intros w. unfold clamp. apply Q.min_r.
        apply Qle_trans with lo; [lra|apply Q.le_max_r]. }
      apply Qeq_trans with hi; [apply Hlt|symmetry; apply Hlt].
    + pose proof (clamp_bounds value lo hi H) as [H1 H2].
      unfold clamp at 1.
      rewrite (Q.max_l _ lo H1). now apply Q.min_l.
Qed.

(** X5.  [seededRandom] returns a number in [0, 1) for every seed, and
    [hashString] an unsigned 32-bit integer for every string, 5381 for
    the empty one. *)
Theorem utils_ranges :
  (forall seed : Z, (0 <= seededRandom seed < 1)%R)
  /\ (forall str : string, (0 <= hashString str < 2 ^ 32)%Z)
  /\ hashString "" = 5381%Z.
Proof.
  split; [apply GeneratorFacts.seededRandom_range|].
  split; [apply GeneratorFacts.hashString_range|reflexivity].
Qed.

Open Scope string_scope.

Lemma numberToString_shape (z : Z) :
  exists c t, numberToString z = String c t /\ ~ occurs "-"%char t.
Proof.
  assert (Hd : forall d, ~ occurs "-"%char (NilEmpty.string_of_uint d)).
  { intros d H. apply ChunkKeyFacts.uint_digits in H.
    unfold isDigit in H. simpl in H.
    repeat (destruct H as [H|H]; [discriminate|]). exact H. }
  assert (Hu : forall d, exists c t,
               NilZero.string_of_uint d = String c t
               /\ ~ occurs "-"%char t).
  { intros d. unfold NilZero.string_of_uint.
    destruct d; try (eexists; eexists; split; [reflexivity|]; simpl; tauto);
      (eexists; eexists; split; [reflexivity|]; apply Hd). }
  unfold numberToString, NilZero.string_of_int.
  destruct (Z.to_int z) as [d|d].
  - apply Hu.
  - exists "-"%char, (NilZero.string_of_uint d). split; [reflexivity|].
    destruct (Hu d) as (c & t & E & Ht). rewrite E. simpl.
    intros [H|H]; [|tauto].
    assert (Hc : occurs c (NilZero.string_of_uint d))
      by (rewrite E; simpl; now left).
    unfold NilZero.string_of_uint in Hc.
    assert (Hdig : isDigit c).
    { destruct d; try (now apply ChunkKeyFacts.uint_digits in Hc).
      simpl in Hc. destruct Hc as [<-|[]]. unfold isDigit. simpl. tauto. }
    subst c. unfold isDigit in Hdig. simpl in Hdig.
    repeat (destruct Hdig as [Hdig|Hdig]; [discriminate|]). exact Hdig.
Qed.

Lemma split_at_number (a b : Z) (r1 r2 : string) :
  numberToString a ++ String "-"%char r1
  = numberToString b ++ String "-"%char r2 ->
  a = b /\ r1 = r2.
Proof.
  destruct (numberToString_shape a) as (c & t & Ea & Ha).
  destruct (numberToString_shape b) as (c' & t' & Eb & Hb).
  intros E. rewrite Ea, Eb in E. simpl in E. injection E as -> E.
  apply ChunkKeyFacts.split_at_separator in E as [-> ->]; auto.
  split; [|reflexivity].
  apply ChunkKeyFacts.numberToString_inj. now rewrite Ea, Eb.
Qed.

(** X6.  The key [`${cx},${cy},${cz}`] of the plane cache and of the
    chunk list names one chunk only, and is never the empty string. *)
Theorem chunkKey_names_one_chunk :
  forall x y z x' y' z' : Z,
    (chunkKey x y z = chunkKey x' y' z' <-> (x, y, z) = (x', y', z'))
    /\ chunkKey x y z <> "".
Proof.
  intros. split; [split|].
  - intros E. apply ChunkKeyFacts.chunkKey_inj in E as (-> & -> & ->).
    reflexivity.
  - now intros [= -> -> ->].
  - apply ChunkKeyFacts.chunkKey_nonempty.
Qed.

(** X7.  The plane id [`${cx}-${cy}-${cz}-${i}`], the React key of a
    plane, is unique over chunks and plane numbers, negative coordinates
    included; so the planes of a chunk carry pairwise distinct ids. *)
Theorem planeId_unique :
  forall (x y z x' y' z' : Z) (i i' : nat),
    (planeId x y z i = planeId x' y' z' i' <->
     (x, y, z, i) = (x', y', z', i'))
    /\ NoDup (map plane_id (generateChunkPlanes x y z)).
Proof.
  assert (Hinj : forall x y z x' y' z' i i',
             planeId x y z i = planeId x' y' z' i' ->
             (x, y, z, i) = (x', y', z', i')).
  { intros x y z x' y' z' i i'. unfold planeId. cbn [append]. intros E.
    apply split_at_number in E as [-> E].
    apply split_at_number in E as [-> E].
    apply split_at_number in E as [-> E].
    apply ChunkKeyFacts.numberToString_inj in E.
    apply Nat2Z.inj in E. now subst. }
  intros. split; [split|].
  - apply Hinj.
  - now intros [= -> -> -> ->].
  - unfold generateChunkPlanes. rewrite map_map. cbn [plane_id generatePlane].
    apply Finite.Injective_map_NoDup; [|apply seq_NoDup].
    intros a b E. apply Hinj in E. now injection E.
Qed.

End UtilsFacts.

(** ** The fade animator over arbitrary call sequences *)

Module FadeReachFacts.
Import FadeManager Notions JsMap FadeManagerFacts.
Open Scope nat_scope.

Lemma advance_bounded (e : FadeEntry) : bounded e -> bounded (advance e).
Proof.
  unfold bounded, advance, FADE_IN_SPEED, FADE_OUT_SPEED. cbn [imageOpacity placeholderOpacity].
  intros [[H1 H2] [H3 H4]].
  destruct (Q.min_spec 1 (imageOpacity e + 0.08)) as [[? E1]|[? E1]];
    destruct (Q.max_spec 0 (placeholderOpacity e - 0.1)) as [[? E2]|[? E2]];
    rewrite E1, E2; repeat split; lra.
Qed.

Lemma paint_opacity (e : FadeEntry) (sc : Scene) (h : nat) :
  opacity (materials (paint e sc) h) = imageOpacity e
  \/ opacity (materials (paint e sc) h) = placeholderOpacity e
  \/ opacity (materials (paint e sc) h) = opacity (materials sc h).
Proof.
  unfold paint, setOpacity, setVisible, setDepthWrite, update.
  cbn [materials visible opacity depthWrite].
  destruct (Nat.eqb h (imageMaterial e)) eqn:E1;
    destruct (Nat.eqb h (placeholderMaterial e)) eqn:E2;
    cbn [opacity];
    rewrite ?Nat.eqb_refl;
    destruct (Nat.eqb (imageMaterial e) (placeholderMaterial e)) eqn:E3;
    cbn [opacity]; auto.
Qed.

Lemma painted_opacity (fades : JsMap.t FadeEntry) :
  forall sc,
    (forall p, In p fades -> bounded (snd p)) ->
    (forall h, (0 <= opacity (materials sc h) <= 1)%Q) ->
    forall h, (0 <= opacity (materials (painted fades sc) h) <= 1)%Q.
Proof.
  unfold painted.
  induction fades as [|p fades IH]; intros sc Hb Hsc h; [apply Hsc|].
  cbn [fold_left]. apply IH; [intros q Hq; apply Hb; now right|].
  intros h'.
  pose proof (advance_bounded (snd p) (Hb p (or_introl eq_refl)))
    as [Hi Hp].
  destruct (paint_opacity (advance (snd p)) sc h') as [E|[E|E]];
    rewrite E; auto.
Qed.

Lemma initial_steady : steady initialState.
Proof.
  split; [split; [constructor|reflexivity]|].
  split; [intros H; now destruct H|].
  split; [intros p []|].
  intros h. cbn. split; discriminate.
Qed.

Lemma startFade_scene (s : State) (id : string) (im pm imesh pmesh : nat) :
  scene (startFade id im pm imesh pmesh s) = scene s.
Proof. unfold startFade. cbn. destruct (isAnimating s); reflexivity. Qed.

Lemma startFade_steady (s : State) (id : string) (im pm imesh pmesh : nat) :
  steady s -> steady (startFade id im pm imesh pmesh s).
Proof.
  intros (Hwf & Hrun & Hb & Hsc).
  destruct (startFade_synced s id im pm imesh pmesh Hwf)
    as ([Hwf' Hsy] & Hget & Hother).
  split; [exact Hwf'|]. split; [apply Hsy|]. split.
  - intros [id' e'] Hin. cbn [snd].
    destruct (string_dec id' id) as [->|Hne].
    + apply In_get in Hin; [|apply Hwf'].
      rewrite Hget in Hin. injection Hin as <-.
      unfold bounded. cbn. repeat split; discriminate.
    + apply (Hb (id', e')). now apply Hother.
  - intros h. rewrite startFade_scene. apply Hsc.
Qed.

Lemma In_delete (m : JsMap.t FadeEntry) (k : string) p :
  In p (delete k m) -> In p m.
Proof. unfold delete. rewrite filter_In. tauto. Qed.

Lemma delete_NoDup (m : JsMap.t FadeEntry) (k : string) :
  NoDup (keys m) -> NoDup (keys (delete k m)).
Proof.
  intros H. rewrite JsMapFacts.keys_delete. now apply LruFacts.remove_NoDup.
Qed.

Lemma delete_absent (m : JsMap.t FadeEntry) (k : string) :
  get k m = None -> delete k m = m.
Proof.
  induction m as [|[k' v] m IH]; [reflexivity|].
  cbn [get delete filter fst]. destruct (String.eqb k k') eqn:E;
    [discriminate|].
  intros H. cbn [negb]. f_equal. now apply IH.
Qed.

Lemma removeFade_steady (s : State) (id : string) :
  steady s -> steady (removeFade id s).
Proof.
  intros ([Hnd Hs] & Hrun & Hb & Hsc).
  split; [split; [now apply delete_NoDup|exact Hs]|].
  split; [|split; [|exact Hsc]].
  - cbn. intros H. apply Hrun. intros E. apply H. now rewrite E.
  - intros p Hin. apply Hb. now apply In_delete in Hin.
Qed.

Lemma stopAllFades_shape (s : State) :
  wellFormed s ->
  stopAllFades s = mkState [] false None [] (nextFrameId s) (scene s).
Proof.
  intros [_ Hs]. unfold stopAllFades.
  destruct (isAnimating s).
  - destruct Hs as (i & -> & ->). cbn. now rewrite Nat.eqb_refl.
  - rewrite Hs. destruct (animationFrameId s); reflexivity.
Qed.

Lemma stopAllFades_steady (s : State) : steady s -> steady (stopAllFades s).
Proof.
  intros (Hwf & _ & _ & Hsc). rewrite (stopAllFades_shape s Hwf).
  split; [split; [constructor|reflexivity]|].
  split; [intros H; now destruct H|].
  split; [intros p []|exact Hsc].
Qed.

Lemma steady_idle (s : State) :
  steady s -> isAnimating s = false ->
  activeFades s = [] /\ scheduled s = [].
Proof.
  intros ([_ Hs] & Hrun & _) Ha. rewrite Ha in Hs. split; [|exact Hs].
  destruct (activeFades s); [reflexivity|].
  rewrite Hrun in Ha; discriminate.
Qed.

Lemma tick_steady (s : State) : steady s -> steady (tick s).
Proof.
  intros Hst. pose proof Hst as (Hwf & Hrun & Hb & Hsc).
  destruct (isAnimating s) eqn:Ha.
  - destruct Hwf as [Hnd Hs]. rewrite Ha in Hs.
    destruct Hs as (i & Hs & Hid).
    destruct (tick_running s i Ha Hs) as (Hf & Hscene & He & Hn).
    split; [apply tick_wellFormed, Hst|].
    split; [|split].
    + intros H. rewrite Hf in H. now apply Hn.
    + rewrite Hf. intros [id e'] Hin.
      apply In_survivors in Hin as (e & Hin & ->).
      apply advance_bounded, (Hb (id, e) Hin).
    + rewrite Hscene. now apply painted_opacity.
  - destruct (steady_idle s Hst Ha) as [_ Hs].
    now rewrite (tick_idle s Hs).
Qed.

Lemma step_steady (s : State) (ev : Event) : steady s -> steady (step s ev).
Proof.
  destruct ev; cbn [step].
  - apply startFade_steady.
  - apply removeFade_steady.
  - apply stopAllFades_steady.
  - apply tick_steady.
Qed.

Lemma run_steady (evs : list Event) :
  forall s, steady s -> steady (run evs s).
Proof.
  unfold run. induction evs as [|ev evs IH]; intros s H; [exact H|].
  cbn [fold_left]. apply IH. now apply step_steady.
Qed.

Lemma ticks_steady (n : nat) : forall s, steady s -> steady (ticks n s).
Proof.
  induction n as [|n IH]; intros s H; [exact H|].
  cbn [ticks]. apply IH. now apply tick_steady.
Qed.

Lemma succ_inject (n : nat) :
  (inject_Z (Z.of_nat (S n)) == inject_Z (Z.of_nat n) + 1)%Q.
Proof.
  rewrite Nat2Z.inj_succ. unfold Z.succ. rewrite inject_Z_plus. reflexivity.
Qed.

Lemma faded_advance (n : nat) (e : FadeEntry) :
  faded n e -> faded (S n) (advance e).
Proof.
  unfold faded, advance, FADE_IN_SPEED, FADE_OUT_SPEED.
  cbn [imageOpacity placeholderOpacity].
  rewrite (succ_inject n). set (q := inject_Z (Z.of_nat n)).
  intros [H1 H2].
  destruct (Q.min_spec 1 (q * 0.08)) as [[? E1]|[? E1]];
    rewrite E1 in H1;
    destruct (Q.max_spec 0 (1 - q * 0.1)) as [[? E2]|[? E2]];
    rewrite E2 in H2;
    destruct (Q.min_spec 1 ((q + 1) * 0.08)) as [[? E3]|[? E3]];
    rewrite E3;
    destruct (Q.max_spec 0 (1 - (q + 1) * 0.1)) as [[? E4]|[? E4]];
    rewrite E4;
    destruct (Q.min_spec 1 (imageOpacity e + 0.08)) as [[? E5]|[? E5]];
    rewrite E5;
    destruct (Q.max_spec 0 (placeholderOpacity e - 0.1)) as [[? E6]|[? E6]];
    rewrite E6; split; lra.
Qed.

Lemma bounded_faded (e : FadeEntry) : bounded e -> faded 0 e.
Proof.
  unfold bounded, faded, FADE_IN_SPEED, FADE_OUT_SPEED.
  intros [[H1 _] [_ H2]]. split.
  - apply Qle_trans with 0%Q; [|exact H1]. vm_compute. discriminate.
  - apply Qle_trans with 1%Q; [exact H2|]. vm_compute. discriminate.
Qed.

Lemma faded_complete (e : FadeEntry) : faded 13 e -> complete e = true.
Proof.
  unfold faded, complete, FADE_IN_SPEED, FADE_OUT_SPEED. intros [H1 H2].
  apply andb_true_intro. split; apply Qle_bool_iff.
  - apply Qle_trans with (Qmin 1 (inject_Z (Z.of_nat 13) * 0.08)); [|exact H1].
    vm_compute. discriminate.
  - apply Qle_trans with (Qmax 0 (1 - inject_Z (Z.of_nat 13) * 0.1));
      [exact H2|].
    vm_compute. discriminate.
Qed.

Lemma tick_faded (n : nat) (s : State) :
  steady s ->
  (forall p, In p (activeFades s) -> faded n (snd p)) ->
  forall p, In p (activeFades (tick s)) ->
            faded (S n) (snd p) /\ complete (snd p) = false.
Proof.
  intros Hst Hf [id e'] Hin. pose proof Hst as ([Hnd Hs] & _).
  destruct (isAnimating s) eqn:Ha.
  - destruct Hs as (i & Hs & _).
    destruct (tick_running s i Ha Hs) as (Hfades & _).
    rewrite Hfades in Hin. cbn [snd]. split.
    + apply In_survivors in Hin as (e & Hin & ->).
      apply faded_advance, (Hf (id, e) Hin).
    + apply In_get in Hin; [|now apply survivors_NoDup].
      rewrite (get_survivors _ id Hnd) in Hin.
      destruct (get id (activeFades s)) as [e|]; [|discriminate].
      destruct (complete (advance e)) eqn:Ec; [discriminate|].
      injection Hin as <-. exact Ec.
  - destruct (steady_idle s Hst Ha) as [Hnil Hsch].
    rewrite (tick_idle s Hsch), Hnil in Hin. destruct Hin.
Qed.

Lemma ticks_faded (n : nat) :
  forall s, steady s ->
            forall p, In p (activeFades (ticks n s)) -> faded n (snd p).
Proof.
  induction n as [|n IH]; intros s Hst p Hin.
  - apply bounded_faded. destruct Hst as (_ & _ & Hb & _). now apply Hb.
  - rewrite ticks_S in Hin.
    apply (tick_faded n (ticks n s)); [now apply ticks_steady| |exact Hin].
    intros q Hq. exact (IH s Hst q Hq).
Qed.

Lemma drained (s : State) :
  steady s ->
  activeFades (ticks 13 s) = []
  /\ isAnimating (ticks 13 s) = false
  /\ scheduled (ticks 13 s) = [].
Proof.
  intros Hst.
  assert (Hnil : activeFades (ticks 13 s) = []).
  { destruct (activeFades (ticks 13 s)) as [|p l] eqn:E; [reflexivity|].
    assert (Hin : In p (activeFades (ticks 13 s))) by (rewrite E; now left).
    pose proof (ticks_faded 13 s Hst p Hin) as Hf.
    apply faded_complete in Hf.
    rewrite ticks_S in Hin.
    destruct (tick_faded 12 (ticks 12 s) (ticks_steady 12 s Hst)
                         (ticks_faded 12 s Hst) p Hin) as [_ Hc].
    congruence. }
  split; [exact Hnil|].
  pose proof (ticks_steady 13 s Hst) as ([_ Hs] & Hrun & _).
  destruct (isAnimating (ticks 13 s)) eqn:Ha.
  - exfalso. rewrite ticks_S in Hnil, Ha.
    pose proof (ticks_steady 12 s Hst) as Hst12.
    destruct (isAnimating (ticks 12 s)) eqn:Ha12.
    + pose proof Hst12 as ([_ Hs12] & _). rewrite Ha12 in Hs12.
      destruct Hs12 as (i & Hs12 & _).
      destruct (tick_running _ i Ha12 Hs12) as (Hf & _ & He & _).
      rewrite Hf in Hnil. destruct (He Hnil) as [Hfalse _]. congruence.
    + destruct (steady_idle _ Hst12 Ha12) as [_ Hsch].
      rewrite (tick_idle _ Hsch) in Ha. congruence.
  - split; [reflexivity|exact Hs].
Qed.

(** X8.  Whatever sequence of [startFade], [removeFade], [stopAllFades]
    calls and animation frames has happened: the entry ids are unique; a
    frame callback is pending exactly while [isAnimating] is set, and
    then exactly one, the one [animationFrameId] names; [getFadeStats]
    never reports tracked fades with the animator stopped; tracked and
    painted opacities are within [0, 1]. *)
Theorem fade_manager_invariants :
  forall evs : list Event,
    let s := run evs initialState in
    NoDup (keys (activeFades s))
    /\ (isAnimating s = true ->
        exists i, scheduled s = [i] /\ animationFrameId s = Some i)
    /\ (isAnimating s = false -> scheduled s = [])
    /\ (0 < fst (getFadeStats s) -> snd (getFadeStats s) = true)
    /\ (forall id e, get id (activeFades s) = Some e ->
          (0 <= imageOpacity e <= 1 /\ 0 <= placeholderOpacity e <= 1)%Q)
    /\ (forall h, (0 <= opacity (materials (scene s) h) <= 1)%Q).
Proof.
  intros evs s.
  pose proof (run_steady evs initialState initial_steady)
    as ([Hnd Hs] & Hrun & Hb & Hsc).
  fold s in Hnd, Hs, Hrun, Hb, Hsc.
  split; [exact Hnd|]. split; [|split; [|split; [|split]]].
  - intros Ha. now rewrite Ha in Hs.
  - intros Ha. now rewrite Ha in Hs.
  - unfold getFadeStats, size. cbn [fst snd]. intros Hlen. apply Hrun.
    intros E. rewrite E in Hlen. cbn in Hlen. lia.
  - intros id e Hget. apply JsMapFacts.get_In in Hget.
    apply (Hb (id, e) Hget).
  - exact Hsc.
Qed.

(** X9.  From any state the calls and frames can produce, [fadeInTicks]
    frames without a new call drain the animator: no entry is left, the
    loop has stopped with no frame callback pending, and further frames
    change nothing. *)
Theorem fades_drain_within_fadeInTicks :
  forall evs : list Event,
    let s := ticks fadeInTicks (run evs initialState) in
    activeFades s = []
    /\ isAnimating s = false
    /\ scheduled s = []
    /\ getFadeStats s = (0, false)
    /\ forall j, ticks j s = s.
Proof.
  intros evs. rewrite fadeInTicks_value. intros s.
  destruct (drained (run evs initialState)
                    (run_steady evs initialState initial_steady))
    as (Hnil & Ha & Hs).
  fold s in Hnil, Ha, Hs.
  split; [exact Hnil|]. split; [exact Ha|]. split; [exact Hs|].
  split; [unfold getFadeStats; now rewrite Hnil, Ha|].
  intros j. now apply ticks_idle.
Qed.

(** X10.  [removeFade(id)] forgets the entry of [id] and nothing else:
    the other entries, the scene and the pending frame are untouched, an
    unknown id changes nothing, and the next frame advances the other
    entries as it would have done; when [id] was the only entry, that
    frame stops the animator without painting. *)
Theorem removeFade_forgets_entry :
  forall (evs : list Event) (id : string),
    let s := run evs initialState in
    get id (activeFades (removeFade id s)) = None
    /\ (forall id', id' <> id ->
          get id' (activeFades (removeFade id s)) = get id' (activeFades s)
          /\ get id' (activeFades (tick (removeFade id s)))
             = get id' (activeFades (tick s)))
    /\ scene (removeFade id s) = scene s
    /\ scheduled (removeFade id s) = scheduled s
    /\ isAnimating (removeFade id s) = isAnimating s
    /\ (get id (activeFades s) = None -> removeFade id s = s)
    /\ (keys (activeFades s) = [id] ->
        isAnimating (removeFade id s) = true
        /\ activeFades (tick (removeFade id s)) = []
        /\ isAnimating (tick (removeFade id s)) = false
        /\ scheduled (tick (removeFade id s)) = []
        /\ scene (tick (removeFade id s)) = scene s).
Proof.
  intros evs id s.
  pose proof (run_steady evs initialState initial_steady) as Hst.
  fold s in Hst.
  pose proof (removeFade_steady s id Hst) as Hst'.
  pose proof Hst as ([Hnd Hs] & Hrun & _).
  pose proof Hst' as ([Hnd' Hs'] & _).
  assert (Htick : forall id', id' <> id ->
            get id' (activeFades (tick (removeFade id s)))
            = get id' (activeFades (tick s))).
  { intros id' Hne. destruct (isAnimating s) eqn:Ha.
    - destruct Hs as (i & Hsch & _).
      destruct (tick_running s i Ha Hsch) as (-> & _).
      destruct (tick_running (removeFade id s) i Ha Hsch) as (-> & _).
      rewrite !get_survivors by assumption.
      cbn [removeFade activeFades].
      now rewrite JsMapFacts.get_delete_other.
    - rewrite (tick_idle s Hs), (tick_idle (removeFade id s) Hs).
      cbn [removeFade activeFades].
      now apply JsMapFacts.get_delete_other. }
  split; [apply JsMapFacts.get_delete_same|].
  split; [|split; [reflexivity|split; [reflexivity|split; [reflexivity|split]]]].
  - intros id' Hne. split; [|now apply Htick].
    cbn [removeFade activeFades]. now apply JsMapFacts.get_delete_other.
  - intros Hget. unfold removeFade. rewrite (delete_absent _ _ Hget).
    now destruct s.
  - intros Hk.
    assert (Hne : activeFades s <> []).
    { intros E. rewrite E in Hk. discriminate. }
    pose proof (Hrun Hne) as Ha. rewrite Ha in Hs.
    destruct Hs as (i & Hsch & _).
    assert (Hdel : activeFades (removeFade id s) = []).
    { cbn [removeFade activeFades].
      destruct (activeFades s) as [|[k e] [|q l]]; try discriminate.
      cbn in Hk. injection Hk as ->. cbn. now rewrite String.eqb_refl. }
    destruct (tick_running (removeFade id s) i Ha Hsch)
      as (Hf & Hsc & He & _).
    rewrite Hdel in Hf, Hsc, He. cbn in Hf, Hsc.
    destruct (He eq_refl) as (Hfalse & Hnone & _).
    repeat split; assumption.
Qed.

(** X11.  [stopAllFades] drops every entry, cancels the pending frame
    callback and leaves the materials as the last frame painted them;
    later frames do nothing, and a later [startFade] starts the animator
    again with one callback. *)
Theorem stopAllFades_halts :
  forall evs : list Event,
    let s := run evs initialState in
    stopAllFades s = mkState [] false None [] (nextFrameId s) (scene s)
    /\ (forall j, ticks j (stopAllFades s) = stopAllFades s)
    /\ (forall id im pm imesh pmesh,
          startFade id im pm imesh pmesh (stopAllFades s)
          = mkState [(id, mkEntry im pm imesh pmesh 0 1)] true
                    (Some (nextFrameId s)) [nextFrameId s]
                    (S (nextFrameId s)) (scene s)).
Proof.
  intros evs s.
  pose proof (run_steady evs initialState initial_steady) as (Hwf & _).
  fold s in Hwf. pose proof (stopAllFades_shape s Hwf) as E.
  split; [exact E|]. split.
  - intros j. apply ticks_idle. now rewrite E.
  - intros. rewrite E. reflexivity.
Qed.

Lemma startFade_fades (s : State) (id : string) (im pm imesh pmesh : nat) :
  activeFades (startFade id im pm imesh pmesh s)
  = JsMap.set id (mkEntry im pm imesh pmesh 0 1) (activeFades s).
Proof. unfold startFade. cbn. destruct (isAnimating s); reflexivity. Qed.

(** X25.  In any state the calls and frames can produce, [startFade(id)]
    tracks [id] with image opacity 0 and placeholder opacity 1, whether
    or not [id] was fading already (a restart keeps the entry's place in
    the map), and touches no other entry and no material.  It schedules a
    frame callback only when the animator was stopped, never a second
    one.  The next frame takes the entry to opacities FADE_IN_SPEED and
    1 - FADE_OUT_SPEED. *)
Theorem startFade_starts_or_restarts :
  forall (evs : list Event) (id : string) (im pm imesh pmesh : nat),
    let s := run evs initialState in
    let s' := startFade id im pm imesh pmesh s in
    get id (activeFades s') = Some (mkEntry im pm imesh pmesh 0 1)
    /\ (forall id', id' <> id ->
          get id' (activeFades s') = get id' (activeFades s))
    /\ (get id (activeFades s) <> None ->
        keys (activeFades s') = keys (activeFades s))
    /\ scene s' = scene s
    /\ isAnimating s' = true
    /\ (isAnimating s = true ->
        scheduled s' = scheduled s /\ animationFrameId s' = animationFrameId s)
    /\ (isAnimating s = false ->
        scheduled s' = [nextFrameId s]
        /\ animationFrameId s' = Some (nextFrameId s))
    /\ get id (activeFades (tick s'))
       = Some (mkEntry im pm imesh pmesh
                       (Qmin 1 (0 + FADE_IN_SPEED))
                       (Qmax 0 (1 - FADE_OUT_SPEED))).
Proof.
  intros evs id im pm imesh pmesh s s'.
  pose proof (run_steady evs initialState initial_steady) as Hst.
  fold s in Hst. pose proof Hst as (Hwf & _).
  pose proof (startFade_fades s id im pm imesh pmesh) as Hf. fold s' in Hf.
  destruct (startFade_synced s id im pm imesh pmesh Hwf)
    as ([[Hnd' Hs'] Hsy] & Hget & _).
  fold s' in Hnd', Hs', Hsy, Hget.
  assert (Ha' : isAnimating s' = true).
  { apply Hsy. rewrite Hf. intros E.
    pose proof (JsMapFacts.get_set_same _ id (mkEntry im pm imesh pmesh 0 1)
                  (activeFades s)) as G.
    rewrite E in G. discriminate. }
  split; [exact Hget|]. split; [|split; [|split; [|split; [|split; [|split]]]]].
  - intros id' Hne. rewrite Hf. now apply JsMapFacts.get_set_other.
  - intros Hin. rewrite Hf. apply JsMapFacts.keys_set_present.
    apply JsMapFacts.get_Some_keys.
    destruct (get id (activeFades s)) as [e|]; [now exists e|contradiction].
  - apply startFade_scene.
  - exact Ha'.
  - intros Ha. subst s'. unfold startFade. cbn. rewrite Ha. now split.
  - intros Ha. subst s'. unfold startFade. cbn. rewrite Ha. cbn.
    destruct Hwf as [_ Hs]. rewrite Ha in Hs. rewrite Hs. now split.
  - rewrite Ha' in Hs'. destruct Hs' as (i & Hsch & _).
    destruct (tick_running s' i Ha' Hsch) as (-> & _).
    rewrite (get_survivors _ id Hnd'), Hget. reflexivity.
Qed.

End FadeReachFacts.

(** ** The texture loader over arbitrary call sequences *)

Module TextureReachFacts.
Import TextureManager Notions TextureManagerFacts.
Open Scope nat_scope.

Lemma tidy_ext (s s' : State) :
  loadQueue s' = loadQueue s ->
  loadingUrls s' = loadingUrls s ->
  loadCallbacks s' = loadCallbacks s ->
  activeLoads s' = activeLoads s ->
  timers s' = timers s ->
  textureCache s' = textureCache s ->
  tidy s -> tidy s'.
Proof.
  intros E1 E2 E3 E4 E5 E6. unfold tidy, orderly, callbacksOf.
  rewrite E1, E2, E3, E4, E5, E6. tauto.
Qed.

Lemma initial_tidy : tidy initialState.
Proof.
  unfold tidy, orderly, callbacksOf. cbn.
  split; [split; [constructor|split; [tauto|intros; constructor]]|].
  split; [constructor|]. split; [reflexivity|]. split; [lia|].
  split; [reflexivity|]. split; [tauto|]. split; [discriminate|].
  intros u [[]|[]].
Qed.

Lemma call_rest (cb : Callback) (tex : Texture) (e : Effects) :
  failures (call cb tex e) = failures e
  /\ disposed (call cb tex e) = disposed e.
Proof. unfold call. now split. Qed.

Lemma callAll_rest (cbs : list Callback) (tex : Texture) :
  forall e, failures (callAll cbs tex e) = failures e
            /\ disposed (callAll cbs tex e) = disposed e.
Proof.
  unfold callAll. induction cbs as [|cb cbs IH]; intros e; [now split|].
  cbn [fold_left]. destruct (IH (call cb tex e)) as [-> ->].
  apply call_rest.
Qed.

Lemma flushCallbacks_rest (u : string) (tex : Texture) (s : State) :
  timers (flushCallbacks u tex s) = timers s
  /\ failures (effects (flushCallbacks u tex s)) = failures (effects s)
  /\ disposed (effects (flushCallbacks u tex s)) = disposed (effects s).
Proof.
  unfold flushCallbacks. simp_state. split; [reflexivity|].
  apply callAll_rest.
Qed.

Lemma afterLoop_full (s : State) :
  loadQueue s = [] \/ (activeLoads s <? MAX_CONCURRENT_LOADS) = false ->
  afterLoop s = s.
Proof.
  unfold afterLoop. intros [E|E]; rewrite E; [reflexivity|].
  now rewrite andb_false_r.
Qed.

(** [processQueue] leaves its loop only with the queue empty or the limit
    reached, so the test guarding [setTimeout] fails. *)
Lemma processQueueFrom_counters (q : list string) :
  forall s,
    timers (processQueueFrom q s) = timers s
    /\ activeLoads (processQueueFrom q s) + List.length (loadingUrls s)
       = activeLoads s + List.length (loadingUrls (processQueueFrom q s))
    /\ (activeLoads s <= MAX_CONCURRENT_LOADS ->
        activeLoads (processQueueFrom q s) <= MAX_CONCURRENT_LOADS)
    /\ failures (effects (processQueueFrom q s)) = failures (effects s)
    /\ disposed (effects (processQueueFrom q s)) = disposed (effects s).
Proof.
  induction q as [|u q IH]; intros s.
  - cbn [processQueueFrom]. rewrite afterLoop_full by now left.
    simp_state. repeat split; auto.
  - cbn [processQueueFrom].
    destruct (activeLoads s <? MAX_CONCURRENT_LOADS) eqn:Hlim.
    2:{ rewrite afterLoop_full by (right; exact Hlim).
        simp_state. repeat split; auto. }
    destruct (String.eqb u "" || JsArray.includes u (loadingUrls s));
      [apply IH|].
    destruct (readyTexture u s) as [existing|].
    + destruct (IH (flushCallbacks u existing s)) as (H1 & H2 & H3 & H4 & H5).
      destruct (flushCallbacks_frame u existing s)
        as (_ & _ & _ & F4 & F5 & _).
      destruct (flushCallbacks_rest u existing s) as (G1 & G2 & G3).
      rewrite F4, F5 in *. rewrite H1, H4, H5, G1, G2, G3.
      repeat split; auto.
    + simp_state. rewrite length_app. cbn [List.length].
      apply Nat.ltb_lt in Hlim. repeat split; lia.
Qed.

Lemma processQueueFrom_plain (q : list string) :
  forall s,
    (forall d, In d q -> readyTexture d s = None) ->
    loadCallbacks (processQueueFrom q s) = loadCallbacks s
    /\ invoked (effects (processQueueFrom q s)) = invoked (effects s)
    /\ preloads (effects (processQueueFrom q s)) = preloads (effects s).
Proof.
  induction q as [|u q IH]; intros s Hq.
  - cbn [processQueueFrom]. rewrite afterLoop_full by now left.
    now repeat split.
  - cbn [processQueueFrom].
    destruct (activeLoads s <? MAX_CONCURRENT_LOADS) eqn:Hlim.
    2:{ rewrite afterLoop_full by (right; exact Hlim). now repeat split. }
    destruct (String.eqb u "" || JsArray.includes u (loadingUrls s)).
    + apply IH. intros d Hd. apply Hq. now right.
    + rewrite (Hq u) by now left. now repeat split.
Qed.

Lemma callbacksOf_cases (w : string) (s s' : State) :
  JsMap.get w (loadCallbacks s') = JsMap.get w (loadCallbacks s)
  \/ JsMap.get w (loadCallbacks s') = None ->
  callbacksOf w s' = callbacksOf w s \/ callbacksOf w s' = [].
Proof. unfold callbacksOf. intros [->| ->]; auto. Qed.

Lemma NoDup_app_l {A} (l1 l2 : list A) : NoDup (l1 ++ l2) -> NoDup l2.
Proof. intros H. now apply LruFacts.NoDup_app_inv in H as (_ & H & _). Qed.

Lemma cached_ready (u : string) (s : State) :
  (forall v tex, JsMap.get v (textureCache s) = Some tex ->
                 tex_image tex = true) ->
  readyTexture u s = JsMap.get u (textureCache s).
Proof.
  intros H. unfold readyTexture.
  destruct (JsMap.get u (textureCache s)) as [tex|] eqn:E; [|reflexivity].
  now rewrite (H u tex E).
Qed.

Lemma processQueue_tidy (s : State) : tidy s -> tidy (processQueue s).
Proof.
  intros ((Hnd & Hdis & Hcb) & Hndl & Hact & Hlim & Htim & Hemp & Himg & Hunc).
  unfold processQueue.
  destruct (processQueueFrom_spec (loadQueue s) s)
    as (dropped & started & rest & Hq & Hlen & _ & Hst & E1 & E2 & E3 & _
        & _ & _ & _ & E8).
  destruct (processQueueFrom_counters (loadQueue s) s)
    as (C1 & C2 & C3 & _).
  set (s' := processQueueFrom (loadQueue s) s) in *.
  assert (Hsub : forall v, In v started \/ In v rest -> In v (loadQueue s)).
  { intros v Hv. rewrite Hq, !in_app_iff. tauto. }
  rewrite Hq in Hnd.
  apply LruFacts.NoDup_app_inv in Hnd as (_ & Hnd & _).
  apply LruFacts.NoDup_app_inv in Hnd as (Hnds & Hndr & Hsr).
  unfold tidy, orderly. rewrite E1, E2, E3.
  split; [split; [exact Hndr|split]|].
  - intros v Hv Hin. apply in_app_or in Hin as [Hin|Hin].
    + apply (Hdis v); auto.
    + now apply (Hsr v).
  - intros w.
    destruct (callbacksOf_cases w s s') as [->| ->];
      [destruct (E8 w) as [E|[E _]]; auto|apply Hcb|constructor].
  - split.
    { apply NoDup_app; [exact Hndl|exact Hnds|].
      intros v Hv Hin. apply (Hst v Hin). right. now left. }
    split; [rewrite length_app; rewrite E2, length_app in C2; lia|].
    split; [now apply C3|]. split; [now rewrite C1|].
    split.
    { intros Hin. apply in_app_or in Hin as [Hin|Hin]; [contradiction|].
      apply (Hst _ Hin). now left. }
    split; [exact Himg|].
    intros u Hu. apply Hunc. rewrite in_app_iff in Hu.
    destruct Hu as [[Hu|Hu]|Hu]; auto.
Qed.

Lemma getTexture_tidy (item : MediaItem) (onLoad : option Callback)
      (now : Q) (s : State) :
  tidy s -> tidy (getTexture item onLoad now s).
Proof.
  intros Ht. unfold getTexture. cbv zeta.
  set (u := url item).
  set (s1 := withLastUsed (JsMap.set u now (textureLastUsed s)) s).
  assert (Ht1 : tidy s1) by (revert Ht; now apply tidy_ext).
  change (readyTexture u s1) with (readyTexture u s).
  destruct (readyTexture u s) as [existing|] eqn:Hready.
  - destruct onLoad as [cb|]; [|exact Ht1].
    revert Ht1. now apply tidy_ext.
  - set (s2 := match onLoad with
               | Some cb =>
                   withCallbacks
                     (JsMap.set u
                        (setAdd cb match JsMap.get u (loadCallbacks s1) with
                                   | Some l => l
                                   | None => []
                                   end) (loadCallbacks s1)) s1
               | None => s1
               end).
    assert (Ht2 : tidy s2).
    { destruct onLoad as [cb|]; [|exact Ht1]. subst s2.
      destruct Ht1 as ((Hnd & Hdis & Hcb) & Hrest).
      split; [split; [exact Hnd|split; [exact Hdis|]]|exact Hrest].
      intros w. rewrite callbacksOf_set.
      destruct (string_dec w u); [|apply Hcb].
      destruct (setAdd_spec cb (callbacksOf u s1)) as (_ & _ & _ & _ & H).
      apply H, Hcb. }
    destruct (JsArray.includes u (loadingUrls s2)
              || JsArray.includes u (loadQueue s2)) eqn:Hinc; [exact Ht2|].
    apply orb_false_elim in Hinc as [Hl Hq].
    apply includes_false in Hl, Hq.
    apply processQueue_tidy.
    destruct Ht2 as ((Hnd & Hdis & Hcb) & Hndl & Hact & Hlim & Htim & Hemp
                     & Himg & Hunc).
    assert (Hnone : JsMap.get u (textureCache s2) = None).
    { assert (E : textureCache s2 = textureCache s)
        by (subst s2; now destruct onLoad).
      rewrite E. rewrite <- (cached_ready u s); [exact Hready|].
      destruct Ht as (_ & _ & _ & _ & _ & _ & H & _). exact H. }
    unfold tidy, orderly. simp_state.
    split; [split; [|split]|].
    + apply NoDup_app; [exact Hnd|repeat constructor; intros []|].
      intros a Ha [<-|[]]. contradiction.
    + intros v Hv. apply in_app_or in Hv as [Hv|[<-|[]]]; auto.
    + exact Hcb.
    + repeat (split; [assumption|]).
      intros w Hw. rewrite in_app_iff in Hw.
      destruct Hw as [Hw|[Hw|[<-|[]]]]; auto.
Qed.

Lemma push_tidy (u : string) (s : State) :
  tidy s -> ~ In u (loadingUrls s) -> ~ In u (loadQueue s) ->
  JsMap.get u (textureCache s) = None ->
  tidy (withQueue (loadQueue s ++ [u]) s).
Proof.
  intros ((Hnd & Hdis & Hcb) & Hndl & Hact & Hlim & Htim & Hemp & Himg
          & Hunc) Hl Hq Hnone.
  unfold tidy, orderly. simp_state.
  split; [split; [|split]|].
  - apply NoDup_app; [exact Hnd|repeat constructor; intros []|].
    intros a Ha [<-|[]]. contradiction.
  - intros v Hv. apply in_app_or in Hv as [Hv|[<-|[]]]; auto.
  - exact Hcb.
  - repeat (split; [assumption|]).
    intros w Hw. rewrite in_app_iff in Hw.
    destruct Hw as [Hw|[Hw|[<-|[]]]]; auto.
Qed.

Lemma has_false {V} (k : string) (m : JsMap.t V) :
  JsMap.has k m = false -> JsMap.get k m = None.
Proof. unfold JsMap.has. now destruct (JsMap.get k m). Qed.

Lemma preloadTextures_tidy (items : list MediaItem) (s : State) :
  tidy s -> tidy (preloadTextures items s).
Proof.
  intros Ht. unfold preloadTextures. apply processQueue_tidy.
  revert s Ht. induction items as [|item items IH]; intros s Ht;
    [exact Ht|].
  cbn [fold_left]. apply IH.
  destruct (JsMap.has (url item) (textureCache s)
            || JsArray.includes (url item) (loadingUrls s)
            || JsArray.includes (url item) (loadQueue s)) eqn:E;
    [exact Ht|].
  apply orb_false_elim in E as [E Hq].
  apply orb_false_elim in E as [Hc Hl].
  apply push_tidy; [exact Ht| | |].
  - now apply includes_false.
  - now apply includes_false.
  - now apply has_false.
Qed.

Lemma get_delete_Some {V} (k w : string) (m : JsMap.t V) (v : V) :
  JsMap.get w (JsMap.delete k m) = Some v -> JsMap.get w m = Some v.
Proof.
  destruct (string_dec w k) as [->|Hne].
  - now rewrite JsMapFacts.get_delete_same.
  - now rewrite JsMapFacts.get_delete_other.
Qed.

Lemma evictEntry_rest (s : State) (e : string * Q) :
  timers (evictEntry s e) = timers s
  /\ failures (effects (evictEntry s e)) = failures (effects s)
  /\ preloads (effects (evictEntry s e)) = preloads (effects s)
  /\ forall w tex, JsMap.get w (textureCache (evictEntry s e)) = Some tex ->
                   JsMap.get w (textureCache s) = Some tex.
Proof.
  unfold evictEntry.
  destruct (JsMap.get (fst e) (textureCache s)) as [tex|] eqn:E.
  - simp_state. repeat split. intros w t. apply get_delete_Some.
  - repeat split. auto.
Qed.

Lemma evictLoop_rest (entries : list (string * Q)) :
  forall s,
    timers (fold_left evictEntry entries s) = timers s
    /\ failures (effects (fold_left evictEntry entries s))
       = failures (effects s)
    /\ preloads (effects (fold_left evictEntry entries s))
       = preloads (effects s)
    /\ forall w tex,
         JsMap.get w (textureCache (fold_left evictEntry entries s))
         = Some tex ->
         JsMap.get w (textureCache s) = Some tex.
Proof.
  induction entries as [|e entries IH]; intros s; [now repeat split|].
  cbn [fold_left].
  destruct (IH (evictEntry s e)) as (H1 & H2 & H3 & H4).
  destruct (evictEntry_rest s e) as (G1 & G2 & G3 & G4).
  rewrite H1, H2, H3, G1, G2, G3. repeat split. auto.
Qed.

Lemma evictOldTextures_rest (s : State) :
  timers (evictOldTextures s) = timers s
  /\ failures (effects (evictOldTextures s)) = failures (effects s)
  /\ preloads (effects (evictOldTextures s)) = preloads (effects s)
  /\ forall w tex,
       JsMap.get w (textureCache (evictOldTextures s)) = Some tex ->
       JsMap.get w (textureCache s) = Some tex.
Proof.
  unfold evictOldTextures.
  destruct (JsMap.size (textureCache s) <=? MAX_CACHE_SIZE);
    [now repeat split|apply evictLoop_rest].
Qed.

Lemma filter_out_length (u : string) (l : list string) :
  NoDup l -> In u l ->
  List.length (filter (fun v => negb (String.eqb u v)) l)
  = pred (List.length l).
Proof.
  induction l as [|a l IH]; intros Hnd Hin; [destruct Hin|].
  apply NoDup_cons_iff in Hnd as [Ha Hnd]. cbn [filter].
  destruct (String.eqb u a) eqn:E.
  - apply String.eqb_eq in E. subst a. cbn [negb List.length pred].
    f_equal. clear IH Hin Hnd. induction l as [|b l IH]; [reflexivity|].
    cbn [filter]. destruct (String.eqb u b) eqn:Eb.
    + apply String.eqb_eq in Eb. subst b. exfalso. apply Ha. now left.
    + cbn [negb]. f_equal. apply IH. intros H. apply Ha. now right.
  - apply String.eqb_neq in E. destruct Hin as [Hin|Hin]; [congruence|].
    cbn [negb List.length]. rewrite IH by assumption.
    destruct l; [destruct Hin|reflexivity].
Qed.

Lemma In_filter_out (u w : string) (l : list string) :
  In w (filter (fun v => negb (String.eqb u v)) l) <-> In w l /\ w <> u.
Proof.
  rewrite filter_In. split; intros [H1 H2]; split; auto.
  - intros ->. now rewrite String.eqb_refl in H2.
  - apply negb_true_iff, String.eqb_neq. congruence.
Qed.

(** The state [processQueue] is resumed in once the load of [u] has
    settled. *)
Lemma afterAwait_shape (u : string) (ok : bool) (now : Q) (s : State) :
  loadQueue (afterAwait u ok now s) = loadQueue s
  /\ loadingUrls (afterAwait u ok now s)
     = filter (fun v => negb (String.eqb u v)) (loadingUrls s)
  /\ activeLoads (afterAwait u ok now s) = pred (activeLoads s)
  /\ timers (afterAwait u ok now s) = timers s
  /\ loadCallbacks (afterAwait u ok now s)
     = (if ok then JsMap.delete u (loadCallbacks s) else loadCallbacks s)
  /\ (forall w tex,
        JsMap.get w (textureCache (afterAwait u ok now s)) = Some tex ->
        if ok
        then JsMap.get w (JsMap.set u (mkTexture (created (effects s)) true)
                                    (textureCache s)) = Some tex
        else JsMap.get w (textureCache s) = Some tex)
  /\ (forall w, w <> u -> JsMap.get w (textureCache s) = None ->
                JsMap.get w (textureCache (afterAwait u ok now s)) = None)
  /\ (ok = false -> textureCache (afterAwait u ok now s) = textureCache s)
  /\ failures (effects (afterAwait u ok now s))
     = (if ok then failures (effects s) else failures (effects s) ++ [u]).
Proof.
  unfold afterAwait. cbv zeta. destruct ok.
  - set (tex := mkTexture (created (effects s)) true).
    match goal with
    | |- context [flushCallbacks u tex ?s2] => set (s2' := s2)
    end.
    assert (Hs2 : loadQueue s2' = loadQueue s
                  /\ loadingUrls s2' = loadingUrls s
                  /\ activeLoads s2' = activeLoads s
                  /\ timers s2' = timers s
                  /\ loadCallbacks s2' = loadCallbacks s
                  /\ textureCache s2' = JsMap.set u tex (textureCache s)
                  /\ failures (effects s2') = failures (effects s))
      by (repeat split).
    destruct Hs2 as (S1 & S2 & S3 & S4 & S5 & S6 & S7).
    clearbody s2' tex.
    destruct (flushCallbacks_frame u tex s2')
      as (F1 & _ & F3 & F4 & F5 & F6 & _).
    destruct (flushCallbacks_rest u tex s2') as (R1 & R2 & _).
    destruct (evictOldTextures_frame (flushCallbacks u tex s2'))
      as (E1 & E2 & E3 & E4 & _ & _ & _ & E8).
    destruct (evictOldTextures_rest (flushCallbacks u tex s2'))
      as (G1 & G2 & _ & G4).
    cbn [loadQueue loadingUrls activeLoads timers loadCallbacks
         textureCache effects withLoading].
    rewrite E1, E2, E3, E4, G1, G2, F3, F4, F5, F6, R1, R2,
            S1, S2, S3, S4, S5, S7.
    repeat split.
    + intros w t Hw. apply G4 in Hw. now rewrite F1, S6 in Hw.
    + intros w Hne Hw. apply E8. rewrite F1, S6.
      now rewrite JsMapFacts.get_set_other.
    + discriminate.
  - simp_state. repeat split; auto.
Qed.

Lemma afterAwait_tidy (u : string) (ok : bool) (now : Q) (s : State) :
  tidy s -> In u (loadingUrls s) -> tidy (afterAwait u ok now s).
Proof.
  intros ((Hnd & Hdis & Hcb) & Hndl & Hact & Hlim & Htim & Hemp & Himg
          & Hunc) Hin.
  destruct (afterAwait_shape u ok now s)
    as (E1 & E2 & E3 & E4 & E5 & E6 & E7 & _).
  unfold tidy, orderly. rewrite E1, E2, E3, E4.
  split; [split; [exact Hnd|split]|].
  - intros v Hv Hf. apply In_filter_out in Hf as [Hf _].
    now apply (Hdis v).
  - intros w. unfold callbacksOf. rewrite E5. destruct ok; [|apply Hcb].
    destruct (string_dec w u) as [->|Hne].
    + rewrite JsMapFacts.get_delete_same. constructor.
    + rewrite JsMapFacts.get_delete_other by exact Hne. apply Hcb.
  - split; [now apply NoDup_filter|].
    split; [rewrite filter_out_length by assumption; now rewrite Hact|].
    split; [lia|]. split; [exact Htim|].
    split; [intros Hf; apply In_filter_out in Hf as [Hf _]; contradiction|].
    split.
    + intros w tex Hw. apply E6 in Hw. destruct ok; [|now apply (Himg w)].
      destruct (string_dec w u) as [->|Hne].
      * rewrite JsMapFacts.get_set_same in Hw. now injection Hw as <-.
      * rewrite JsMapFacts.get_set_other in Hw by exact Hne.
        now apply (Himg w).
    + intros w Hw. apply E7.
      * destruct Hw as [Hw|Hw].
        -- now apply In_filter_out in Hw as [_ Hw].
        -- intros ->. now apply (Hdis u).
      * apply Hunc. destruct Hw as [Hw|Hw]; [|now right].
        left. now apply In_filter_out in Hw as [Hw _].
Qed.

Lemma settle_tidy (u : string) (ok : bool) (now : Q) (s : State) :
  tidy s -> tidy (settle u ok now s).
Proof.
  intros Ht. unfold settle.
  destruct (JsArray.includes u (loadingUrls s)) eqn:E; [|exact Ht].
  apply processQueue_tidy, afterAwait_tidy; [exact Ht|].
  now apply includes_In.
Qed.

Lemma preloadItem_tidy (p : nat) (now : Q) (s : State)
      (entry : nat * MediaItem) :
  tidy s -> tidy (preloadItem p now s entry).
Proof.
  intros Ht. destruct entry as [index item]. unfold preloadItem.
  destruct (readyTexture (url item) s).
  - revert Ht. now apply tidy_ext.
  - now apply getTexture_tidy.
Qed.

Lemma preloadLoop_tidy (p : nat) (now : Q) (l : list (nat * MediaItem)) :
  forall s, tidy s -> tidy (fold_left (preloadItem p now) l s).
Proof.
  induction l as [|e l IH]; intros s Ht; [exact Ht|].
  cbn [fold_left]. apply IH. now apply preloadItem_tidy.
Qed.

Lemma preloadAllTextures_tidy (items : list MediaItem) (now : Q) (s : State) :
  tidy s -> tidy (preloadAllTextures items now s).
Proof.
  intros Ht. unfold preloadAllTextures. cbv zeta.
  apply preloadLoop_tidy. revert Ht. now apply tidy_ext.
Qed.

Lemma step_tidy (s : State) (ev : Event) : tidy s -> tidy (step s ev).
Proof.
  intros Ht. destruct ev; cbn [step].
  - now apply getTexture_tidy.
  - now apply preloadTextures_tidy.
  - now apply preloadAllTextures_tidy.
  - exact Ht.
  - now apply settle_tidy.
  - pose proof Ht as (_ & _ & _ & _ & Htim & _). now rewrite Htim.
Qed.

Lemma run_tidy (evs : list Event) : forall s, tidy s -> tidy (run evs s).
Proof.
  unfold run. induction evs as [|ev evs IH]; intros s H; [exact H|].
  cbn [fold_left]. apply IH. now apply step_tidy.
Qed.

Lemma reachable_tidy (evs : list Event) : tidy (run evs initialState).
Proof. apply run_tidy, initial_tidy. Qed.

(** *** Loads in flight *)

Lemma processQueue_loads (s : State) :
  activeLoads s <= activeLoads (processQueue s) <= S (activeLoads s).
Proof.
  unfold processQueue.
  destruct (processQueueFrom_spec (loadQueue s) s)
    as (dropped & started & rest & _ & Hlen & _ & _ & _ & E2 & _).
  destruct (processQueueFrom_counters (loadQueue s) s) as (_ & C2 & _).
  rewrite E2, length_app in C2. lia.
Qed.

Lemma getTexture_loads (item : MediaItem) (onLoad : option Callback)
      (now : Q) (s : State) :
  activeLoads s <= activeLoads (getTexture item onLoad now s)
                <= S (activeLoads s).
Proof.
  unfold getTexture. cbv zeta.
  set (u := url item).
  set (s1 := withLastUsed (JsMap.set u now (textureLastUsed s)) s).
  destruct (readyTexture u s1).
  - destruct onLoad; cbn [activeLoads withEffects withLastUsed s1]; lia.
  - set (s2 := match onLoad with Some _ => _ | None => _ end).
    assert (E : activeLoads s2 = activeLoads s)
      by (subst s2; now destruct onLoad).
    destruct (_ || _); [lia|].
    pose proof (processQueue_loads (withQueue (loadQueue s2 ++ [u]) s2)) as H.
    change (activeLoads (withQueue (loadQueue s2 ++ [u]) s2))
      with (activeLoads s2) in H.
    lia.
Qed.

Lemma preloadTextures_loads (items : list MediaItem) (s : State) :
  activeLoads s <= activeLoads (preloadTextures items s) <= S (activeLoads s).
Proof.
  unfold preloadTextures.
  match goal with
  | |- context [processQueue ?x] =>
      assert (E : activeLoads x = activeLoads s)
  end.
  { revert s. induction items as [|item items IH]; intros s; [reflexivity|].
    cbn [fold_left]. rewrite IH. now destruct (_ || _). }
  match goal with
  | |- context [processQueue ?x] => pose proof (processQueue_loads x) as H
  end.
  lia.
Qed.

Lemma environment_loads (s : State) (ev : Event) :
  tidy s -> environmentEvent ev -> activeLoads (step s ev) <= activeLoads s.
Proof.
  intros Ht Hev. destruct ev; try destruct Hev; cbn [step].
  - unfold settle. destruct (JsArray.includes u (loadingUrls s)) eqn:E;
      [|lia].
    apply includes_In in E.
    destruct (afterAwait_shape u ok now s) as (_ & _ & E3 & _).
    pose proof (processQueue_loads (afterAwait u ok now s)) as H.
    destruct Ht as (_ & _ & Hact & _).
    destruct (loadingUrls s); [destruct E|]. cbn [List.length] in Hact. lia.
  - destruct Ht as (_ & _ & _ & _ & -> & _). lia.
Qed.

Lemma environment_run_loads (envs : list Event) :
  forall s, tidy s -> Forall environmentEvent envs ->
            activeLoads (run envs s) <= activeLoads s.
Proof.
  unfold run. induction envs as [|ev envs IH]; intros s Ht Hf; [cbn; lia|].
  apply Forall_cons_iff in Hf as [Hev Hf]. cbn [fold_left].
  pose proof (environment_loads s ev Ht Hev).
  pose proof (IH (step s ev) (step_tidy s ev Ht) Hf). lia.
Qed.

(** X12.  Whatever calls and settled loads have happened: the queue and
    the set of URLs being loaded hold no URL twice and share none;
    [getLoadingStats().loading] is the number of URLs being loaded and at
    most MAX_CONCURRENT_LOADS; a URL that is queued or being loaded is
    not cached; [isTextureCached] holds exactly of the keys of the cache;
    no callback is registered twice for a URL. *)
Theorem texture_manager_invariants :
  forall evs : list Event,
    let s := run evs initialState in
    NoDup (loadQueue s)
    /\ NoDup (loadingUrls s)
    /\ (forall u, In u (loadQueue s) -> ~ In u (loadingUrls s))
    /\ stat_loading (getLoadingStats s) = List.length (loadingUrls s)
    /\ stat_loading (getLoadingStats s) <= MAX_CONCURRENT_LOADS
    /\ stat_queued (getLoadingStats s) = List.length (loadQueue s)
    /\ (forall u, In u (loadingUrls s) \/ In u (loadQueue s) ->
                  getCachedTexture u s = None
                  /\ isTextureCached u s = false)
    /\ (forall u, isTextureCached u s = JsMap.has u (textureCache s))
    /\ (forall u, NoDup (callbacksOf u s))
    /\ ~ In ""%string (loadingUrls s).
Proof.
  intros evs s.
  pose proof (reachable_tidy evs)
    as ((Hnd & Hdis & Hcb) & Hndl & Hact & Hlim & Htim & Hemp & Himg & Hunc).
  fold s in Hnd, Hdis, Hcb, Hndl, Hact, Hlim, Htim, Hemp, Himg, Hunc.
  split; [exact Hnd|]. split; [exact Hndl|]. split; [exact Hdis|].
  split; [exact Hact|]. split; [exact Hlim|]. split; [reflexivity|].
  split; [|split; [|split; [exact Hcb|exact Hemp]]].
  - intros u Hu. unfold getCachedTexture, isTextureCached.
    now rewrite (Hunc u Hu).
  - intros u. unfold isTextureCached, JsMap.has.
    destruct (JsMap.get u (textureCache s)) as [tex|] eqn:E; [|reflexivity].
    now apply (Himg u).
Qed.

(** X13.  The [setTimeout(processQueue, 0)] at the end of [processQueue]
    is never reached with its condition true: no call schedules a timer,
    from any state.  In the states the module can be in, a queued URL is
    never being loaded nor cached, so of the three tests that let the
    loop skip a URL only the one for the empty URL can succeed. *)
Theorem processQueue_never_reschedules :
  forall (s0 : State) (evs : list Event),
    timers (processQueue s0) = timers s0
    /\ (let s := run evs initialState in
        timers s = 0
        /\ step s TimerFired = s
        /\ (forall u, In u (loadQueue s) ->
              JsArray.includes u (loadingUrls s) = false
              /\ readyTexture u s = None)
        /\ exists dropped started,
             loadQueue s = dropped ++ started ++ loadQueue (processQueue s)
             /\ (forall d, In d dropped -> d = ""%string)
             /\ loadingUrls (processQueue s) = loadingUrls s ++ started
             /\ List.length started <= 1).
Proof.
  intros s0 evs. split.
  { unfold processQueue.
    now destruct (processQueueFrom_counters (loadQueue s0) s0) as (-> & _). }
  intros s.
  pose proof (reachable_tidy evs)
    as ((Hnd & Hdis & Hcb) & Hndl & Hact & Hlim & Htim & Hemp & Himg & Hunc).
  fold s in Hnd, Hdis, Hcb, Hndl, Hact, Hlim, Htim, Hemp, Himg, Hunc.
  assert (Hq : forall u, In u (loadQueue s) ->
                 JsArray.includes u (loadingUrls s) = false
                 /\ readyTexture u s = None).
  { intros u Hu. split; [now apply includes_false, Hdis|].
    apply uncached_not_ready, Hunc. now right. }
  split; [exact Htim|]. split; [cbn [step]; now rewrite Htim|].
  split; [exact Hq|].
  unfold processQueue.
  destruct (processQueueFrom_spec (loadQueue s) s)
    as (dropped & started & rest & Hsplit & Hlen & Hd & _ & E1 & E2 & _).
  exists dropped, started. rewrite E1, E2.
  split; [exact Hsplit|]. split; [|split; [reflexivity|exact Hlen]].
  intros d Hin. rewrite Forall_forall in Hd.
  assert (Hdq : In d (loadQueue s)).
  { rewrite Hsplit. apply in_or_app. now left. }
  destruct (Hq d Hdq) as [Hl Hr].
  destruct (Hd d Hin) as [E|[E|E]]; [exact E| |contradiction].
  apply includes_false in Hl. contradiction.
Qed.

(** X14.  A settled load or a timer never raises the number of loads in
    flight, and one call of [getTexture] or [preloadTextures] raises it
    by one at most: each call of [processQueue] waits for the load it
    starts.  So [preloadTextures] on an idle loader fetches its URLs one
    at a time, however many it was given. *)
Theorem loads_start_one_per_call :
  forall (evs : list Event) (items : list MediaItem) (envs : list Event),
    (let s := run evs initialState in
     (forall ev, environmentEvent ev ->
                 activeLoads (step s ev) <= activeLoads s)
     /\ (forall item onLoad now,
           activeLoads (getTexture item onLoad now s) <= S (activeLoads s))
     /\ activeLoads (preloadTextures items s) <= S (activeLoads s))
    /\ (Forall environmentEvent envs ->
        activeLoads (run envs (preloadTextures items initialState)) <= 1).
Proof.
  intros evs items envs. split.
  - intros s. pose proof (reachable_tidy evs) as Ht. fold s in Ht.
    split; [intros ev; now apply environment_loads|].
    split; [intros; apply getTexture_loads|apply preloadTextures_loads].
  - intros Hf.
    pose proof (environment_run_loads envs
                  (preloadTextures items initialState)
                  (preloadTextures_tidy items initialState initial_tidy) Hf).
    pose proof (preloadTextures_loads items initialState) as [_ H1].
    cbn [activeLoads initialState] in H1. lia.
Qed.

(** *** A load and the requests after it *)

Lemma set_size {V} (k : string) (v : V) (m : JsMap.t V) :
  JsMap.size (JsMap.set k v m) <= S (JsMap.size m).
Proof.
  unfold JsMap.size. induction m as [|[k' v'] m IH]; cbn; [lia|].
  destruct (String.eqb k k'); cbn; lia.
Qed.

Lemma afterAwait_within_capacity (u : string) (now : Q) (s : State) :
  JsMap.size (textureCache s) < MAX_CACHE_SIZE ->
  textureCache (afterAwait u true now s)
  = JsMap.set u (mkTexture (created (effects s)) true) (textureCache s)
  /\ textureLastUsed (afterAwait u true now s)
     = JsMap.set u now (textureLastUsed s).
Proof.
  intros Hsize. unfold afterAwait. cbv zeta.
  set (tex := mkTexture (created (effects s)) true).
  match goal with
  | |- context [flushCallbacks u tex ?s2] => set (s2' := s2)
  end.
  assert (S6 : textureCache s2' = JsMap.set u tex (textureCache s))
    by reflexivity.
  assert (S7 : textureLastUsed s2' = JsMap.set u now (textureLastUsed s))
    by reflexivity.
  clearbody s2'.
  destruct (flushCallbacks_frame u tex s2') as (F1 & F2 & _).
  assert (E : evictOldTextures (flushCallbacks u tex s2')
              = flushCallbacks u tex s2').
  { unfold evictOldTextures. rewrite F1, S6.
    pose proof (set_size u tex (textureCache s)) as H.
    assert (El : (JsMap.size (JsMap.set u tex (textureCache s))
                  <=? MAX_CACHE_SIZE) = true) by (apply Nat.leb_le; lia).
    now rewrite El. }
  rewrite E. cbn [textureCache textureLastUsed withLoading].
  now rewrite F1, F2, S6, S7.
Qed.

Lemma getTexture_ready (item : MediaItem) (cb : Callback) (now : Q)
      (s : State) (tex : Texture) :
  readyTexture (url item) s = Some tex ->
  getTexture item (Some cb) now s
  = withEffects (call cb tex (effects s))
      (withLastUsed (JsMap.set (url item) now (textureLastUsed s)) s).
Proof.
  intros H. unfold getTexture. cbv zeta.
  change (readyTexture (url item)
            (withLastUsed (JsMap.set (url item) now (textureLastUsed s)) s))
    with (readyTexture (url item) s).
  now rewrite H.
Qed.

(** X15.  A load that settles successfully while the cache is below its
    capacity puts the new texture in the cache and stamps it; from then
    on [getCachedTexture] returns it, and [getTexture] hands it to its
    callback at once, without queueing, fetching or registering anything,
    and stamps the URL again. *)
Theorem loaded_texture_is_served :
  forall (s : State) (u : string) (t : Q),
    In u (loadingUrls s) ->
    JsMap.size (textureCache s) < MAX_CACHE_SIZE ->
    let tex := mkTexture (created (effects s)) true in
    let s1 := step s (LoadSettled u true t) in
    textureCache s1 = JsMap.set u tex (textureCache s)
    /\ getCachedTexture u s1 = Some tex
    /\ isTextureCached u s1 = true
    /\ JsMap.get u (textureLastUsed s1) = Some t
    /\ forall (item : MediaItem) (cb : Callback) (t' : Q),
         url item = u ->
         let s2 := step s1 (GetTexture item (Some cb) t') in
         invoked (effects s2) = invoked (effects s1) ++ [(cb, tex)]
         /\ fetched (effects s2) = fetched (effects s1)
         /\ loadQueue s2 = loadQueue s1
         /\ loadingUrls s2 = loadingUrls s1
         /\ loadCallbacks s2 = loadCallbacks s1
         /\ textureCache s2 = textureCache s1
         /\ JsMap.get u (textureLastUsed s2) = Some t'.
Proof.
  intros s u t Hin Hsize tex s1.
  assert (E1 : s1 = processQueue (afterAwait u true t s)).
  { subst s1. cbn [step]. now apply settle_resumes. }
  destruct (afterAwait_within_capacity u t s Hsize) as (A1 & A2).
  destruct (processQueueFrom_spec (loadQueue (afterAwait u true t s))
                                  (afterAwait u true t s))
    as (_ & _ & _ & _ & _ & _ & _ & _ & _ & P3 & P4 & _).
  fold (processQueue (afterAwait u true t s)) in P3, P4.
  rewrite <- E1 in P3, P4. rewrite A1 in P3. rewrite A2 in P4.
  fold tex in P3.
  assert (Hget : JsMap.get u (textureCache s1) = Some tex)
    by (rewrite P3; apply JsMapFacts.get_set_same).
  assert (Hready : readyTexture u s1 = Some tex)
    by (unfold readyTexture; now rewrite Hget).
  split; [exact P3|]. split; [exact Hready|].
  split; [unfold isTextureCached; now rewrite Hget|].
  split; [rewrite P4; apply JsMapFacts.get_set_same|].
  intros item cb t' Eu s2. subst s2. cbn [step].
  rewrite <- Eu in Hready. rewrite (getTexture_ready item cb t' s1 tex Hready).
  simp_state. destruct (call_frame cb tex (effects s1)) as (C1 & _ & C3).
  rewrite C1, C3. repeat split.
  rewrite Eu. apply JsMapFacts.get_set_same.
Qed.

Lemma loaded_texture_witness :
  In (Examples.poseUrl 1)
     (loadingUrls (step initialState
                        (GetTexture (Examples.pose 1) None 0%Q)))
  /\ getCachedTexture (Examples.poseUrl 1)
       (step (step initialState (GetTexture (Examples.pose 1) None 0%Q))
             (LoadSettled (Examples.poseUrl 1) true 1%Q))
     = Some (mkTexture 0 true).
Proof.
  assert (Hin : In (Examples.poseUrl 1)
                   (loadingUrls (step initialState
                                   (GetTexture (Examples.pose 1) None 0%Q))))
    by (vm_compute; now left).
  assert (Hsize : JsMap.size
                    (textureCache
                       (step initialState
                             (GetTexture (Examples.pose 1) None 0%Q)))
                  < MAX_CACHE_SIZE) by (vm_compute; lia).
  split; [exact Hin|].
  exact (proj1 (proj2 (loaded_texture_is_served _ _ 1%Q Hin Hsize))).
Defined.

(** X16.  A load that fails is logged and forgotten: the URL is neither
    cached nor loading nor queued afterwards, and the callbacks waiting
    for it stay registered without having been invoked for it.  The next
    [getTexture] for the URL starts a new request, and when that one
    succeeds the callbacks left from the failed request are served with
    the new one. *)
Theorem failed_load_is_retried :
  forall (evs : list Event) (u : string) (t : Q),
    let s := run evs initialState in
    In u (loadingUrls s) ->
    let s1 := step s (LoadSettled u false t) in
    failures (effects s1) = failures (effects s) ++ [u]
    /\ textureCache s1 = textureCache s
    /\ getCachedTexture u s1 = None
    /\ ~ In u (loadingUrls s1)
    /\ ~ In u (loadQueue s1)
    /\ callbacksOf u s1 = callbacksOf u s
    /\ invoked (effects s1) = invoked (effects s)
    /\ fetchCount u s1 = fetchCount u s
    /\ forall (item : MediaItem) (cb : Callback) (t' t'' : Q),
         url item = u ->
         let s2 := step s1 (GetTexture item (Some cb) t') in
         (In u (loadingUrls s2) \/ In u (loadQueue s2))
         /\ fetchCount u s2 + queuedOnce u s2 = fetchCount u s + 1
         /\ callbacksOf u s2 = setAdd cb (callbacksOf u s)
         /\ (In u (loadingUrls s2) ->
             exists extra,
               invoked (effects (step s2 (LoadSettled u true t'')))
               = invoked (effects s2)
                   ++ map (fun c => (c, mkTexture (created (effects s2)) true))
                          (setAdd cb (callbacksOf u s))
                   ++ extra).
Proof.
  intros evs u t s Hin s1.
  pose proof (reachable_tidy evs) as Ht. fold s in Ht.
  pose proof Ht as ((Hnd & Hdis & Hcb) & Hndl & Hact & Hlim & Htim & Hemp
                    & Himg & Hunc).
  assert (Hne : u <> ""%string) by (intros ->; contradiction).
  assert (Hq : ~ In u (loadQueue s)) by (intros H; now apply (Hdis u)).
  assert (Hc : JsMap.get u (textureCache s) = None)
    by (apply Hunc; now left).
  assert (E1 : s1 = processQueue (afterAwait u false t s)).
  { subst s1. cbn [step]. now apply settle_resumes. }
  pose proof (step_tidy s (LoadSettled u false t) Ht) as Ht1.
  fold s1 in Ht1.
  destruct (afterAwait_shape u false t s)
    as (A1 & A2 & _ & _ & A5 & _ & _ & A8 & A9).
  specialize (A8 eq_refl).
  destruct (afterAwait_frame u false t s) as (_ & _ & A10 & _).
  destruct (processQueueFrom_spec (loadQueue (afterAwait u false t s))
                                  (afterAwait u false t s))
    as (dropped & started & rest & Hsplit & _ & _ & _ & P1 & P2 & P3 & _
        & P5 & _ & _ & P8).
  destruct (processQueueFrom_counters (loadQueue (afterAwait u false t s))
                                      (afterAwait u false t s))
    as (_ & _ & _ & C4 & _).
  fold (processQueue (afterAwait u false t s)) in P1, P2, P3, P5, P8, C4.
  rewrite <- E1 in P1, P2, P3, P5, P8, C4.
  rewrite A1 in Hsplit.
  assert (Hns : ~ In u started).
  { intros H. apply Hq. rewrite Hsplit, !in_app_iff. tauto. }
  assert (Hnr : ~ In u rest).
  { intros H. apply Hq. rewrite Hsplit, !in_app_iff. tauto. }
  assert (G1 : failures (effects s1) = failures (effects s) ++ [u])
    by now rewrite C4, A9.
  assert (G2 : textureCache s1 = textureCache s) by now rewrite P3, A8.
  assert (G4 : ~ In u (loadingUrls s1)).
  { rewrite P2, A2. intros H. apply in_app_or in H as [H|H]; [|now apply Hns].
    apply In_filter_out in H as [_ H]. now apply H. }
  assert (G5 : ~ In u (loadQueue s1)) by now rewrite P1.
  assert (G6 : callbacksOf u s1 = callbacksOf u s).
  { unfold callbacksOf. destruct (P8 u) as [->|[_ Hr]]; [now rewrite A5|].
    exfalso. apply Hr. apply uncached_not_ready. now rewrite A8. }
  assert (G7 : fetchCount u s1 = fetchCount u s).
  { unfold fetchCount. rewrite P5, A10, count_occ_app.
    rewrite (proj1 (count_occ_not_In string_dec started u) Hns). lia. }
  split; [exact G1|]. split; [exact G2|].
  split; [unfold getCachedTexture; now rewrite G2, Hc|].
  split; [exact G4|]. split; [exact G5|]. split; [exact G6|].
  split.
  { pose proof (afterAwait_tidy u false t s Ht Hin)
      as (_ & _ & _ & _ & _ & _ & _ & Hunc').
    destruct (processQueueFrom_plain (loadQueue (afterAwait u false t s))
                                     (afterAwait u false t s))
      as (_ & Q2 & _).
    { intros d Hd. apply uncached_not_ready, Hunc'. now right. }
    fold (processQueue (afterAwait u false t s)) in Q2.
    rewrite <- E1 in Q2. rewrite Q2. reflexivity. }
  split; [exact G7|].
  intros item cb t' t'' Eu s2.
  assert (Hc1 : JsMap.get u (textureCache s1) = None) by now rewrite G2.
  destruct (getTexture_first u item cb t' s1 Hne Eu (proj1 Ht1) Hc1 G4 G5)
    as (Haw & Hcbs).
  fold (step s1 (GetTexture item (Some cb) t')) in Haw, Hcbs.
  fold s2 in Haw, Hcbs. rewrite G6 in Hcbs. rewrite G7 in Haw.
  pose proof Haw as (_ & _ & Hp & Hn).
  split; [exact Hp|]. split; [exact Hn|]. split; [exact Hcbs|].
  intros Hl.
  destruct (settle_awaited u _ t'' s2 Haw Hl) as (_ & _ & extra & Hinv).
  exists extra. now rewrite Hinv, Hcbs.
Qed.

Lemma failed_load_witness :
  In (Examples.poseUrl 1)
     (loadingUrls (run [GetTexture (Examples.pose 1) (Some (OnLoad 1)) 0%Q]
                       initialState))
  /\ callbacksOf (Examples.poseUrl 1)
       (step (run [GetTexture (Examples.pose 1) (Some (OnLoad 1)) 0%Q]
                  initialState)
             (LoadSettled (Examples.poseUrl 1) false 1%Q))
     = callbacksOf (Examples.poseUrl 1)
         (run [GetTexture (Examples.pose 1) (Some (OnLoad 1)) 0%Q]
              initialState).
Proof.
  assert (Hin : In (Examples.poseUrl 1)
                   (loadingUrls
                      (run [GetTexture (Examples.pose 1) (Some (OnLoad 1)) 0%Q]
                           initialState)))
    by (vm_compute; now left).
  split; [exact Hin|].
  exact (proj1 (proj2 (proj2 (proj2 (proj2 (proj2
           (failed_load_is_retried
              [GetTexture (Examples.pose 1) (Some (OnLoad 1)) 0%Q]
              (Examples.poseUrl 1) 1%Q Hin))))))).
Defined.

(** *** [preloadAllTextures] over cached items *)

Lemma updateAt_last {A} (f : A -> A) (l : list A) (x : A) :
  updateAt (List.length l) f (l ++ [x]) = l ++ [f x].
Proof. induction l as [|a l IH]; cbn; [reflexivity|now rewrite IH]. Qed.

Lemma reportProgress_iter (n k : nat) :
  k <= n ->
  Nat.iter k reportProgress (mkPreload n 0 [] false)
  = mkPreload n k
      (map (fun i => inject_Z (Z.of_nat i) / inject_Z (Z.of_nat n))%Q
           (seq 1 k))
      ((0 <? k) && (k =? n)).
Proof.
  induction k as [|k IH]; intros Hk; [reflexivity|].
  rewrite Nat.iter_succ, IH by lia. unfold reportProgress.
  cbn [total loaded progress resolved].
  rewrite seq_S, map_app. cbn [map Nat.add]. f_equal.
  assert (E : (k =? n) = false) by (apply Nat.eqb_neq; lia).
  rewrite E, andb_false_r. reflexivity.
Qed.

Lemma updateAt_ext {A} (f g : A -> A) (l : list A) :
  (forall x, f x = g x) -> forall p, updateAt p f l = updateAt p g l.
Proof.
  intros H. induction l as [|a l IH]; intros p; [now destruct p|].
  destruct p; cbn [updateAt]; [now rewrite H|now rewrite IH].
Qed.

Lemma updateAt_id {A} (l : list A) :
  forall p, updateAt p (fun x => x) l = l.
Proof.
  induction l as [|a l IH]; intros p; [now destruct p|].
  destruct p; cbn [updateAt]; [reflexivity|now rewrite IH].
Qed.

Lemma updateAt_twice {A} (f g : A -> A) (l : list A) :
  forall p, updateAt p f (updateAt p g l)
            = updateAt p (fun x => f (g x)) l.
Proof.
  induction l as [|a l IH]; intros p; [now destruct p|].
  destruct p; cbn [updateAt]; [reflexivity|now rewrite IH].
Qed.

Lemma preloadLoop_ready (p : nat) (now : Q) (l : list (nat * MediaItem)) :
  forall s,
    (forall e, In e l -> readyTexture (url (snd e)) s <> None) ->
    textureCache (fold_left (preloadItem p now) l s) = textureCache s
    /\ loadCallbacks (fold_left (preloadItem p now) l s) = loadCallbacks s
    /\ textureLastUsed (fold_left (preloadItem p now) l s)
       = textureLastUsed s
    /\ loadQueue (fold_left (preloadItem p now) l s) = loadQueue s
    /\ activeLoads (fold_left (preloadItem p now) l s) = activeLoads s
    /\ loadingUrls (fold_left (preloadItem p now) l s) = loadingUrls s
    /\ fetched (effects (fold_left (preloadItem p now) l s))
       = fetched (effects s)
    /\ invoked (effects (fold_left (preloadItem p now) l s))
       = invoked (effects s)
    /\ preloads (effects (fold_left (preloadItem p now) l s))
       = updateAt p (Nat.iter (List.length l) reportProgress)
                  (preloads (effects s)).
Proof.
  induction l as [|[index item] l IH]; intros s Hr.
  - cbn [fold_left List.length]. repeat split.
    rewrite (updateAt_ext _ (fun x => x)) by reflexivity.
    now rewrite updateAt_id.
  - cbn [fold_left List.length].
    assert (E1 : preloadItem p now s (index, item)
                 = withEffects
                     (mkEffects (created (effects s)) (fetched (effects s))
                        (invoked (effects s)) (disposed (effects s))
                        (failures (effects s))
                        (updateAt p reportProgress (preloads (effects s))))
                     s).
    { unfold preloadItem.
      destruct (readyTexture (url item) s) as [tex|] eqn:E; [reflexivity|].
      exfalso. apply (Hr (index, item)); [now left|exact E]. }
    rewrite E1.
    match goal with
    | |- context [fold_left _ l ?x] => set (s1 := x)
    end.
    destruct (IH s1) as (H1 & H2 & H3 & H4 & H5 & H6 & H7 & H8 & H9).
    { intros e He.
      change (readyTexture (url (snd e)) s1)
        with (readyTexture (url (snd e)) s).
      apply Hr. now right. }
    rewrite H1, H2, H3, H4, H5, H6, H7, H8, H9. subst s1. simp_state.
    repeat split.
    rewrite updateAt_twice. apply updateAt_ext. intros x.
    now rewrite Nat.iter_succ_r.
Qed.

(** X17.  [preloadAllTextures] over items that are all cached already
    (none at all included) resolves before it returns: it reports the
    progress values 1/n, 2/n, ..., 1 (the single value 1 for no items),
    and starts no load, registers no callback and stamps no URL. *)
Theorem preloadAll_of_cached_items :
  forall (s : State) (items : list MediaItem) (t : Q),
    (forall item, In item items -> readyTexture (url item) s <> None) ->
    let s' := preloadAllTextures items t s in
    let n := List.length items in
    preloads (effects s')
    = preloads (effects s)
        ++ [mkPreload n n
              (if n =? 0 then [1%Q]
               else map (fun i => inject_Z (Z.of_nat i) / inject_Z (Z.of_nat n))%Q
                        (seq 1 n))
              true]
    /\ textureCache s' = textureCache s
    /\ textureLastUsed s' = textureLastUsed s
    /\ loadCallbacks s' = loadCallbacks s
    /\ loadQueue s' = loadQueue s
    /\ loadingUrls s' = loadingUrls s
    /\ fetched (effects s') = fetched (effects s)
    /\ invoked (effects s') = invoked (effects s).
Proof.
  intros s items t Hr s' n. subst s'. unfold preloadAllTextures. cbv zeta.
  fold n.
  match goal with
  | |- context [fold_left _ _ ?x] => set (s0 := x)
  end.
  destruct (preloadLoop_ready (List.length (preloads (effects s))) t
              (combine (seq 0 n) items) s0)
    as (H1 & H2 & H3 & H4 & H5 & H6 & H7 & H8 & H9).
  { intros [index item] He. apply in_combine_r in He.
    change (readyTexture (url (snd (index, item))) s0)
      with (readyTexture (url item) s).
    now apply Hr. }
  rewrite H1, H2, H3, H4, H6, H7, H8, H9. subst s0. simp_state.
  repeat split.
  rewrite updateAt_last. f_equal. f_equal.
  rewrite length_combine, length_seq. fold n. rewrite Nat.min_id.
  destruct n as [|m] eqn:En; [reflexivity|].
  cbn [Nat.eqb]. rewrite reportProgress_iter by lia.
  now rewrite Nat.eqb_refl.
Qed.

Lemma preloadAll_cached_witness :
  (forall item,
      In item [Examples.pose 1] ->
      readyTexture (url item)
        (run [GetTexture (Examples.pose 1) None 0%Q;
              LoadSettled (Examples.poseUrl 1) true 1%Q] initialState)
      <> None)
  /\ preloads
       (effects
          (preloadAllTextures [Examples.pose 1] 2%Q
             (run [GetTexture (Examples.pose 1) None 0%Q;
                   LoadSettled (Examples.poseUrl 1) true 1%Q] initialState)))
     = [mkPreload 1 1 [inject_Z 1 / inject_Z 1]%Q true].
Proof.
  assert (Hr : forall item,
             In item [Examples.pose 1] ->
             readyTexture (url item)
               (run [GetTexture (Examples.pose 1) None 0%Q;
                     LoadSettled (Examples.poseUrl 1) true 1%Q] initialState)
             <> None).
  { intros item [<-|[]]. vm_compute. discriminate. }
  split; [exact Hr|].
  exact (proj1 (preloadAll_of_cached_items _ [Examples.pose 1] 2%Q Hr)).
Defined.

(** *** Eviction *)

Lemma insertBy_perm_any {A} (lt : A -> A -> bool) (x : A) (l : list A) :
  Permutation (JsArray.insertBy lt x l) (x :: l).
Proof.
  induction l as [|y l IH]; cbn [JsArray.insertBy]; [reflexivity|].
  destruct (lt y x); [|reflexivity].
  rewrite IH. apply perm_swap.
Qed.

Lemma sortBy_perm_any {A} (lt : A -> A -> bool) (l : list A) :
  Permutation (JsArray.sortBy lt l) l.
Proof.
  induction l as [|x l IH]; cbn [JsArray.sortBy]; [constructor|].
  rewrite insertBy_perm_any. now constructor.
Qed.

Lemma Qltb_spec (a b : Q) :
  (Qltb a b = true -> a < b)%Q /\ (Qltb a b = false -> b <= a)%Q.
Proof.
  unfold Qltb. split; intros H.
  - apply negb_true_iff in H. apply Qnot_le_lt. intros Hle.
    apply Qle_bool_iff in Hle. congruence.
  - apply negb_false_iff in H. now apply Qle_bool_iff.
Qed.

Lemma sortBy_sorted_Q {A} (key : A -> Q) (l : list A) :
  StronglySorted (fun a b => key a <= key b)%Q
                 (JsArray.sortBy (fun a b => Qltb (key a) (key b)) l).
Proof.
  induction l as [|x l IH]; cbn [JsArray.sortBy]; [constructor|].
  revert IH. generalize (JsArray.sortBy (fun a b => Qltb (key a) (key b)) l).
  clear l. intros l Hs.
  induction Hs as [|y l Hs IH Hall]; cbn [JsArray.insertBy].
  - repeat constructor.
  - destruct (Qltb (key y) (key x)) eqn:E.
    + apply Qltb_spec in E. constructor; [exact IH|].
      rewrite Forall_forall in *. intros z Hz.
      apply (Permutation_in _ (insertBy_perm_any _ x l)) in Hz.
      destruct Hz as [<-|Hz]; [now apply Qlt_le_weak|now apply Hall].
    + apply Qltb_spec in E. constructor; [now constructor|].
      constructor; [exact E|].
      rewrite Forall_forall in *. intros z Hz.
      apply Qle_trans with (key y); [exact E|now apply Hall].
Qed.

Lemma sorted_app_le {A} (R : A -> A -> Prop) (l1 l2 : list A) :
  StronglySorted R (l1 ++ l2) ->
  forall a b, In a l1 -> In b l2 -> R a b.
Proof.
  induction l1 as [|x l1 IH]; intros Hs a b Ha Hb; [destruct Ha|].
  cbn [app] in Hs. apply StronglySorted_inv in Hs as [Hs Hall].
  destruct Ha as [<-|Ha]; [|now apply IH].
  rewrite Forall_forall in Hall. apply Hall, in_or_app. now right.
Qed.

Lemma NoDup_firstn {A} (n : nat) (l : list A) :
  NoDup l -> NoDup (firstn n l).
Proof.
  intros H. rewrite <- (firstn_skipn n l) in H.
  now apply LruFacts.NoDup_app_inv in H as (H & _).
Qed.

Lemma In_firstn {A} (n : nat) (l : list A) (x : A) :
  In x (firstn n l) -> In x l.
Proof.
  intros H. rewrite <- (firstn_skipn n l). apply in_or_app. now left.
Qed.

Lemma delete_size {V} (k : string) (m : JsMap.t V) (v : V) :
  NoDup (JsMap.keys m) -> JsMap.get k m = Some v ->
  S (JsMap.size (JsMap.delete k m)) = JsMap.size m.
Proof.
  intros Hnd Hget. rewrite !JsMapFacts.size_keys, JsMapFacts.keys_delete.
  apply LruFacts.remove_length; [exact Hnd|].
  apply JsMapFacts.get_Some_keys. now exists v.
Qed.

Lemma delete_keys_NoDup {V} (k : string) (m : JsMap.t V) :
  NoDup (JsMap.keys m) -> NoDup (JsMap.keys (JsMap.delete k m)).
Proof.
  intros H. rewrite JsMapFacts.keys_delete. now apply LruFacts.remove_NoDup.
Qed.

Lemma has_get {V} (k : string) (m : JsMap.t V) :
  JsMap.has k m = true <-> JsMap.get k m <> None.
Proof.
  unfold JsMap.has. destruct (JsMap.get k m); split; congruence.
Qed.

(** The removal loop of [evictOldTextures] over entries with distinct
    URLs. *)
Lemma evictLoop_exact (L : list (string * Q)) :
  forall s,
    NoDup (map fst L) -> NoDup (JsMap.keys (textureCache s)) ->
    JsMap.size (textureCache (fold_left evictEntry L s))
    + List.length (filter (fun e => JsMap.has (fst e) (textureCache s)) L)
    = JsMap.size (textureCache s)
    /\ (forall w, In w (map fst L) ->
                  JsMap.get w (textureCache (fold_left evictEntry L s))
                  = None)
    /\ (forall w, ~ In w (map fst L) ->
                  JsMap.get w (textureCache (fold_left evictEntry L s))
                  = JsMap.get w (textureCache s))
    /\ disposed (effects (fold_left evictEntry L s))
       = disposed (effects s)
           ++ flat_map (fun e => match JsMap.get (fst e) (textureCache s) with
                                 | Some tex => [tex]
                                 | None => []
                                 end) L
    /\ (forall w, JsMap.get w (textureCache s) = None ->
                  JsMap.get w (textureLastUsed (fold_left evictEntry L s))
                  = JsMap.get w (textureLastUsed s))
    /\ (forall w, In w (map fst L) ->
                  JsMap.get w (textureCache s) <> None ->
                  JsMap.get w (textureLastUsed (fold_left evictEntry L s))
                  = None).
Proof.
  induction L as [|e L IH]; intros s HndL Hnd.
  - cbn. rewrite app_nil_r. repeat split; auto; try lia; intros w [].
  - cbn [map] in HndL. apply NoDup_cons_iff in HndL as [HeL HndL].
    cbn [fold_left filter flat_map map].
    destruct (evictLoop_frame L (evictEntry s e)) as (_ & _ & _ & _ & _ & _ & _ & Hnone).
    unfold evictEntry in *.
    destruct (JsMap.get (fst e) (textureCache s)) as [tex|] eqn:E.
    + set (s1 := withEffects _ _) in *.
      assert (C1 : textureCache s1 = JsMap.delete (fst e) (textureCache s))
        by reflexivity.
      assert (C2 : textureLastUsed s1
                   = JsMap.delete (fst e) (textureLastUsed s))
        by reflexivity.
      assert (C3 : disposed (effects s1) = disposed (effects s) ++ [tex])
        by reflexivity.
      clearbody s1.
      destruct (IH s1 HndL) as (H1 & H2 & H3 & H4 & H5 & H6).
      { rewrite C1. now apply delete_keys_NoDup. }
      assert (Hother : forall e', In e' L ->
                JsMap.get (fst e') (textureCache s1)
                = JsMap.get (fst e') (textureCache s)).
      { intros e' He'. rewrite C1. apply JsMapFacts.get_delete_other.
        intros Heq. apply HeL. rewrite <- Heq. now apply in_map. }
      assert (Hf : filter (fun e0 => JsMap.has (fst e0) (textureCache s1)) L
                   = filter (fun e0 => JsMap.has (fst e0) (textureCache s)) L).
      { apply filter_ext_in. intros e' He'. unfold JsMap.has.
        now rewrite Hother. }
      assert (Hfm : flat_map (fun e0 => match JsMap.get (fst e0) (textureCache s1) with
                                        | Some t => [t]
                                        | None => []
                                        end) L
                    = flat_map (fun e0 => match JsMap.get (fst e0) (textureCache s) with
                                          | Some t => [t]
                                          | None => []
                                          end) L).
      { clear - Hother. induction L as [|a L IHL]; [reflexivity|].
        cbn [flat_map]. rewrite Hother by now left.
        rewrite IHL; [reflexivity|]. intros e' He'. apply Hother. now right. }
      assert (Hhas : JsMap.has (fst e) (textureCache s) = true)
        by (apply has_get; congruence).
      rewrite Hhas. cbn [List.length].
      pose proof (delete_size (fst e) (textureCache s) tex Hnd E) as Hsz.
      rewrite Hf, C1 in H1. rewrite Hfm, C3 in H4.
      split; [lia|]. split; [|split; [|split; [|split]]].
      * intros w [<-|Hw]; [|now apply H2].
        apply Hnone. rewrite C1. apply JsMapFacts.get_delete_same.
      * intros w Hw. rewrite H3 by (intros Hin; apply Hw; now right).
        rewrite C1.
        apply JsMapFacts.get_delete_other. intros ->. apply Hw. now left.
      * now rewrite H4, <- app_assoc.
      * intros w Hw. rewrite H5.
        -- rewrite C2. apply JsMapFacts.get_delete_other.
           intros ->. congruence.
        -- rewrite C1. now apply get_delete_None.
      * intros w [<-|Hw] Hc.
        -- rewrite H5; [rewrite C2; apply JsMapFacts.get_delete_same|].
           rewrite C1. apply JsMapFacts.get_delete_same.
        -- apply H6; [exact Hw|].
           destruct (in_map_iff fst L w) as [Hex _].
           destruct (Hex Hw) as (e' & <- & He'). now rewrite Hother.
    + destruct (IH s HndL Hnd) as (H1 & H2 & H3 & H4 & H5 & H6).
      assert (Hhas : JsMap.has (fst e) (textureCache s) = false)
        by (unfold JsMap.has; now rewrite E).
      rewrite Hhas. split; [exact H1|]. split; [|split; [|split; [|split]]].
      * intros w [<-|Hw]; [now apply Hnone|now apply H2].
      * intros w Hw. apply H3. intros Hin. apply Hw. now right.
      * exact H4.
      * exact H5.
      * intros w [<-|Hw] Hc; [congruence|now apply H6].
Qed.

Lemma candidates_NoDup (s : State) :
  NoDup (JsMap.keys (textureLastUsed s)) ->
  NoDup (map fst (evictionCandidates s)).
Proof.
  intros H. unfold evictionCandidates. rewrite <- firstn_map.
  apply NoDup_firstn.
  eapply Permutation_NoDup; [|exact H].
  apply Permutation_map. symmetry. apply sortBy_perm_any.
Qed.

Lemma evictOldTextures_loop (s : State) :
  evictOldTextures s = fold_left evictEntry (evictionCandidates s) s.
Proof.
  unfold evictOldTextures, evictionCandidates.
  destruct (JsMap.size (textureCache s) <=? MAX_CACHE_SIZE) eqn:E;
    [|reflexivity].
  apply Nat.leb_le in E.
  replace (JsMap.size (textureCache s) - MAX_CACHE_SIZE) with 0 by lia.
  reflexivity.
Qed.

(** X18.  [evictOldTextures] walks through the [size - MAX_CACHE_SIZE]
    oldest timestamps and removes those of them that are cached, each
    once, disposing of its texture; every other cache entry stays, and the
    timestamp of a URL that is not cached is never removed.  So the cache
    ends at MAX_CACHE_SIZE exactly when all these timestamps belong to
    cached URLs, and above it otherwise. *)
Theorem eviction_removes_oldest_cached :
  forall s : State,
    NoDup (JsMap.keys (textureCache s)) ->
    NoDup (JsMap.keys (textureLastUsed s)) ->
    let s' := evictOldTextures s in
    let cached (e : string * Q) := JsMap.has (fst e) (textureCache s) in
    (JsMap.size (textureCache s) <= MAX_CACHE_SIZE -> s' = s)
    /\ JsMap.size (textureCache s')
       + List.length (filter cached (evictionCandidates s))
       = JsMap.size (textureCache s)
    /\ (forall w,
          JsMap.get w (textureCache s')
          = if in_dec string_dec w (map fst (evictionCandidates s))
            then None else JsMap.get w (textureCache s))
    /\ disposed (effects s')
       = disposed (effects s)
           ++ flat_map (fun e => match JsMap.get (fst e) (textureCache s) with
                                 | Some tex => [tex]
                                 | None => []
                                 end) (evictionCandidates s)
    /\ (forall e e',
          In e (evictionCandidates s) -> In e' (textureLastUsed s) ->
          ~ In e' (evictionCandidates s) -> (snd e <= snd e')%Q)
    /\ (forall w, JsMap.get w (textureCache s) = None ->
                  JsMap.get w (textureLastUsed s')
                  = JsMap.get w (textureLastUsed s))
    /\ (MAX_CACHE_SIZE < JsMap.size (textureCache s) ->
        JsMap.size (textureCache s) - MAX_CACHE_SIZE
        <= JsMap.size (textureLastUsed s) ->
        (forall e, In e (evictionCandidates s) -> cached e = true) ->
        JsMap.size (textureCache s') = MAX_CACHE_SIZE).
Proof.
  intros s Hnd Hndl s' cached. subst cached. cbv beta.
  assert (Es : s' = fold_left evictEntry (evictionCandidates s) s)
    by apply evictOldTextures_loop.
  destruct (evictLoop_exact (evictionCandidates s) s
                            (candidates_NoDup s Hndl) Hnd)
    as (H1 & H2 & H3 & H4 & H5 & _).
  rewrite <- Es in H1, H2, H3, H4, H5.
  split; [|split; [exact H1|split; [|split; [exact H4|split; [|split]]]]].
  - intros Hle. subst s'. unfold evictOldTextures.
    apply Nat.leb_le in Hle. now rewrite Hle.
  - intros w.
    destruct (in_dec string_dec w (map fst (evictionCandidates s)));
      [now apply H2|now apply H3].
  - intros e e' He He' Hn.
    set (sorted := JsArray.sortBy
                     (fun a b : string * Q => Qltb (snd a) (snd b))
                     (textureLastUsed s)).
    set (k := JsMap.size (textureCache s) - MAX_CACHE_SIZE).
    assert (Hs : StronglySorted (fun a b : string * Q => (snd a <= snd b)%Q)
                                (firstn k sorted ++ skipn k sorted)).
    { rewrite firstn_skipn. apply (sortBy_sorted_Q snd). }
    apply (sorted_app_le _ _ _ Hs); [exact He|].
    assert (Hin : In e' sorted).
    { apply (Permutation_in e' (Permutation_sym (sortBy_perm_any _ _))).
      exact He'. }
    rewrite <- (firstn_skipn k sorted) in Hin.
    apply in_app_or in Hin as [Hin|Hin]; [contradiction|exact Hin].
  - exact H5.
  - intros Hover Hlen Hall.
    assert (Hf : filter (fun e => JsMap.has (fst e) (textureCache s))
                        (evictionCandidates s) = evictionCandidates s).
    { clear - Hall. induction (evictionCandidates s) as [|a l IH];
        [reflexivity|].
      cbn [filter]. rewrite (Hall a) by now left.
      f_equal. apply IH. intros e He. apply Hall. now right. }
    rewrite Hf in H1.
    assert (Hk : List.length (evictionCandidates s)
                 = JsMap.size (textureCache s) - MAX_CACHE_SIZE).
    { unfold evictionCandidates. rewrite length_firstn.
      rewrite (Permutation_length (sortBy_perm_any _ _)).
      unfold JsMap.size in *. lia. }
    unfold JsMap.size in *. lia.
Qed.

Lemma poseUrl_inj (a b : nat) :
Examples.poseUrl a = Examples.poseUrl b -> a = b.
Proof.
  unfold Examples.poseUrl. intros E.
  apply (f_equal (fun s => substring 12 (String.length s - 12) s)) in E.
  assert (Hsub : forall s : string,
             substring 12 (String.length ("/poses/pose-" ++ s) - 12)
                       ("/poses/pose-" ++ s) = s).
  { intros s. cbn [append String.length Nat.sub substring].
    rewrite Nat.sub_0_r. clear.
    induction s as [|c s IH]; [reflexivity|].
    cbn [String.length substring]. now rewrite IH. }
  rewrite !Hsub in E. clear Hsub.
  assert (Hdot : forall z, ~ occurs "."%char (Utils.numberToString z)).
  { intros z H. apply ChunkKeyFacts.numberToString_chars in H as [H|H];
      [|discriminate].
    unfold isDigit in H. cbn in H.
    repeat (destruct H as [H|H]; [discriminate|]). exact H. }
  apply (ChunkKeyFacts.split_at_separator "."%char) in E as [E _];
    [|apply Hdot|apply Hdot].
  apply ChunkKeyFacts.numberToString_inj in E. now apply Nat2Z.inj.
Qed.

Lemma cachedPoses_keys (n : nat) :
  JsMap.keys (textureCache (Examples.cachedPoses n))
  = map Examples.poseUrl (seq 1 n)
  /\ JsMap.keys (textureLastUsed (Examples.cachedPoses n))
     = map Examples.poseUrl (seq 1 n).
Proof.
  unfold JsMap.keys, Examples.cachedPoses. cbn [textureCache textureLastUsed].
  rewrite !map_map. split; apply map_ext; reflexivity.
Qed.

Lemma cachedPoses_facts (n : nat) :
  NoDup (JsMap.keys (textureCache (Examples.cachedPoses n)))
  /\ NoDup (JsMap.keys (textureLastUsed (Examples.cachedPoses n)))
  /\ JsMap.size (textureCache (Examples.cachedPoses n)) = n
  /\ JsMap.size (textureLastUsed (Examples.cachedPoses n)) = n
  /\ forall e, In e (evictionCandidates (Examples.cachedPoses n)) ->
               JsMap.has (fst e) (textureCache (Examples.cachedPoses n))
               = true.
Proof.
  destruct (cachedPoses_keys n) as [Kc Kl].
  assert (Hnd : NoDup (map Examples.poseUrl (seq 1 n))).
  { apply Finite.Injective_map_NoDup; [|apply seq_NoDup].
    intros a b. apply poseUrl_inj. }
  split; [rewrite Kc; exact Hnd|]. split; [rewrite Kl; exact Hnd|].
  split; [now rewrite JsMapFacts.size_keys, Kc, length_map, length_seq|].
  split; [now rewrite JsMapFacts.size_keys, Kl, length_map, length_seq|].
  intros e He. apply has_get.
  unfold evictionCandidates in He. apply In_firstn in He.
  apply (Permutation_in e (sortBy_perm_any _ _)) in He.
  apply (in_map fst) in He.
  change (map fst (textureLastUsed (Examples.cachedPoses n)))
    with (JsMap.keys (textureLastUsed (Examples.cachedPoses n))) in He.
  rewrite Kl, <- Kc in He.
  apply JsMapFacts.get_Some_keys in He as [v Hv]. congruence.
Qed.

Lemma eviction_witness :
  NoDup (JsMap.keys (textureCache (Examples.cachedPoses 751)))
  /\ NoDup (JsMap.keys (textureLastUsed (Examples.cachedPoses 751)))
  /\ JsMap.size (textureCache (evictOldTextures (Examples.cachedPoses 751)))
     = MAX_CACHE_SIZE.
Proof.
  destruct (cachedPoses_facts 751) as (H1 & H2 & Sc & Sl & Hall).
  split; [exact H1|]. split; [exact H2|].
  apply (proj2 (proj2 (proj2 (proj2 (proj2 (proj2
           (eviction_removes_oldest_cached
              (Examples.cachedPoses 751) H1 H2))))))).
  - rewrite Sc. exact (Nat.lt_succ_diag_r 750).
  - rewrite Sc, Sl. apply Nat.leb_le. vm_compute. reflexivity.
  - exact Hall.
Defined.

(** *** Textures created, cached and disposed of *)














(** *** [preloadTextures] *)




(** X28.  In any state the module can be in, when the load of a URL
    settles successfully the callbacks registered for the URL, and no
    others, are invoked: once each, in the order of registration, with the
    one texture created from the bitmap.  The callbacks of the URL are
    then forgotten, those of other URLs stay. *)
Theorem settled_load_serves_its_callbacks :
  forall (evs : list Event) (u : string) (t : Q),
    let s := run evs initialState in
    In u (loadingUrls s) ->
    let s1 := step s (LoadSettled u true t) in
    invoked (effects s1)
    = invoked (effects s)
        ++ map (fun cb => (cb, mkTexture (created (effects s)) true))
               (callbacksOf u s)
    /\ NoDup (callbacksOf u s)
    /\ callbacksOf u s1 = []
    /\ (forall w, w <> u -> callbacksOf w s1 = callbacksOf w s)
    /\ created (effects s1) = S (created (effects s))
    /\ ~ In u (loadingUrls s1).
Proof.
  intros evs u t s Hin s1.
  pose proof (reachable_tidy evs) as Ht. fold s in Ht.
  pose proof Ht as ((Hnd & Hdis & Hcb) & _).
  assert (E1 : s1 = processQueue (afterAwait u true t s)).
  { subst s1. cbn [step]. now apply settle_resumes. }
  pose proof (afterAwait_tidy u true t s Ht Hin)
    as ((_ & Hdis' & _) & _ & _ & _ & _ & _ & _ & Hunc').
  destruct (afterAwait_frame u true t s) as (A1 & A2 & _ & _ & _ & _ & A7).
  destruct (afterAwait_shape u true t s) as (_ & _ & _ & _ & A5 & _).
  specialize (A7 eq_refl).
  destruct (processQueueFrom_plain (loadQueue (afterAwait u true t s))
                                   (afterAwait u true t s))
    as (Q1 & Q2 & _).
  { intros d Hd. apply uncached_not_ready, Hunc'. now right. }
  destruct (processQueueFrom_spec (loadQueue (afterAwait u true t s))
                                  (afterAwait u true t s))
    as (dropped & started & rest & Hsplit & _ & _ & _ & _ & P2 & _ & _
        & _ & P6 & _).
  fold (processQueue (afterAwait u true t s)) in Q1, Q2, P2, P6.
  rewrite <- E1 in Q1, Q2, P2, P6.
  split; [now rewrite Q2, A7|]. split; [apply Hcb|].
  assert (Hcbs : forall w, callbacksOf w s1
                           = if string_dec w u then [] else callbacksOf w s).
  { intros w. unfold callbacksOf. rewrite Q1, A5.
    destruct (string_dec w u) as [->|Hne].
    - now rewrite JsMapFacts.get_delete_same.
    - now rewrite JsMapFacts.get_delete_other. }
  split; [rewrite Hcbs; now destruct (string_dec u u)|].
  split; [intros w Hne; rewrite Hcbs; now destruct (string_dec w u)|].
  split.
  { rewrite P6. unfold afterAwait. cbv zeta.
    match goal with
    | |- context [flushCallbacks u ?tex ?s2] =>
        destruct (flushCallbacks_frame u tex s2)
          as (_ & _ & _ & _ & _ & _ & _ & F8 & _);
        destruct (evictOldTextures_frame (flushCallbacks u tex s2))
          as (_ & _ & _ & _ & _ & G6 & _)
    end.
    cbn [effects withLoading]. rewrite G6, F8. reflexivity. }
  rewrite P2, A2. intros H. apply in_app_or in H as [H|H].
  - apply In_filter_out in H as [_ H]. now apply H.
  - apply (Hdis u); [|exact Hin].
    rewrite <- A1, Hsplit, !in_app_iff. tauto.
Qed.

Lemma settled_load_witness :
  In (Examples.poseUrl 1)
     (loadingUrls (run [GetTexture (Examples.pose 1) (Some (OnLoad 1)) 0%Q]
                       initialState))
  /\ invoked
       (effects
          (step (run [GetTexture (Examples.pose 1) (Some (OnLoad 1)) 0%Q]
                     initialState)
                (LoadSettled (Examples.poseUrl 1) true 1%Q)))
     = invoked
         (effects (run [GetTexture (Examples.pose 1) (Some (OnLoad 1)) 0%Q]
                       initialState))
         ++ map (fun cb =>
                   (cb,
                    mkTexture
                      (created
                         (effects
                            (run [GetTexture (Examples.pose 1)
                                             (Some (OnLoad 1)) 0%Q]
                                 initialState))) true))
                (callbacksOf (Examples.poseUrl 1)
                   (run [GetTexture (Examples.pose 1) (Some (OnLoad 1)) 0%Q]
                        initialState)).
Proof.
  assert (Hin : In (Examples.poseUrl 1)
                   (loadingUrls
                      (run [GetTexture (Examples.pose 1) (Some (OnLoad 1)) 0%Q]
                           initialState)))
    by (vm_compute; now left).
  split; [exact Hin|].
  exact (proj1 (settled_load_serves_its_callbacks
                  [GetTexture (Examples.pose 1) (Some (OnLoad 1)) 0%Q]
                  (Examples.poseUrl 1) 1%Q Hin)).
Defined.

(** *** Two concurrent requests *)








End TextureReachFacts.

(** ** Camera motion, rendering and overscan preloading *)

Module MotionFacts.
Import Utils Constants Notions CameraMotion.
Open Scope Q_scope.

Lemma clamped_speed (value : Q) :
  - MAX_VELOCITY <= clamp value (- MAX_VELOCITY) MAX_VELOCITY <= MAX_VELOCITY.
Proof.
  apply UtilsFacts.clamp_bounds. unfold MAX_VELOCITY. lra.
Qed.

Lemma smoothed_speed (v t : Q) :
  - MAX_VELOCITY <= v <= MAX_VELOCITY ->
  - MAX_VELOCITY <= t <= MAX_VELOCITY ->
  - MAX_VELOCITY <= lerp v t VELOCITY_LERP <= MAX_VELOCITY.
Proof.
  unfold lerp, VELOCITY_LERP, MAX_VELOCITY. intros Hv Ht. lra.
Qed.

Lemma moveFrame_velocity (k : Keys) (s : MotionState) :
  within MAX_VELOCITY (velocity s) ->
  within MAX_VELOCITY (velocity (moveFrame k s)).
Proof.
  intros (Hx & Hy & Hz). unfold within, moveFrame.
  cbn [velocity ax ay az].
  repeat split; apply smoothed_speed; auto using clamped_speed;
    apply clamped_speed.
Qed.

Lemma step_velocity (s : MotionState) (i : Input) :
  within MAX_VELOCITY (velocity s) ->
  within MAX_VELOCITY (velocity (step s i)).
Proof.
  destruct i; cbn [step velocity]; auto. apply moveFrame_velocity.
Qed.

Lemma run_velocity (inputs : list Input) :
  forall s, within MAX_VELOCITY (velocity s) ->
            within MAX_VELOCITY (velocity (run inputs s)).
Proof.
  unfold run. induction inputs as [|i inputs IH]; intros s H; [exact H|].
  cbn [fold_left]. apply IH. now apply step_velocity.
Qed.

Lemma chunkCoord_step (p v : Q) :
  - MAX_VELOCITY <= v <= MAX_VELOCITY ->
  (SceneController.chunkCoord p - 1
   <= SceneController.chunkCoord (p + v)
   <= SceneController.chunkCoord p + 1)%Z.
Proof.
  unfold SceneController.chunkCoord, MAX_VELOCITY, CHUNK_SIZE. intros Hv.
  set (x := p / inject_Z 110). set (y := (p + v) / inject_Z 110).
  assert (Hxy : x - 1 <= y <= x + 1).
  { subst x y. unfold Qdiv.
    assert (E : / inject_Z 110 == 1 # 110) by reflexivity.
    rewrite E. lra. }
  pose proof (Qfloor_le x) as Hx1. pose proof (Qlt_floor x) as Hx2.
  pose proof (Qfloor_le y) as Hy1. pose proof (Qlt_floor y) as Hy2.
  rewrite inject_Z_plus in Hx2, Hy2.
  split.
  - assert (H : inject_Z (Qfloor x) < inject_Z (Qfloor y + 2)).
    { rewrite inject_Z_plus. change (inject_Z 2) with 2.
      change (inject_Z 1) with 1 in *. lra. }
    rewrite <- Zlt_Qlt in H. lia.
  - assert (H : inject_Z (Qfloor y) < inject_Z (Qfloor x + 2)).
    { rewrite inject_Z_plus. change (inject_Z 2) with 2.
      change (inject_Z 1) with 1 in *. lra. }
    rewrite <- Zlt_Qlt in H. lia.
Qed.

(** X19.  Whatever the keys, the pointer, the wheel and the touches do,
    the camera never moves faster than MAX_VELOCITY along an axis: each
    frame moves [basePos] by the frame's velocity, which stays within
    [-MAX_VELOCITY, MAX_VELOCITY], and leaves a target velocity within
    MAX_VELOCITY * VELOCITY_DECAY.  So the camera's chunk coordinates
    change by one at most from a frame to the next. *)
Theorem camera_speed_is_bounded :
  forall (camZ : Q) (inputs : list Input) (k : Keys),
    let s := run inputs (createInitialState camZ) in
    let s' := moveFrame k s in
    within MAX_VELOCITY (velocity s)
    /\ within MAX_VELOCITY (velocity s')
    /\ within (MAX_VELOCITY * VELOCITY_DECAY) (targetVel s')
    /\ ax (basePos s') == ax (basePos s) + ax (velocity s')
    /\ ay (basePos s') == ay (basePos s) + ay (velocity s')
    /\ az (basePos s') == az (basePos s) + az (velocity s')
    /\ (let '(cx, cy, cz) := chunkOf s in
        let '(cx', cy', cz') := chunkOf s' in
        (Z.abs (cx' - cx) <= 1 /\ Z.abs (cy' - cy) <= 1
         /\ Z.abs (cz' - cz) <= 1)%Z).
Proof.
  intros camZ inputs k s s'.
  assert (H0 : within MAX_VELOCITY (velocity s)).
  { apply run_velocity. unfold within, MAX_VELOCITY. cbn. lra. }
  pose proof (moveFrame_velocity k s H0) as H1. fold s' in H1.
  split; [exact H0|]. split; [exact H1|]. split.
  { unfold within, s', moveFrame. cbn [targetVel ax ay az].
    unfold VELOCITY_DECAY.
    repeat split;
      match goal with
      | |- context [clamp ?v _ _] =>
          pose proof (clamped_speed v); unfold MAX_VELOCITY in *; lra
      end. }
  split; [reflexivity|]. split; [reflexivity|]. split; [reflexivity|].
  destruct H1 as (Hx & Hy & Hz).
  unfold chunkOf.
  change (ax (basePos s')) with (ax (basePos s) + ax (velocity s')).
  change (ay (basePos s')) with (ay (basePos s) + ay (velocity s')).
  change (az (basePos s')) with (az (basePos s) + az (velocity s')).
  pose proof (chunkCoord_step (ax (basePos s)) _ Hx).
  pose proof (chunkCoord_step (ay (basePos s)) _ Hy).
  pose proof (chunkCoord_step (az (basePos s)) _ Hz).
  repeat split; lia.
Qed.

(** X27.  [getTouchDistance] is 0 for fewer than two touches; otherwise
    it is the Euclidean distance of the first two touches, whatever
    touches follow: not negative, the same in either order, and 0 exactly
    when the two touches coincide. *)
Theorem getTouchDistance_is_a_distance :
  forall (touches rest : list (R * R)) (t1 t2 : R * R),
    (0 <= getTouchDistance touches)%R
    /\ ((List.length touches < 2)%nat -> getTouchDistance touches = 0%R)
    /\ getTouchDistance (t1 :: t2 :: rest) = getTouchDistance [t1; t2]
    /\ getTouchDistance [t1; t2] = getTouchDistance [t2; t1]
    /\ (getTouchDistance [t1; t2] * getTouchDistance [t1; t2]
        = (fst t1 - fst t2) * (fst t1 - fst t2)
          + (snd t1 - snd t2) * (snd t1 - snd t2))%R
    /\ (getTouchDistance [t1; t2] = 0%R <-> t1 = t2).
Proof.
  intros touches rest t1 t2.
  assert (Hsq : forall a b : R, (0 <= a * a + b * b)%R) by (intros; nra).
  split; [|split; [|split; [reflexivity|split; [|split]]]].
  - destruct touches as [|a [|b l]]; cbn [getTouchDistance];
      try apply Rle_refl. apply sqrt_pos.
  - destruct touches as [|a [|b l]]; cbn [getTouchDistance List.length];
      try reflexivity. intros H. exfalso. lia.
  - cbn [getTouchDistance]. f_equal. ring.
  - cbn [getTouchDistance]. apply sqrt_sqrt, Hsq.
  - cbn [getTouchDistance]. split.
    + intros H. apply sqrt_eq_0 in H; [|apply Hsq].
      destruct t1 as [x1 y1], t2 as [x2 y2]. cbn [fst snd] in H.
      destruct (Rplus_sqr_eq_0 (x1 - x2) (y1 - y2) H) as [Hx Hy].
      f_equal; lra.
    + intros ->. replace ((fst t2 - fst t2) * (fst t2 - fst t2)
                          + (snd t2 - snd t2) * (snd t2 - snd t2))%R
        with 0%R by ring.
      apply sqrt_0.
Qed.

End MotionFacts.

Module RenderFacts.
Import Constants ChunkUtils SceneController Notions.
Open Scope Z_scope.

Lemma renderPlane_cases (media : list MediaItem) (p : PlaneData) :
  (media = [] /\ renderPlane media p = None)
  \/ (media <> []
      /\ Z.rem (mediaIndex p) (Z.of_nat (List.length media)) < 0
      /\ renderPlane media p = None)
  \/ (media <> []
      /\ 0 <= Z.rem (mediaIndex p) (Z.of_nat (List.length media))
      /\ exists item,
           nth_error media
             (Z.to_nat (Z.rem (mediaIndex p) (Z.of_nat (List.length media))))
           = Some item
           /\ renderPlane media p = Some (item, p)).
Proof.
  unfold renderPlane, arrayGet, jsRem.
  destruct media as [|m media]; [now left|]. right.
  set (len := Z.of_nat (List.length (m :: media))).
  assert (Hlen : 0 < len) by (subst len; cbn [List.length]; lia).
  destruct (Z.eqb_spec len 0) as [E|_]; [lia|].
  destruct (Z.ltb_spec (Z.rem (mediaIndex p) len) 0) as [Hneg|Hpos].
  - left. repeat split; [discriminate|exact Hneg].
  - right. split; [discriminate|]. split; [exact Hpos|].
    pose proof (Z.rem_bound_abs (mediaIndex p) len ltac:(lia)) as Hb.
    destruct (nth_error (m :: media) (Z.to_nat (Z.rem (mediaIndex p) len)))
      as [item|] eqn:En.
    + now exists item.
    + apply nth_error_None in En. subst len. lia.
Qed.

(** X20.  A plane of a chunk is skipped ([return null]) exactly when the
    media list is empty (the index is then NaN) or its media index is
    negative with a non-zero remainder; otherwise it is rendered with the
    media item at the remainder.  With no media a chunk renders
    nothing. *)
Theorem renderPlane_skips :
  forall (media : list MediaItem) (p : PlaneData) (planes : list PlaneData),
    (renderPlane media p = None <->
     media = []
     \/ Z.rem (mediaIndex p) (Z.of_nat (List.length media)) < 0)
    /\ (forall item q,
          renderPlane media p = Some (item, q) ->
          q = p
          /\ nth_error media
               (Z.to_nat (Z.rem (mediaIndex p)
                                (Z.of_nat (List.length media))))
             = Some item)
    /\ renderChunk [] planes = map (fun _ => None) planes.
Proof.
  intros media p planes. split; [|split].
  - destruct (renderPlane_cases media p)
      as [[E H]|[(Hne & Hneg & H)|(Hne & Hpos & item & _ & H)]].
    + tauto.
    + tauto.
    + rewrite H. split; [discriminate|]. intros [E|E]; [contradiction|lia].
  - intros item q Hr.
    destruct (renderPlane_cases media p)
      as [[E H]|[(Hne & Hneg & H)|(Hne & Hpos & item' & Hn & H)]];
      rewrite H in Hr; try discriminate.
    injection Hr as <- <-. now split.
  - unfold renderChunk. apply map_ext. intros q. reflexivity.
Qed.

Lemma chunkFrame_current (f : FrameInput) (s : ControllerState) :
  consistent s ->
  lastChunkKey (fst (chunkFrame f s)) = frameKey f
  /\ (forall c, pendingChunk (fst (chunkFrame f s)) = Some c ->
                c = frameChunk f)
  /\ (forall cs, snd (chunkFrame f s) = Some cs ->
                 cs = (let '(x, y, z) := frameChunk f in
                       SceneController.chunksAround x y z)).
Proof.
  intros Hc. unfold chunkFrame.
  pose proof (SceneControllerFacts.boundaryCheck_key f s) as Hk.
  pose proof (SceneControllerFacts.boundaryCheck_pending f s) as Hp.
  destruct (pendingChunk (boundaryCheck f s)) as [[[x y] z]|] eqn:E.
  - specialize (Hp (x, y, z) Hc eq_refl).
    destruct (shouldThrottleUpdate _ _ _); cbn [fst snd lastChunkKey pendingChunk].
    + split; [exact Hk|]. split; [discriminate|].
      intros cs [= <-]. now rewrite <- Hp.
    + split; [exact Hk|]. split; [|discriminate].
      rewrite E. now intros c [= <-].
  - cbn [fst snd]. split; [exact Hk|]. rewrite E. split; discriminate.
Qed.

(** X21.  At every frame, whatever frames came before: [lastChunkKey]
    is the key of the chunk the camera is in; a pending chunk, if any, is
    that chunk; and whenever the frame calls [setChunks], it hands over
    the 343 chunks around that chunk, the camera's own chunk first:
    never a set centred on a chunk the camera has left. *)
Theorem applied_chunks_are_current :
  forall (fs : list FrameInput) (f : FrameInput),
    let s := fst (runFrames fs createInitialState) in
    let '(x, y, z) := frameChunk f in
    lastChunkKey (fst (chunkFrame f s)) = chunkKey x y z
    /\ (forall c, pendingChunk (fst (chunkFrame f s)) = Some c ->
                  c = (x, y, z))
    /\ (forall cs, snd (chunkFrame f s) = Some cs ->
          cs = chunksAround x y z
          /\ map chunkOffset cs
             = map (fun o => mkOffset (x + dx o) (y + dy o) (z + dz o))
                   CHUNK_OFFSETS
          /\ List.length cs = 343%nat
          /\ hd_error cs = Some (mkChunk (chunkKey x y z) x y z)).
Proof.
  intros fs f s.
  assert (Hc : consistent s).
  { apply SceneControllerFacts.runFrames_consistent. exact I. }
  destruct (chunkFrame_current f s Hc) as (H1 & H2 & H3).
  unfold frameKey in H1.
  destruct (frameChunk f) as [[x y] z].
  split; [exact H1|]. split; [exact H2|].
  intros cs Hcs. specialize (H3 cs Hcs). subst cs.
  split; [reflexivity|].
  unfold chunksAround. rewrite map_map, length_map.
  split; [apply map_ext; reflexivity|].
  split; [apply OffsetFacts.active_length|].
  pose proof OffsetFacts.active_hd as Hhd.
  destruct CHUNK_OFFSETS as [|o l]; [discriminate|].
  injection Hhd as ->. cbn [map hd_error dx dy dz].
  now rewrite !Z.add_0_r.
Qed.

End RenderFacts.
Module OverscanFacts.
Import Constants ChunkUtils SceneController CameraMotion Overscan Notions.
Open Scope nat_scope.

Arguments generateChunkPlanesCached : simpl never.

Lemma sortedOffsets_perm (v : Axes) :
  Permutation (sortedOffsets v) PRELOAD_CHUNK_OFFSETS.
Proof. unfold sortedOffsets. apply TextureReachFacts.sortBy_perm_any. Qed.

Lemma mediaSlot_range (media : list MediaItem) (plane : PlaneData) (i : nat) :
  mediaSlot media plane = Some i -> i < List.length media.
Proof.
  unfold mediaSlot. destruct (jsRem _ _) as [r|]; [|discriminate].
  destruct (r <? 0)%Z; [discriminate|].
  destruct (Nat.ltb_spec (Z.to_nat r) (List.length media)); [|discriminate].
  now intros [= <-].
Qed.

Lemma collectPlane_ok (media : list MediaItem) (items : list nat)
      (plane : PlaneData) :
  NoDup items /\ Forall (fun i => i < List.length media) items ->
  NoDup (collectPlane media items plane)
  /\ Forall (fun i => i < List.length media) (collectPlane media items plane).
Proof.
  intros [Hnd Hall]. unfold collectPlane.
  destruct (mediaSlot media plane) as [i|] eqn:E; [|now split].
  destruct (existsb (Nat.eqb i) items) eqn:Ex; [now split|].
  split.
  - apply NoDup_app; [exact Hnd|repeat constructor; intros []|].
    intros a Ha [E'|[]]. subst a.
    assert (Ht : existsb (Nat.eqb i) items = true).
    { apply existsb_exists. exists i. split; [exact Ha|apply Nat.eqb_refl]. }
    congruence.
  - apply Forall_app. split; [exact Hall|].
    constructor; [|constructor]. now apply (mediaSlot_range media plane).
Qed.

Lemma collectPlanes_ok (media : list MediaItem) (planes : list PlaneData) :
  forall items,
    NoDup items /\ Forall (fun i => i < List.length media) items ->
    NoDup (fold_left (collectPlane media) planes items)
    /\ Forall (fun i => i < List.length media)
              (fold_left (collectPlane media) planes items).
Proof.
  induction planes as [|p planes IH]; intros items H; [exact H|].
  cbn [fold_left]. apply IH. now apply collectPlane_ok.
Qed.

Lemma collectChunks_cache (media : list MediaItem) (cx cy cz : Z)
      (offsets : list ChunkOffset) :
  forall cache items,
    option_map fst (collectChunks media cx cy cz offsets cache items)
    = runCache (map (shifted cx cy cz) offsets) cache.
Proof.
  induction offsets as [|o offsets IH]; intros cache items; [reflexivity|].
  cbn [collectChunks map shifted runCache].
  destruct (generateChunkPlanesCached _ _ _ cache) as [[planes cache']|];
    [apply IH|reflexivity].
Qed.

Lemma collectChunks_items (media : list MediaItem) (cx cy cz : Z)
      (offsets : list ChunkOffset) :
  forall cache items cache' items',
    collectChunks media cx cy cz offsets cache items = Some (cache', items') ->
    NoDup items /\ Forall (fun i => i < List.length media) items ->
    NoDup items' /\ Forall (fun i => i < List.length media) items'.
Proof.
  induction offsets as [|o offsets IH]; intros cache items cache' items' E H.
  - cbn in E. now injection E as <- <-.
  - cbn [collectChunks] in E.
    destruct (generateChunkPlanesCached _ _ _ cache) as [[planes cache1]|];
      [|discriminate].
    apply (IH _ _ _ _ E). now apply collectPlanes_ok.
Qed.

Lemma runCache_app (a b : list (Z * Z * Z)) :
  forall cache,
    runCache (a ++ b) cache
    = match runCache a cache with
      | Some cache' => runCache b cache'
      | None => None
      end.
Proof.
  induction a as [|[[x y] z] a IH]; intros cache; [reflexivity|].
  cbn [app runCache].
  destruct (generateChunkPlanesCached x y z cache) as [[planes cache']|];
    [apply IH|reflexivity].
Qed.

Lemma recency_app_distinct (k0 k1 : list string) :
  NoDup k1 -> exists pre, recency (k0 ++ k1) = pre ++ k1.
Proof.
  induction k1 as [|k k1 IH] using rev_ind; intros Hnd.
  - exists (recency k0). now rewrite !app_nil_r.
  - apply LruFacts.NoDup_app_inv in Hnd as (Hnd & _ & Hk).
    destruct (IH Hnd) as [pre Hpre].
    exists (remove string_dec k pre).
    rewrite app_assoc, LruFacts.recency_snoc, Hpre. unfold touch.
    rewrite remove_app, (LruFacts.remove_absent k k1), <- app_assoc;
      [reflexivity|].
    intros Hin. apply (Hk k Hin). now left.
Qed.

Lemma lastN_app_long {A} (n : nat) (pre l : list A) :
  n <= List.length l -> lastN n (pre ++ l) = lastN n l.
Proof.
  intros Hn. unfold lastN. rewrite length_app, skipn_app.
  rewrite skipn_all2 by lia. cbn [app]. f_equal. lia.
Qed.

Lemma shifted_key_inj (cx cy cz : Z) (o o' : ChunkOffset) :
  coordKey (shifted cx cy cz o) = coordKey (shifted cx cy cz o') -> o = o'.
Proof.
  unfold coordKey, shifted. intros E.
  apply ChunkKeyFacts.chunkKey_inj in E as (Ex & Ey & Ez).
  destruct o as [a b c], o' as [a' b' c']. cbn [dx dy dz] in *.
  f_equal; lia.
Qed.

Lemma In_lastN {A} (n : nat) (l : list A) (x : A) :
  In x (lastN n l) -> In x l.
Proof.
  unfold lastN. intros H.
  rewrite <- (firstn_skipn (List.length l - n) l). apply in_or_app.
  now right.
Qed.

(** One pass of the overscan block over a plane cache with some history:
    what the cache holds afterwards. *)
Lemma pass_cache (trace0 : list (Z * Z * Z)) (cache0 : PlaneCache)
      (cx cy cz : Z) (v : Axes) :
  runCache trace0 [] = Some cache0 ->
  exists cache1,
    runCache (map (shifted cx cy cz) (sortedOffsets v)) cache0 = Some cache1
    /\ JsMap.keys cache1
       = lastN MAX_PLANE_CACHE
               (map (fun o => coordKey (shifted cx cy cz o))
                    (sortedOffsets v)).
Proof.
  intros H0.
  set (pass := map (shifted cx cy cz) (sortedOffsets v)).
  destruct (PlaneCacheFacts.runCache_lru (trace0 ++ pass))
    as (cache1 & Hrun & _ & Hkeys).
  rewrite runCache_app, H0 in Hrun.
  exists cache1. split; [exact Hrun|].
  rewrite Hkeys. unfold lruContents. rewrite map_app.
  assert (Hk1 : map coordKey pass
                = map (fun o => coordKey (shifted cx cy cz o))
                      (sortedOffsets v))
    by (subst pass; apply map_map).
  rewrite Hk1.
  assert (Hnd : NoDup (map (fun o => coordKey (shifted cx cy cz o))
                           (sortedOffsets v))).
  { apply Finite.Injective_map_NoDup.
    - intros o o'. apply shifted_key_inj.
    - eapply Permutation_NoDup;
        [symmetry; apply sortedOffsets_perm|apply OffsetFacts.preload_NoDup]. }
  destruct (recency_app_distinct (map coordKey trace0) _ Hnd) as [pre ->].
  apply lastN_app_long.
  rewrite length_map, (Permutation_length (sortedOffsets_perm v)).
  rewrite OffsetFacts.preload_length. unfold MAX_PLANE_CACHE. lia.
Qed.

Lemma collectChunks_empty_media (cx cy cz : Z) (offsets : list ChunkOffset) :
  forall cache cache' items',
    collectChunks [] cx cy cz offsets cache [] = Some (cache', items') ->
    items' = [].
Proof.
  induction offsets as [|o offsets IH]; intros cache cache' items' E.
  - cbn in E. now injection E as _ <-.
  - cbn [collectChunks] in E.
    destruct (generateChunkPlanesCached _ _ _ cache) as [[planes cache1]|];
      [|discriminate].
    assert (Ep : fold_left (collectPlane []) planes [] = []).
    { clear. induction planes as [|p planes IHp]; [reflexivity|].
      cbn [fold_left]. exact IHp. }
    rewrite Ep in E. now apply (IH _ _ _ E).
Qed.

(** X22.  When the overscan block of a frame runs (the camera is in
    another chunk than at the last pass, more than PRELOAD_THROTTLE_MS
    later), it walks through the 386 chunks of the preload shell around
    the camera.  It returns, with the preload markers set to this frame;
    the media it hands to [preloadTextures] are distinct items of the
    media list (none, and no call, for an empty list).  And since the
    shell holds more chunks than the plane cache has places, the pass
    leaves the plane cache full of shell chunks only: the planes of none
    of the 343 active chunks around the camera are cached any more. *)
Theorem overscan_pass_flushes_plane_cache :
  forall (media : list MediaItem) (trace0 : list (Z * Z * Z))
         (cache0 : PlaneCache) (t : Q) (cx cy cz : Z) (v : Axes)
         (p : PreloadState),
    runCache trace0 [] = Some cache0 ->
    chunkKey cx cy cz <> lastPreloadKey p ->
    (PRELOAD_THROTTLE_MS < t - lastPreloadUpdate p)%Q ->
    exists cache1 items,
      preloadFrame media t cx cy cz v p cache0
      = Some (mkPreloadState t (chunkKey cx cy cz), cache1, items)
      /\ JsMap.size cache1 = MAX_PLANE_CACHE
      /\ (forall k, In k (JsMap.keys cache1) ->
            exists o, In o PRELOAD_CHUNK_OFFSETS
                      /\ k = coordKey (shifted cx cy cz o))
      /\ (forall o, In o CHUNK_OFFSETS ->
            JsMap.get (coordKey (shifted cx cy cz o)) cache1 = None)
      /\ (forall l, items = Some l ->
            l <> [] /\ NoDup l
            /\ Forall (fun i => i < List.length media) l)
      /\ (media = [] -> items = None).
Proof.
  intros media trace0 cache0 t cx cy cz v p H0 Hkey Htime.
  destruct (pass_cache trace0 cache0 cx cy cz v H0) as (cache1 & Hrun & Hkeys).
  pose proof (collectChunks_cache media cx cy cz (sortedOffsets v) cache0 [])
    as Hcc.
  rewrite Hrun in Hcc.
  destruct (collectChunks media cx cy cz (sortedOffsets v) cache0 [])
    as [[cache1' items']|] eqn:Ecc; [|discriminate].
  cbn [option_map fst] in Hcc. injection Hcc as ->.
  exists cache1, (if 0 <? List.length items' then Some items' else None).
  assert (Hguard : negb (String.eqb (chunkKey cx cy cz) (lastPreloadKey p))
                   && TextureManager.Qltb PRELOAD_THROTTLE_MS
                        (t - lastPreloadUpdate p) = true).
  { apply andb_true_intro. split.
    - apply negb_true_iff. now apply String.eqb_neq.
    - unfold TextureManager.Qltb. apply negb_true_iff.
      destruct (Qle_bool (t - lastPreloadUpdate p) PRELOAD_THROTTLE_MS)
        eqn:E; [|reflexivity].
      apply Qle_bool_iff in E. exfalso.
      now apply (Qlt_not_le _ _ Htime). }
  split.
  { unfold preloadFrame. cbv zeta. rewrite Hguard, Ecc. reflexivity. }
  assert (Hin : forall k, In k (JsMap.keys cache1) ->
            exists o, In o PRELOAD_CHUNK_OFFSETS
                      /\ k = coordKey (shifted cx cy cz o)).
  { intros k Hk. rewrite Hkeys in Hk. apply In_lastN in Hk.
    destruct (proj1 (in_map_iff (fun o => coordKey (shifted cx cy cz o))
                                (sortedOffsets v) k) Hk) as (o & E & Ho).
    exists o. split; [|exact (eq_sym E)].
    exact (Permutation_in o (sortedOffsets_perm v) Ho). }
  split.
  { rewrite JsMapFacts.size_keys, Hkeys, LruFacts.lastN_length, length_map.
    rewrite (Permutation_length (sortedOffsets_perm v)).
    now rewrite OffsetFacts.preload_length. }
  split; [exact Hin|]. split; [|split].
  - intros o Ho. apply JsMapFacts.get_None. intros Hk.
    destruct (Hin _ Hk) as (o' & Ho' & E).
    apply shifted_key_inj in E. subst o'.
    pose proof (proj1 (OffsetFacts.preload_In o) Ho').
    pose proof (proj1 (OffsetFacts.active_In o) Ho). lia.
  - intros l Hl.
    destruct (Nat.ltb_spec 0 (List.length items')) as [Hpos|_];
      [|discriminate].
    injection Hl as <-.
    split; [intros E; rewrite E in Hpos; cbn in Hpos; lia|].
    apply (collectChunks_items _ _ _ _ _ _ _ _ _ Ecc).
    split; constructor.
  - intros ->. apply collectChunks_empty_media in Ecc. now rewrite Ecc.
Qed.

Lemma overscan_pass_witness :
  runCache [] [] = Some []
  /\ chunkKey 0 0 0 <> lastPreloadKey (mkPreloadState 0 "")
  /\ (PRELOAD_THROTTLE_MS < 1000 - lastPreloadUpdate (mkPreloadState 0 ""))%Q
  /\ exists cache1 items,
       preloadFrame [] 1000 0 0 0 (mkAxes 0 0 0) (mkPreloadState 0 "") []
       = Some (mkPreloadState 1000 (chunkKey 0 0 0), cache1, items)
       /\ JsMap.size cache1 = MAX_PLANE_CACHE.
Proof.
  assert (H0 : runCache [] [] = Some []) by reflexivity.
  assert (Hk : chunkKey 0 0 0 <> lastPreloadKey (mkPreloadState 0 ""))
    by (vm_compute; discriminate).
  assert (Ht : (PRELOAD_THROTTLE_MS
                < 1000 - lastPreloadUpdate (mkPreloadState 0 ""))%Q)
    by (vm_compute; reflexivity).
  split; [exact H0|]. split; [exact Hk|]. split; [exact Ht|].
  destruct (overscan_pass_flushes_plane_cache
              [] [] [] 1000 0 0 0 (mkAxes 0 0 0) (mkPreloadState 0 "")
              H0 Hk Ht) as (cache1 & items & H1 & H2 & _).
  exists cache1, items. split; [exact H1|exact H2].
Defined.

(** X23.  The eviction loop of [generateChunkPlanesCached] ends for a
    cache whose keys are all non-empty (as chunk keys are) and leaves the
    MAX_PLANE_CACHE newest entries; above capacity with an empty first
    key it deletes nothing and does not end.  [clearPlaneCache] empties
    the cache, after which every chunk is generated anew with the same
    planes. *)
Theorem evictPlanes_keeps_newest :
  forall (cache : PlaneCache) (v : list PlaneData) (x y z : Z),
    (Forall (fun k => k <> ""%string) (JsMap.keys cache) ->
     evictPlanes cache = Some (lastN MAX_PLANE_CACHE cache))
    /\ (MAX_PLANE_CACHE <= JsMap.size cache ->
        evictPlanes ((""%string, v) :: cache) = None)
    /\ generateChunkPlanesCached x y z (clearPlaneCache cache)
       = Some (generateChunkPlanes x y z,
               [(chunkKey x y z, generateChunkPlanes x y z)]).
Proof.
  intros cache v x y z. split; [|split].
  - induction cache as [|[k w] cache IH]; intros Hk; [reflexivity|].
    cbn [JsMap.keys map fst] in Hk. apply Forall_cons_iff in Hk as [Hne Hk].
    cbn [evictPlanes]. unfold JsMap.size.
    destruct (Nat.ltb_spec MAX_PLANE_CACHE (List.length ((k, w) :: cache)))
      as [Hlt|Hge].
    + destruct (String.eqb_spec k "") as [E|_]; [contradiction|].
      rewrite (IH Hk). f_equal. unfold lastN. cbn [List.length] in *.
      now replace (S (List.length cache) - MAX_PLANE_CACHE)
        with (S (List.length cache - MAX_PLANE_CACHE)) by lia.
    + now rewrite LruFacts.lastN_short.
  - intros Hsize. cbn [evictPlanes]. unfold JsMap.size in *.
    cbn [List.length].
    destruct (Nat.ltb_spec MAX_PLANE_CACHE (S (List.length cache)));
      [reflexivity|lia].
  - unfold clearPlaneCache, generateChunkPlanesCached. cbv zeta.
    cbn [JsMap.get JsMap.set]. reflexivity.
Qed.

End OverscanFacts.

(** ** The texture loader on concrete runs *)

Module TextureRuns.
Import TextureManager Notions Examples.
Open Scope nat_scope.

(** With no load in flight and no timer pending, nothing happens to the
    module until one of its functions is called again. *)
Lemma quiescent_stuck (s : State) :
  loadingUrls s = [] -> timers s = 0 ->
  forall evs, Forall environmentEvent evs -> run evs s = s.
Proof.
  intros Hl Ht evs. induction 1 as [|ev evs Hev _ IH]; [reflexivity|].
  cbn [run fold_left]. fold (run evs (step s ev)).
  assert (E : step s ev = s).
  { destruct ev; try contradiction; cbn [step].
    - unfold settle. now rewrite Hl.
    - now rewrite Ht. }
  now rewrite E.
Qed.

(** Cold start, all loads succeeding: 45 progress reports, the last one
    being 1, and the promise resolved with the 45 URLs cached. *)
Lemma coldStart_resolves :
  let s := run coldStart initialState in
  exists reports,
    preloads (effects s) = [mkPreload 45 45 reports true]
    /\ List.length reports = 45
    /\ (last reports 0 == 1)%Q
    /\ JsMap.keys (textureCache s) = map url (manifest 45)
    /\ failures (effects s) = [].
Proof.
  cbv zeta. eexists.
  split; [vm_compute; reflexivity|].
  split; [reflexivity|]. split; [reflexivity|].
  split; vm_compute; reflexivity.
Qed.

(** C1 (code_bug).  Cold start over the 45-pose manifest with the load of
    pose 7 failing: the failure is logged and the other 44 poses are
    cached, but the failed item never reports progress: 44 reports, the
    last one 44/45, and the promise is not resolved.  Nothing is in
    flight, queued or scheduled any more, so the promise stays pending
    whatever loads or timers the environment still delivers. *)
Theorem preloadAll_never_resolves_after_failure :
  let s := run coldStartWithFailure initialState in
  exists reports,
    preloads (effects s) = [mkPreload 45 44 reports false]
    /\ List.length reports = 44
    /\ (last reports 0 == 44 # 45)%Q
    /\ failures (effects s) = [poseUrl 7]
    /\ JsMap.size (textureCache s) = 44
    /\ JsMap.get (poseUrl 7) (loadCallbacks s) = Some [ReportProgress 0 6]
    /\ loadQueue s = [] /\ loadingUrls s = [] /\ timers s = 0
    /\ forall evs, Forall environmentEvent evs ->
                   preloads (effects (run evs s))
                   = [mkPreload 45 44 reports false].
Proof.
  cbv zeta. eexists.
  split; [vm_compute; reflexivity|].
  split; [reflexivity|]. split; [reflexivity|].
  split; [vm_compute; reflexivity|]. split; [vm_compute; reflexivity|].
  split; [vm_compute; reflexivity|]. split; [vm_compute; reflexivity|].
  split; [vm_compute; reflexivity|]. split; [vm_compute; reflexivity|].
  intros evs Hevs. rewrite quiescent_stuck; try assumption;
    vm_compute; reflexivity.
Qed.


(** C3 (code_bug).  Eviction counts the entries of [textureLastUsed] it
    skips, and that map also holds URLs that are not cached.  With 752
    poses requested back to back, the insert of the 751st texture takes
    the cache to 751 entries and disposes of nothing: the oldest
    timestamp is the one of the pose still waiting.  With a pose whose
    load failed, 751 poses loaded one by one leave 751 entries as well. *)
Theorem eviction_leaves_cache_over_capacity :
  (let s := run burstOfRequests initialState in
   JsMap.size (textureCache s) = 751
   /\ MAX_CACHE_SIZE < JsMap.size (textureCache s)
   /\ disposed (effects s) = []
   /\ failures (effects s) = [])
  /\ (let s := run failureThenLoads initialState in
      JsMap.size (textureCache s) = 751
      /\ MAX_CACHE_SIZE < JsMap.size (textureCache s)
      /\ disposed (effects s) = []
      /\ JsMap.get (poseUrl 0) (textureLastUsed s) = Some (clock 0)
      /\ JsMap.get (poseUrl 0) (textureCache s) = None).
Proof.
  cbv zeta. split.
  - assert (E : (fun s => (JsMap.size (textureCache s), disposed (effects s),
                           failures (effects s)))
                  (run burstOfRequests initialState)
                = (751, [], [])) by (vm_compute; reflexivity).
    cbv beta in E.
    apply pair_equal_spec in E as [E E3].
    apply pair_equal_spec in E as [E1 E2].
    rewrite E1, E2, E3. repeat split. unfold MAX_CACHE_SIZE. lia.
  - assert (E : (fun s => (JsMap.size (textureCache s), disposed (effects s),
                           JsMap.get (poseUrl 0) (textureLastUsed s),
                           JsMap.get (poseUrl 0) (textureCache s)))
                  (run failureThenLoads initialState)
                = (751, [], Some (clock 0), None)) by (vm_compute; reflexivity).
    cbv beta in E.
    apply pair_equal_spec in E as [E E4].
    apply pair_equal_spec in E as [E E3].
    apply pair_equal_spec in E as [E1 E2].
    rewrite E1, E2, E3, E4. repeat split. unfold MAX_CACHE_SIZE. lia.
Qed.

(** C4 (code_bug).  [getCachedTexture] returns the cached texture and
    leaves every module variable as it was, [textureLastUsed] included.
    With 750 poses cached, pose 1 being the oldest: after pose 1 is read
    this way, the next insert evicts and disposes of pose 1; after the
    same read through [getTexture], pose 1 stays and pose 2 goes. *)
Theorem getCachedTexture_does_not_refresh :
  (forall u s, step s (GetCachedTexture u) = s)
  /\ getCachedTexture (poseUrl 1) (run (loadOneByOne 1 750) initialState)
     = Some (mkTexture 0 true)
  /\ (let s := run (readThenLoad (GetCachedTexture (poseUrl 1))) initialState in
      JsMap.get (poseUrl 1) (textureCache s) = None
      /\ disposed (effects s) = [mkTexture 0 true])
  /\ (let s := run (readThenLoad (GetTexture (pose 1) None (clock 1501)))
                   initialState in
      JsMap.get (poseUrl 1) (textureCache s) = Some (mkTexture 0 true)
      /\ JsMap.get (poseUrl 2) (textureCache s) = None
      /\ disposed (effects s) = [mkTexture 1 true]).
Proof.
  cbv zeta. split; [reflexivity|].
  split; [vm_compute; reflexivity|]. split.
  - assert (E : (fun s => (JsMap.get (poseUrl 1) (textureCache s),
                           disposed (effects s)))
                  (run (readThenLoad (GetCachedTexture (poseUrl 1)))
                       initialState)
                = (None, [mkTexture 0 true])) by (vm_compute; reflexivity).
    cbv beta in E. apply pair_equal_spec in E as [E1 E2].
    rewrite E1, E2. split; reflexivity.
  - assert (E : (fun s => (JsMap.get (poseUrl 1) (textureCache s),
                           JsMap.get (poseUrl 2) (textureCache s),
                           disposed (effects s)))
                  (run (readThenLoad (GetTexture (pose 1) None (clock 1501)))
                       initialState)
                = (Some (mkTexture 0 true), None, [mkTexture 1 true]))
      by (vm_compute; reflexivity).
    cbv beta in E.
    apply pair_equal_spec in E as [E E3].
    apply pair_equal_spec in E as [E1 E2].
    rewrite E1, E2, E3. repeat split.
Qed.

End TextureRuns.
